(** * WebGLLogoParticles: the particle builder, the physics step and the
      life cycle of [src/webglanim.ts], embedded over binary64 numbers.

    A JavaScript [number] is an IEEE 754 binary64 value, which is what Rocq's
    primitive [float] is; every arithmetic operation of the source is the
    primitive operation of the same name, and reasoning goes through the
    [Prim2SF] specification of the Standard Library. *)

From Stdlib Require Import ZArith List Bool Lia Floats Uint63.
From Stdlib.Strings Require Import Byte.
From stdpp Require Import base list strings.
Import ListNotations.

#[local] Set Warnings "-inexact-float".
#[local] Open Scope float_scope.

(** ** JavaScript numbers *)

Module JS.

Definition number := float.

(** [a === b] on numbers. *)
Definition strict_eq (a b : number) : bool := (a =? b).

(** [Math.min(a, b)]: NaN if either argument is NaN, and [-0] below [+0]. *)
Definition Math_min (a b : number) : number :=
  if is_nan a || is_nan b then nan
  else if a <? b then a
  else if b <? a then b
  else if get_sign a then a else b.

Definition Math_sqrt (a : number) : number := PrimFloat.sqrt a.

(** The shapes of a binary64 value. *)
Definition is_zero_sf (s : spec_float) : bool :=
  match s with S754_zero _ => true | _ => false end.

Definition is_finite_sf (s : spec_float) : bool :=
  match s with S754_zero _ | S754_finite _ _ _ => true | _ => false end.

(** [mag_le k x]: [x] is a zero, or finite with [|x| < 2^k]. *)
Definition mag_le (k : Z) (x : spec_float) : Prop :=
  match x with
  | S754_zero _ => True
  | S754_finite _ m e => (Zpos (digits2_pos m) + e <= k)%Z
  | _ => False
  end.

(** [mag_ge k x]: [x] is finite and not zero, with [2^(k-1) <= |x|]. *)
Definition mag_ge (k : Z) (x : spec_float) : Prop :=
  match x with
  | S754_finite _ m e => (k <= Zpos (digits2_pos m) + e)%Z
  | _ => False
  end.

(** [x] is [+0], [+infinity], a positive finite number or a NaN. *)
Definition not_negative (x : spec_float) : Prop :=
  match x with
  | S754_zero s | S754_infinity s | S754_finite s _ _ => s = false
  | S754_nan => True
  end.

End JS.

Import JS.

(** ** Effects: a state threaded through the calls, and thrown errors

    A thrown error keeps the state reached so far, as an exception leaves the
    mutations made before it in place. [Timeout] is the outcome of a call
    whose loop was given too little fuel to finish. *)

Inductive outcome (A : Type) : Type :=
  | Return (a : A)
  | Throw (message : string)
  | Timeout.
Arguments Return {A} a.
Arguments Throw {A} message.
Arguments Timeout {A}.

Definition M (S A : Type) : Type := S -> S * outcome A.

Definition ret {S A} (a : A) : M S A := fun s => (s, Return a).
Definition throw {S A} (message : string) : M S A := fun s => (s, Throw message).
Definition timeout {S A} : M S A := fun s => (s, Timeout).
Definition get {S} : M S S := fun s => (s, Return s).
Definition put {S} (s : S) : M S unit := fun _ => (s, Return tt).
Definition modify {S} (f : S -> S) : M S unit := fun s => (f s, Return tt).
Definition bind {S A B} (c : M S A) (k : A -> M S B) : M S B :=
  fun s => match c s with
           | (s', Return a) => k a s'
           | (s', Throw e) => (s', Throw e)
           | (s', Timeout) => (s', Timeout)
           end.

Notation "x <- c ;; k" := (bind c (fun x => k))
  (at level 100, c at next level, right associativity).
Notation "c ;;; k" := (bind c (fun _ => k))
  (at level 100, right associativity).

(** The message of the error raised by reading a property of [undefined]. *)
Definition TypeError : string := "TypeError".

(** ** The data model *)

Module Particle.

Record t := mk {
  x : number;
  y : number;
  z : number;
  vx : number;
  vy : number;
  vz : number;
  originX : number;
  originY : number;
  originZ : number;
  color : number * number * number * number;
  size : number
}.

End Particle.

Abbreviation Particle := Particle.t.

(** ** The physics step: the body of the loop of [animate] *)

Module Physics.

Definition attractionForce : number := 0.06.
Definition mouseRepelForce : number := 4.
Definition mouseRadius : number := 120.
Definition friction : number := 0.92.
Definition mouseRadiusSquared : number := mouseRadius * mouseRadius.

(** The pointer state that [animate] reads: [isMouseOver], [mouseX], [mouseY]. *)
Record pointer := mkPointer {
  isMouseOver : bool;
  mouseX : number;
  mouseY : number
}.

(** "Attraction to origin". *)
Definition attract (p : Particle) : Particle :=
  let dx := Particle.originX p - Particle.x p in
  let dy := Particle.originY p - Particle.y p in
  let dz := Particle.originZ p - Particle.z p in
  Particle.mk (Particle.x p) (Particle.y p) (Particle.z p)
    (Particle.vx p + dx * attractionForce)
    (Particle.vy p + dy * attractionForce)
    (Particle.vz p + dz * attractionForce * 0.5)
    (Particle.originX p) (Particle.originY p) (Particle.originZ p)
    (Particle.color p) (Particle.size p).

(** The locals of the "Mouse interaction" block. *)
Definition mouseDx (m : pointer) (p : Particle) : number := Particle.x p - mouseX m.
Definition mouseDy (m : pointer) (p : Particle) : number := Particle.y p - mouseY m.
Definition mouseDistSquared (m : pointer) (p : Particle) : number :=
  mouseDx m p * mouseDx m p + mouseDy m p * mouseDy m p.
Definition mouseDist (m : pointer) (p : Particle) : number :=
  Math_sqrt (mouseDistSquared m p).
Definition force (m : pointer) (p : Particle) : number :=
  (mouseRadius - mouseDist m p) / mouseRadius.

(** The three amounts added to the velocity inside the inner [if]. *)
Definition repelX (m : pointer) (p : Particle) : number :=
  (mouseDx m p / (mouseDist m p + 0.1)) * force m p * mouseRepelForce.
Definition repelY (m : pointer) (p : Particle) : number :=
  (mouseDy m p / (mouseDist m p + 0.1)) * force m p * mouseRepelForce.
Definition repelZ (m : pointer) (p : Particle) : number :=
  force m p * mouseRepelForce * 0.5.

(** "Mouse interaction". *)
Definition mouse_interaction (m : pointer) (p : Particle) : Particle :=
  if isMouseOver m then
    if mouseDistSquared m p <? mouseRadiusSquared then
      Particle.mk (Particle.x p) (Particle.y p) (Particle.z p)
        (Particle.vx p + repelX m p)
        (Particle.vy p + repelY m p)
        (Particle.vz p + repelZ m p)
        (Particle.originX p) (Particle.originY p) (Particle.originZ p)
        (Particle.color p) (Particle.size p)
    else p
  else p.

(** "Apply friction". *)
Definition apply_friction (p : Particle) : Particle :=
  Particle.mk (Particle.x p) (Particle.y p) (Particle.z p)
    (Particle.vx p * friction) (Particle.vy p * friction) (Particle.vz p * friction)
    (Particle.originX p) (Particle.originY p) (Particle.originZ p)
    (Particle.color p) (Particle.size p).

(** "Update position". *)
Definition update_position (p : Particle) : Particle :=
  Particle.mk
    (Particle.x p + Particle.vx p) (Particle.y p + Particle.vy p) (Particle.z p + Particle.vz p)
    (Particle.vx p) (Particle.vy p) (Particle.vz p)
    (Particle.originX p) (Particle.originY p) (Particle.originZ p)
    (Particle.color p) (Particle.size p).

(** One iteration of the loop body, on the particle [p = this.particles[i]]. *)
Definition update_particle (m : pointer) (p : Particle) : Particle :=
  update_position (apply_friction (mouse_interaction m (attract p))).

(** [for (let i = 0; i < this.particleCount; i++)]: the particle is read at
    index [i] and mutated in place; reading a field of [undefined] raises a
    [TypeError] and leaves the particles updated so far. *)
Fixpoint update_from (remaining i : nat) (m : pointer) : M (list Particle) unit :=
  match remaining with
  | O => ret tt
  | S r =>
      ps <- get ;;
      match ps !! i with
      | None => throw TypeError
      | Some p =>
          put (<[i := update_particle m p]> ps) ;;;
          update_from r (S i) m
      end
  end.

Definition update_particles (particleCount : nat) (m : pointer) : M (list Particle) unit :=
  update_from particleCount 0 m.

End Physics.

(** ** The particle builder: [createParticles] *)

Module Builder.

(** [imageData.data], a [Uint8ClampedArray]. *)
Definition pixels := list Byte.byte.

Definition number_of_byte (b : Byte.byte) : number :=
  of_uint63 (Uint63.of_Z (Z.of_N (Byte.to_N b))).

(** The array index a number denotes as a property key, when it denotes one:
    a non-negative integer ([-0] is the key ["0"]). *)
Definition index_of (i : number) : option Z :=
  match Prim2SF i with
  | S754_zero _ => Some 0%Z
  | S754_finite false m e =>
      match e with
      | Z0 => Some (Zpos m)
      | Zpos _ => Some (Z.shiftl (Zpos m) e)
      | Zneg k =>
          if Z.eqb (Z.land (Zpos m) (Z.ones (Zpos k))) 0
          then Some (Z.shiftr (Zpos m) (Zpos k))
          else None
      end
  | _ => None
  end.

(** [pixelData[i]]: [undefined] (here [None]) unless [i] is an index in range. *)
Definition element (data : pixels) (i : number) : option Byte.byte :=
  match index_of i with
  | Some n => if (n <? Z.of_nat (length data))%Z then data !! Z.to_nat n else None
  | None => None
  end.

(** [ToNumber] of an element that may be [undefined]. *)
Definition to_number (v : option Byte.byte) : number :=
  match v with
  | Some b => number_of_byte b
  | None => nan
  end.

(** The locals computed before the loops. *)
Record layout := mkLayout {
  scale : number;
  logoWidth : number;
  logoHeight : number;
  offsetX : number;
  offsetY : number
}.

Definition compute_layout (canvasWidth canvasHeight imageWidth imageHeight : number) : layout :=
  let scale := Math_min ((canvasWidth * 0.9) / imageWidth)
                        ((canvasHeight * 0.9) / imageHeight) in
  let logoWidth := imageWidth * scale in
  let logoHeight := imageHeight * scale in
  mkLayout scale logoWidth logoHeight
    ((canvasWidth - logoWidth) / 2) ((canvasHeight - logoHeight) / 2).

Definition particleGap : number := 1.

(** What the loops carry: [this.particles] and the number of calls made to
    [Math.random], whose successive results are [random 0], [random 1], ... *)
Definition acc : Type := list Particle * nat.

Section Loops.

Variable L : layout.
Variable pixelData : pixels.
Variable random : nat -> number.

Definition pixelIndex (x y : number) : number := (y * logoWidth L + x) * 4.

(** [const alpha = pixelData[pixelIndex + 3]]. *)
Definition alpha (x y : number) : option Byte.byte :=
  element pixelData (pixelIndex x y + 3).

(** The object pushed for the pixel [(x, y)]. *)
Definition new_particle (x y : number) (calls : nat) : Particle :=
  let red := to_number (element pixelData (pixelIndex x y)) / 255 in
  let green := to_number (element pixelData (pixelIndex x y + 1)) / 255 in
  let blue := to_number (element pixelData (pixelIndex x y + 2)) / 255 in
  let z := (random calls * 2 - 1) * 20 in
  Particle.mk (offsetX L + x) (offsetY L + y) z
    0 0 0
    (offsetX L + x) (offsetY L + y) 0
    (red, green, blue, 1.0)
    (random (S calls) * 1.5 + 0.9).

(** The body of the inner loop. *)
Definition visit (x y : number) (a : acc) : acc :=
  if 128 <? to_number (alpha x y)
  then (fst a ++ [new_particle x y (snd a)], S (S (snd a)))
  else a.

(** [for (let x = 0; x < logoWidth; x += particleGap)], from the current [x];
    [None] when the fuel runs out before the loop ends. *)
Fixpoint row (fuel : nat) (x y : number) (a : acc) : option acc :=
  if x <? logoWidth L then
    match fuel with
    | O => None
    | S f => row f (x + particleGap) y (visit x y a)
    end
  else Some a.

(** [for (let y = 0; y < logoHeight; y += particleGap)], from the current [y]. *)
Fixpoint rows (fuel : nat) (y : number) (a : acc) : option acc :=
  if y <? logoHeight L then
    match fuel with
    | O => None
    | S f =>
        match row fuel 0 y a with
        | None => None
        | Some a' => rows f (y + particleGap) a'
        end
    end
  else Some a.

End Loops.

(** The particles built from a bitmap whose 2D context was obtained. *)
Definition build (fuel : nat) (canvasWidth canvasHeight imageWidth imageHeight : number)
    (pixelData : pixels) (random : nat -> number) (calls : nat) : option acc :=
  rows (compute_layout canvasWidth canvasHeight imageWidth imageHeight)
       pixelData random fuel 0 ([], calls).

End Builder.

(** ** The instance and the page around it *)

Module Lifecycle.

Inductive shader_type := VERTEX_SHADER | FRAGMENT_SHADER.

(** What the browser answers to the calls the class makes. *)
Record Host := mkHost {
  webgl2 : bool;                          (* [canvas.getContext("webgl2")] is not null *)
  compiles : shader_type -> bool;         (* [COMPILE_STATUS] *)
  shaderInfoLog : shader_type -> string;  (* [gl.getShaderInfoLog] *)
  links : bool;                           (* [LINK_STATUS] *)
  programInfoLog : string;                (* [gl.getProgramInfoLog] *)
  context2d : bool;                       (* [tempCanvas.getContext("2d")] is not null *)
  imageWidth : number;                    (* [this.logoImage.width] *)
  imageHeight : number;                   (* [this.logoImage.height] *)
  pixelData : Builder.pixels;             (* [imageData.data] *)
  random : nat -> number                  (* the successive results of [Math.random()] *)
}.

(** The fields of the instance, followed by the state of the page that the
    instance acts on. *)
Record World := mkWorld {
  canvasWidth : number;  (* [this.canvas.width] *)
  canvasHeight : number;  (* [this.canvas.height] *)
  particles : list Particle;
  mouseX : number;
  mouseY : number;
  animationId : Z;
  isMouseOver : bool;
  programLive : bool;  (* [this.program] is a program that was not deleted *)
  bufferLive : bool;  (* [this.vertexBuffer] is a buffer that was not deleted *)
  particleCount : nat;
  mouseMoveHandler : bool;  (* [this._mouseMoveHandler] is set *)
  mouseOutHandler : bool;  (* [this._mouseOutHandler] is set *)
  onload : bool;  (* [this.logoImage.onload] is set *)
  loaded : bool;  (* the load event of the image was delivered *)
  listeners : list string;  (* the event types the canvas has a listener for *)
  scheduled : list Z;  (* the pending [requestAnimationFrame] callbacks, by id *)
  lastFrameId : Z;  (* the last id [requestAnimationFrame] returned *)
  console : list (string * string);  (* the arguments of the [console.error] calls *)
  vertexData : list number;  (* the array last passed to [gl.bufferData] *)
  draws : list nat;  (* the counts of the [gl.drawArrays(gl.POINTS, 0, count)] calls *)
  randomCalls : nat  (* the number of [Math.random()] calls made *)
}.

Definition set_canvasWidth (v : number) (w : World) : World :=
  mkWorld v (canvasHeight w) (particles w) (mouseX w) (mouseY w) (animationId w) (isMouseOver w) (programLive w) (bufferLive w) (particleCount w) (mouseMoveHandler w) (mouseOutHandler w) (onload w) (loaded w) (listeners w) (scheduled w) (lastFrameId w) (console w) (vertexData w) (draws w) (randomCalls w).
Definition set_canvasHeight (v : number) (w : World) : World :=
  mkWorld (canvasWidth w) v (particles w) (mouseX w) (mouseY w) (animationId w) (isMouseOver w) (programLive w) (bufferLive w) (particleCount w) (mouseMoveHandler w) (mouseOutHandler w) (onload w) (loaded w) (listeners w) (scheduled w) (lastFrameId w) (console w) (vertexData w) (draws w) (randomCalls w).
Definition set_particles (v : list Particle) (w : World) : World :=
  mkWorld (canvasWidth w) (canvasHeight w) v (mouseX w) (mouseY w) (animationId w) (isMouseOver w) (programLive w) (bufferLive w) (particleCount w) (mouseMoveHandler w) (mouseOutHandler w) (onload w) (loaded w) (listeners w) (scheduled w) (lastFrameId w) (console w) (vertexData w) (draws w) (randomCalls w).
Definition set_mouseX (v : number) (w : World) : World :=
  mkWorld (canvasWidth w) (canvasHeight w) (particles w) v (mouseY w) (animationId w) (isMouseOver w) (programLive w) (bufferLive w) (particleCount w) (mouseMoveHandler w) (mouseOutHandler w) (onload w) (loaded w) (listeners w) (scheduled w) (lastFrameId w) (console w) (vertexData w) (draws w) (randomCalls w).
Definition set_mouseY (v : number) (w : World) : World :=
  mkWorld (canvasWidth w) (canvasHeight w) (particles w) (mouseX w) v (animationId w) (isMouseOver w) (programLive w) (bufferLive w) (particleCount w) (mouseMoveHandler w) (mouseOutHandler w) (onload w) (loaded w) (listeners w) (scheduled w) (lastFrameId w) (console w) (vertexData w) (draws w) (randomCalls w).
Definition set_animationId (v : Z) (w : World) : World :=
  mkWorld (canvasWidth w) (canvasHeight w) (particles w) (mouseX w) (mouseY w) v (isMouseOver w) (programLive w) (bufferLive w) (particleCount w) (mouseMoveHandler w) (mouseOutHandler w) (onload w) (loaded w) (listeners w) (scheduled w) (lastFrameId w) (console w) (vertexData w) (draws w) (randomCalls w).
Definition set_isMouseOver (v : bool) (w : World) : World :=
  mkWorld (canvasWidth w) (canvasHeight w) (particles w) (mouseX w) (mouseY w) (animationId w) v (programLive w) (bufferLive w) (particleCount w) (mouseMoveHandler w) (mouseOutHandler w) (onload w) (loaded w) (listeners w) (scheduled w) (lastFrameId w) (console w) (vertexData w) (draws w) (randomCalls w).
Definition set_programLive (v : bool) (w : World) : World :=
  mkWorld (canvasWidth w) (canvasHeight w) (particles w) (mouseX w) (mouseY w) (animationId w) (isMouseOver w) v (bufferLive w) (particleCount w) (mouseMoveHandler w) (mouseOutHandler w) (onload w) (loaded w) (listeners w) (scheduled w) (lastFrameId w) (console w) (vertexData w) (draws w) (randomCalls w).
Definition set_bufferLive (v : bool) (w : World) : World :=
  mkWorld (canvasWidth w) (canvasHeight w) (particles w) (mouseX w) (mouseY w) (animationId w) (isMouseOver w) (programLive w) v (particleCount w) (mouseMoveHandler w) (mouseOutHandler w) (onload w) (loaded w) (listeners w) (scheduled w) (lastFrameId w) (console w) (vertexData w) (draws w) (randomCalls w).
Definition set_particleCount (v : nat) (w : World) : World :=
  mkWorld (canvasWidth w) (canvasHeight w) (particles w) (mouseX w) (mouseY w) (animationId w) (isMouseOver w) (programLive w) (bufferLive w) v (mouseMoveHandler w) (mouseOutHandler w) (onload w) (loaded w) (listeners w) (scheduled w) (lastFrameId w) (console w) (vertexData w) (draws w) (randomCalls w).
Definition set_mouseMoveHandler (v : bool) (w : World) : World :=
  mkWorld (canvasWidth w) (canvasHeight w) (particles w) (mouseX w) (mouseY w) (animationId w) (isMouseOver w) (programLive w) (bufferLive w) (particleCount w) v (mouseOutHandler w) (onload w) (loaded w) (listeners w) (scheduled w) (lastFrameId w) (console w) (vertexData w) (draws w) (randomCalls w).
Definition set_mouseOutHandler (v : bool) (w : World) : World :=
  mkWorld (canvasWidth w) (canvasHeight w) (particles w) (mouseX w) (mouseY w) (animationId w) (isMouseOver w) (programLive w) (bufferLive w) (particleCount w) (mouseMoveHandler w) v (onload w) (loaded w) (listeners w) (scheduled w) (lastFrameId w) (console w) (vertexData w) (draws w) (randomCalls w).
Definition set_onload (v : bool) (w : World) : World :=
  mkWorld (canvasWidth w) (canvasHeight w) (particles w) (mouseX w) (mouseY w) (animationId w) (isMouseOver w) (programLive w) (bufferLive w) (particleCount w) (mouseMoveHandler w) (mouseOutHandler w) v (loaded w) (listeners w) (scheduled w) (lastFrameId w) (console w) (vertexData w) (draws w) (randomCalls w).
Definition set_loaded (v : bool) (w : World) : World :=
  mkWorld (canvasWidth w) (canvasHeight w) (particles w) (mouseX w) (mouseY w) (animationId w) (isMouseOver w) (programLive w) (bufferLive w) (particleCount w) (mouseMoveHandler w) (mouseOutHandler w) (onload w) v (listeners w) (scheduled w) (lastFrameId w) (console w) (vertexData w) (draws w) (randomCalls w).
Definition set_listeners (v : list string) (w : World) : World :=
  mkWorld (canvasWidth w) (canvasHeight w) (particles w) (mouseX w) (mouseY w) (animationId w) (isMouseOver w) (programLive w) (bufferLive w) (particleCount w) (mouseMoveHandler w) (mouseOutHandler w) (onload w) (loaded w) v (scheduled w) (lastFrameId w) (console w) (vertexData w) (draws w) (randomCalls w).
Definition set_scheduled (v : list Z) (w : World) : World :=
  mkWorld (canvasWidth w) (canvasHeight w) (particles w) (mouseX w) (mouseY w) (animationId w) (isMouseOver w) (programLive w) (bufferLive w) (particleCount w) (mouseMoveHandler w) (mouseOutHandler w) (onload w) (loaded w) (listeners w) v (lastFrameId w) (console w) (vertexData w) (draws w) (randomCalls w).
Definition set_lastFrameId (v : Z) (w : World) : World :=
  mkWorld (canvasWidth w) (canvasHeight w) (particles w) (mouseX w) (mouseY w) (animationId w) (isMouseOver w) (programLive w) (bufferLive w) (particleCount w) (mouseMoveHandler w) (mouseOutHandler w) (onload w) (loaded w) (listeners w) (scheduled w) v (console w) (vertexData w) (draws w) (randomCalls w).
Definition set_console (v : list (string * string)) (w : World) : World :=
  mkWorld (canvasWidth w) (canvasHeight w) (particles w) (mouseX w) (mouseY w) (animationId w) (isMouseOver w) (programLive w) (bufferLive w) (particleCount w) (mouseMoveHandler w) (mouseOutHandler w) (onload w) (loaded w) (listeners w) (scheduled w) (lastFrameId w) v (vertexData w) (draws w) (randomCalls w).
Definition set_vertexData (v : list number) (w : World) : World :=
  mkWorld (canvasWidth w) (canvasHeight w) (particles w) (mouseX w) (mouseY w) (animationId w) (isMouseOver w) (programLive w) (bufferLive w) (particleCount w) (mouseMoveHandler w) (mouseOutHandler w) (onload w) (loaded w) (listeners w) (scheduled w) (lastFrameId w) (console w) v (draws w) (randomCalls w).
Definition set_draws (v : list nat) (w : World) : World :=
  mkWorld (canvasWidth w) (canvasHeight w) (particles w) (mouseX w) (mouseY w) (animationId w) (isMouseOver w) (programLive w) (bufferLive w) (particleCount w) (mouseMoveHandler w) (mouseOutHandler w) (onload w) (loaded w) (listeners w) (scheduled w) (lastFrameId w) (console w) (vertexData w) v (randomCalls w).
Definition set_randomCalls (v : nat) (w : World) : World :=
  mkWorld (canvasWidth w) (canvasHeight w) (particles w) (mouseX w) (mouseY w) (animationId w) (isMouseOver w) (programLive w) (bufferLive w) (particleCount w) (mouseMoveHandler w) (mouseOutHandler w) (onload w) (loaded w) (listeners w) (scheduled w) (lastFrameId w) (console w) (vertexData w) (draws w) v.

(** A page with a default canvas, before the instance is constructed. *)
Definition fresh : World :=
  mkWorld 300 150 [] (-1000) (-1000) 0 false false false 0 false false
    false false [] [] 0 [] [] [] 0.

Definition pointer_of (w : World) : Physics.pointer :=
  Physics.mkPointer (isMouseOver w) (mouseX w) (mouseY w).

(** [createShader]: "Compile a shader from source". *)
Definition createShader (h : Host) (type : shader_type) : M World unit :=
  if negb (compiles h type) then
    w <- get ;;
    put (set_console (console w ++ [("Shader compile error:", shaderInfoLog h type)]) w) ;;;
    throw "Shader compilation failed"
  else ret tt.

(** [createProgram]: "Link vertex and fragment shaders into a program". *)
Definition createProgram (h : Host) : M World unit :=
  if negb (links h) then
    w <- get ;;
    put (set_console (console w ++ [("Program link error:", programInfoLog h)]) w) ;;;
    throw "Program linking failed"
  else ret tt.

Definition initWebGL (h : Host) : M World unit :=
  modify (set_canvasWidth 350) ;;;
  modify (set_canvasHeight 150) ;;;
  createShader h VERTEX_SHADER ;;;
  createShader h FRAGMENT_SHADER ;;;
  createProgram h ;;;
  modify (set_programLive true) ;;;
  modify (set_bufferLive true) ;;;
  modify (set_onload true).

Definition setupEventListeners : M World unit :=
  w <- get ;;
  put (set_listeners (listeners w ++ ["mousemove"; "mouseout"]) w) ;;;
  modify (set_mouseMoveHandler true) ;;;
  modify (set_mouseOutHandler true).

Definition constructor (h : Host) : M World unit :=
  if negb (webgl2 h) then throw "WebGL2 not supported"
  else
    initWebGL h ;;;
    setupEventListeners.

(** The two handlers installed by [setupEventListeners]; [rectLeft] and [rectTop]
    are the [left] and [top] of [this.canvas.getBoundingClientRect()]. *)
Definition mouseMove (clientX clientY rectLeft rectTop : number) : M World unit :=
  modify (set_mouseX (clientX - rectLeft)) ;;;
  modify (set_mouseY (clientY - rectTop)) ;;;
  modify (set_isMouseOver true).

Definition mouseOut : M World unit :=
  modify (set_isMouseOver false) ;;;
  modify (set_mouseX (-1000)) ;;;
  modify (set_mouseY (-1000)).

(** A store into a [Float32Array] rounds to binary32. *)
Definition Math_fround (a : number) : number :=
  SF2Prim match Prim2SF a with
          | S754_finite s m e => binary_round 24 128 s m e
          | sf => sf
          end.

(** The eight floats of the particle at index [i] and of those after it,
    [None] when [this.particles[i]] is [undefined]. *)
Fixpoint vertices (remaining i : nat) (ps : list Particle) : option (list number) :=
  match remaining with
  | O => Some []
  | S r =>
      match ps !! i with
      | None => None
      | Some p =>
          match vertices r (S i) ps with
          | None => None
          | Some rest =>
              let '(cr, cg, cb, ca) := Particle.color p in
              Some (map Math_fround
                      [Particle.x p; Particle.y p; Particle.z p; cr; cg; cb; ca;
                       Particle.size p] ++ rest)
          end
      end
  end.

Definition updateVertexBuffer : M World unit :=
  w <- get ;;
  match vertices (particleCount w) 0 (particles w) with
  | None => throw TypeError
  | Some data => put (set_vertexData data w)
  end.

(** The name of the [DOMException] that [getImageData] raises for an empty
    rectangle. *)
Definition IndexSizeError : string := "IndexSizeError".

(** The integer part of a number, [None] for NaN and the infinities. *)
Definition integer_part (a : number) : option Z :=
  match Prim2SF a with
  | S754_zero _ => Some 0%Z
  | S754_finite s m e =>
      Some (cond_Zopp s
              match e with
              | Z0 => Zpos m
              | Zpos _ => Z.shiftl (Zpos m) e
              | Zneg k => Z.shiftr (Zpos m) (Zpos k)
              end)
  | _ => None
  end.

(** The conversion of an argument declared [[EnforceRange] long]: the integer
    part, and a [TypeError] (here [None]) for NaN, for the infinities and
    outside the 32-bit range. *)
Definition enforce_range_long (a : number) : option Z :=
  match integer_part a with
  | Some n => if (- 2 ^ 31 <=? n)%Z && (n <=? 2 ^ 31 - 1)%Z then Some n else None
  | None => None
  end.

(** [tempCtx.getImageData(0, 0, logoWidth, logoHeight)]: the width and the
    height of the bitmap read, or the name of the error raised: the two
    sizes are converted first, and a size of zero is refused. *)
Definition getImageData (logoWidth logoHeight : number) : Z * Z + string :=
  match enforce_range_long logoWidth, enforce_range_long logoHeight with
  | Some sw, Some sh =>
      if (sw =? 0)%Z || (sh =? 0)%Z then inr IndexSizeError else inl (sw, sh)
  | _, _ => inr TypeError
  end.

(** [createParticles]: "Generate particles based on logo image". *)
Definition createParticles (fuel : nat) (h : Host) : M World unit :=
  modify (set_particles []) ;;;
  if negb (context2d h) then ret tt
  else
    w <- get ;;
    let L := Builder.compute_layout (canvasWidth w) (canvasHeight w)
               (imageWidth h) (imageHeight h) in
    match getImageData (Builder.logoWidth L) (Builder.logoHeight L) with
    | inr e => throw e
    | inl _ =>
        match Builder.build fuel (canvasWidth w) (canvasHeight w)
                (imageWidth h) (imageHeight h) (pixelData h) (random h) (randomCalls w) with
        | None => timeout
        | Some (ps, calls) =>
            put (set_randomCalls calls (set_particles ps w)) ;;;
            modify (fun w => set_particleCount (length (particles w)) w) ;;;
            updateVertexBuffer
        end
    end.

(** [requestAnimationFrame(() => this.animate())]: a fresh positive id. *)
Definition requestAnimationFrame : M World Z :=
  w <- get ;;
  let id := (lastFrameId w + 1)%Z in
  put (set_scheduled (scheduled w ++ [id]) (set_lastFrameId id w)) ;;;
  ret id.

Definition cancelAnimationFrame (id : Z) : M World unit :=
  modify (fun w => set_scheduled (List.filter (fun i => negb (i =? id)%Z) (scheduled w)) w).

(** [animate]: the physics step on every particle, the upload, the draw call
    and the request for the next frame. *)
Definition animate : M World unit :=
  w <- get ;;
  (let '(ps, o) := Physics.update_particles (particleCount w) (pointer_of w) (particles w) in
   put (set_particles ps w) ;;;
   match o with
   | Return _ => ret tt
   | Throw e => throw e
   | Timeout => timeout
   end) ;;;
  updateVertexBuffer ;;;
  modify (fun w => set_draws (draws w ++ [particleCount w]) w) ;;;
  id <- requestAnimationFrame ;;
  modify (set_animationId id).

Definition removeEventListener (type : string) : M World unit :=
  modify (fun w => set_listeners (List.filter (fun t => negb (String.eqb t type)) (listeners w)) w).

(** [destroy]: "Clean up resources". *)
Definition destroy : M World unit :=
  w <- get ;;
  cancelAnimationFrame (animationId w) ;;;
  modify (set_programLive false) ;;;
  modify (set_bufferLive false) ;;;
  (if mouseMoveHandler w then removeEventListener "mousemove" else ret tt) ;;;
  (if mouseOutHandler w then removeEventListener "mouseout" else ret tt).

(** What can happen to a constructed instance: the browser delivers the load
    event of the image, presents a frame, delivers a pointer event, or the
    page calls [destroy]. *)
Inductive event :=
  | ImageLoad
  | AnimationFrame
  | MouseMove (clientX clientY rectLeft rectTop : number)
  | MouseOut
  | Destroy.

Fixpoint run_callbacks (ids : list Z) : M World unit :=
  match ids with
  | [] => ret tt
  | _ :: rest => animate ;;; run_callbacks rest
  end.

Definition has_listener (type : string) (w : World) : bool :=
  existsb (String.eqb type) (listeners w).

(** The handler of an event. The constructor assigns [logoImage.src] once, so
    the browser delivers the load event of the image at most once: [loaded]
    records that delivery, and a further [ImageLoad] in a sequence of events
    stands for no event at all. The source itself has no such guard: its
    [onload] handler stays in place, also after [destroy]. *)
Definition dispatch (fuel : nat) (h : Host) (ev : event) : M World unit :=
  w <- get ;;
  match ev with
  | ImageLoad =>
      if onload w && negb (loaded w) then
        put (set_loaded true w) ;;;
        createParticles fuel h ;;;
        animate
      else ret tt
  | AnimationFrame =>
      put (set_scheduled [] w) ;;;
      run_callbacks (scheduled w)
  | MouseMove clientX clientY rectLeft rectTop =>
      if has_listener "mousemove" w then mouseMove clientX clientY rectLeft rectTop else ret tt
  | MouseOut =>
      if has_listener "mouseout" w then mouseOut else ret tt
  | Destroy => destroy
  end.

(** A sequence of events; an error raised by one handler is reported and the
    page goes on with the next event. The outcomes are listed in order. *)
Fixpoint replay (fuel : nat) (h : Host) (evs : list event) (w : World)
  : World * list (outcome unit) :=
  match evs with
  | [] => (w, [])
  | ev :: rest =>
      let '(w1, o) := dispatch fuel h ev w in
      let '(w2, os) := replay fuel h rest w1 in
      (w2, o :: os)
  end.

End Lifecycle.

Import Lifecycle.

(** ** The specification's wording of the physics step and of the layout

    These definitions follow the sentences of the specification; the
    theorems below compare them with the definitions taken from the source. *)

Module Spec.

Definition attraction : number := 0.06.
Definition mouseRepel : number := 4.
Definition mouseRadius : number := 120.
Definition friction : number := 0.92.

Definition vec3 : Type := number * number * number.

Definition position (p : Particle) : vec3 := (Particle.x p, Particle.y p, Particle.z p).
Definition velocity (p : Particle) : vec3 := (Particle.vx p, Particle.vy p, Particle.vz p).
Definition origin (p : Particle) : vec3 :=
  (Particle.originX p, Particle.originY p, Particle.originZ p).

Definition with_velocity (v : vec3) (p : Particle) : Particle :=
  let '(vx, vy, vz) := v in
  Particle.mk (Particle.x p) (Particle.y p) (Particle.z p) vx vy vz
    (Particle.originX p) (Particle.originY p) (Particle.originZ p)
    (Particle.color p) (Particle.size p).

Definition with_position (q : vec3) (p : Particle) : Particle :=
  let '(x, y, z) := q in
  Particle.mk x y z (Particle.vx p) (Particle.vy p) (Particle.vz p)
    (Particle.originX p) (Particle.originY p) (Particle.originZ p)
    (Particle.color p) (Particle.size p).

(** 1. velocity += (origin - position) * attraction, the z-component damped
    by an extra factor of 0.5. *)
Definition spring (p : Particle) : Particle :=
  let '(x, y, z) := position p in
  let '(vx, vy, vz) := velocity p in
  let '(ox, oy, oz) := origin p in
  with_velocity (vx + (ox - x) * attraction,
                 vy + (oy - y) * attraction,
                 vz + (oz - z) * attraction * 0.5) p.

(** 2. Pointer repulsion, only while the pointer is over the surface. *)
Definition repel (over : bool) (pointer : number * number) (p : Particle) : Particle :=
  if over then
    let '(x, y, _) := position p in
    let '(vx, vy, vz) := velocity p in
    let dx := x - fst pointer in
    let dy := y - snd pointer in
    if dx * dx + dy * dy <? mouseRadius * mouseRadius then
      let dist := Math_sqrt (dx * dx + dy * dy) in
      let force := (mouseRadius - dist) / mouseRadius in
      with_velocity (vx + dx / (dist + 0.1) * force * mouseRepel,
                     vy + dy / (dist + 0.1) * force * mouseRepel,
                     vz + force * mouseRepel * 0.5) p
    else p
  else p.

(** 3. velocity *= friction, on all three axes. *)
Definition damp (p : Particle) : Particle :=
  let '(vx, vy, vz) := velocity p in
  with_velocity (vx * friction, vy * friction, vz * friction) p.

(** 4. position += velocity. *)
Definition integrate (p : Particle) : Particle :=
  let '(x, y, z) := position p in
  let '(vx, vy, vz) := velocity p in
  with_position (x + vx, y + vy, z + vz) p.

Definition step (over : bool) (pointer : number * number) (p : Particle) : Particle :=
  integrate (damp (repel over pointer (spring p))).

(** The scale and the offsets of the builder. *)
Definition scale (canvasWidth canvasHeight w h : number) : number :=
  Math_min (0.9 * canvasWidth / w) (0.9 * canvasHeight / h).

Definition offsetX (canvasWidth canvasHeight w h : number) : number :=
  (canvasWidth - w * scale canvasWidth canvasHeight w h) / 2.

Definition offsetY (canvasWidth canvasHeight w h : number) : number :=
  (canvasHeight - h * scale canvasWidth canvasHeight w h) / 2.

End Spec.

(** ** Vocabulary of the statements *)

(** [n] physics steps in a row, the pointer state being [m] throughout. *)
Fixpoint physics_steps (n particleCount : nat) (m : Physics.pointer) : M (list Particle) unit :=
  match n with
  | O => ret tt
  | S k => Physics.update_particles particleCount m ;;; physics_steps k particleCount m
  end.

(** The fields the simulation is not meant to touch. *)
Definition anchor (p : Particle) : number * number * number * (number * number * number * number) * number :=
  (Particle.originX p, Particle.originY p, Particle.originZ p, Particle.color p, Particle.size p).

(** A particle at rest: finite coordinates, at its origin, not moving. *)
Definition at_rest (p : Particle) : bool :=
  is_finite (Particle.x p) && is_finite (Particle.y p) && is_finite (Particle.z p)
  && strict_eq (Particle.x p) (Particle.originX p)
  && strict_eq (Particle.y p) (Particle.originY p)
  && strict_eq (Particle.z p) (Particle.originZ p)
  && strict_eq (Particle.vx p) 0 && strict_eq (Particle.vy p) 0 && strict_eq (Particle.vz p) 0.

(** Two states of a particle with equal positions and velocities ([===]). *)
Definition same_motion (p q : Particle) : bool :=
  strict_eq (Particle.x p) (Particle.x q) && strict_eq (Particle.y p) (Particle.y q)
  && strict_eq (Particle.z p) (Particle.z q)
  && strict_eq (Particle.vx p) (Particle.vx q) && strict_eq (Particle.vy p) (Particle.vy q)
  && strict_eq (Particle.vz p) (Particle.vz q).

(** The alpha byte as an integer is above 128. *)
Definition above_128 (v : option Byte.byte) : bool :=
  match v with
  | Some b => (128 <? Z.of_N (Byte.to_N b))%Z
  | None => false
  end.

(** [settled p0 p]: [p] is a later state of the particle that was [p0], both
    at rest, with the same position and velocity and the same anchor. *)
Definition settled (p0 p : Particle) : Prop :=
  at_rest p0 = true /\ at_rest p = true /\ same_motion p p0 = true /\ anchor p = anchor p0.

Definition flat_origin (p : Particle) : Prop := Particle.originZ p = 0.

Definition opaque_red_row : Builder.pixels :=
  concat (repeat [Byte.xff; Byte.x00; Byte.x00; Byte.xff] 315).

(** A row of 315 pixels, the first opaque red and the others transparent. *)
Definition one_red_pixel : Builder.pixels :=
  [Byte.xff; Byte.x00; Byte.x00; Byte.xff] ++ repeat Byte.x00 1256.

Definition half_alpha_row : Builder.pixels :=
  concat (repeat [Byte.xff; Byte.xff; Byte.xff; Byte.x80] 315).

Definition sample_random : nat -> number := fun _ => 0.25.

Definition sample_host : Host :=
  mkHost true (fun _ => true) (fun _ => "") true "" true 315 1 opaque_red_row sample_random.

Definition blind_host : Host :=
  mkHost true (fun _ => true) (fun _ => "") true "" false 315 1 opaque_red_row sample_random.


(** The instance right after a successful construction. *)
Definition constructed : World :=
  mkWorld 350 150 [] (-1000) (-1000) 0 false true true 0 true true
    true false ["mousemove"; "mouseout"] [] 0 [] [] [] 0.

(** [particleCount] is the length of [particles]. *)
Definition consistent (w : World) : Prop := particleCount w = length (particles w).

(** What the events after the load preserve: the particle array has
    [particleCount] elements and the load is not delivered again. *)
Definition simulating (w : World) : Prop := consistent w /\ loaded w = true.

(** The world after one call of [animate], [data] being the uploaded array. *)
Definition animated (data : list number) (w : World) : World :=
  let id := (lastFrameId w + 1)%Z in
  set_animationId id
    (set_scheduled (scheduled w ++ [id])
       (set_lastFrameId id
          (set_draws (draws w ++ [particleCount w])
             (set_vertexData data
                (set_particles (map (Physics.update_particle (pointer_of w)) (particles w)) w))))).

Definition idle (w : World) : Prop :=
  particles w = [] /\ particleCount w = 0%nat /\ scheduled w = [lastFrameId w].

(** After the load, at most the frame requested last is pending, and the
    two pointer handlers are the only listeners. *)
Definition running (w : World) : Prop :=
  simulating w
  /\ (scheduled w = [] \/ scheduled w = [animationId w])
  /\ mouseMoveHandler w = true /\ mouseOutHandler w = true
  /\ Forall (fun t => t = "mousemove" \/ t = "mouseout") (listeners w).

(** The listeners left by [removeEventListener(type, _)], called when the
    handler field is set. *)
Definition unsubscribe (handler : bool) (type : string) (l : list string) : list string :=
  if handler then List.filter (fun t => negb (String.eqb t type)) l else l.

(** Nothing is scheduled and the load is behind: the state [destroy] leaves. *)
Definition stopped (w : World) : Prop := loaded w = true /\ scheduled w = [].

(** What [createParticles] leaves alone. *)
Definition page_view (w : World) :=
  (scheduled w, lastFrameId w, animationId w, mouseMoveHandler w, mouseOutHandler w,
   listeners w, loaded w, draws w).

Module Render.

(** [getProjectionMatrix]: "Orthographic projection for 2D-like rendering";
    the sixteen numbers are stored into a [Float32Array]. *)
Definition getProjectionMatrix (w : World) : list number :=
  let left := 0 in
  let right := canvasWidth w in
  let bottom := canvasHeight w in
  let top := 0 in
  let near := -1000 in
  let far := 1000 in
  map Math_fround
    [2 / (right - left); 0; 0; 0;
     0; 2 / (top - bottom); 0; 0;
     0; 0; 2 / (near - far); 0;
     (- (right + left)) / (right - left);
     (- (top + bottom)) / (top - bottom);
     (- (far + near)) / (far - near);
     1].

(** The eight floats [updateVertexBuffer] stores for one particle. *)
Definition vertex (p : Particle) : list number :=
  let '(cr, cg, cb, ca) := Particle.color p in
  map Math_fround
    [Particle.x p; Particle.y p; Particle.z p; cr; cg; cb; ca; Particle.size p].

(** [gl.vertexAttribPointer(loc, size, gl.FLOAT, false, stride, offset)]:
    [size] floats per vertex, [stride] bytes from one vertex to the next,
    the first at byte [offset] of the bound buffer. *)
Record attribute := mkAttribute {
  components : nat;
  stride : nat;
  offset : nat
}.

(** The three pointers [animate] sets up. *)
Definition positionAttribute : attribute := mkAttribute 3 32 0.
Definition colorAttribute : attribute := mkAttribute 4 32 12.
Definition sizeAttribute : attribute := mkAttribute 1 32 28.

(** What the attribute reads for vertex [i] from a buffer of 4-byte floats. *)
Definition fetch (a : attribute) (data : list number) (i : nat) : list number :=
  take (components a) (drop ((i * stride a + offset a) / 4)%nat data).

End Render.

Module Page.

(** What [document.getElementById("particle-canvas")] returns: [null], a
    canvas, or an element of another kind (the cast to [HTMLCanvasElement]
    is not checked at run time). *)
Inductive element := Missing | Canvas | Other.

(** [main.ts]: the instance is constructed when the element is found; on an
    element that is not a canvas, [canvas.getContext] is not a function. *)
Definition main (el : element) (h : Host) : M World unit :=
  match el with
  | Missing => ret tt
  | Canvas => constructor h
  | Other => throw TypeError
  end.

End Page.

(** The events a page that keeps no reference to the instance can deliver:
    every one but the call of [destroy]. *)
Definition from_browser (ev : event) : bool :=
  match ev with Destroy => false | _ => true end.

(** Nothing is subscribed: no [onload] handler, no listener, no frame. *)
Definition unsubscribed (w : World) : Prop :=
  onload w = false /\ listeners w = [] /\ scheduled w = [].

(** The state [destroy] leaves after the load. *)
Definition inert (w : World) : Prop :=
  loaded w = true /\ scheduled w = [] /\ listeners w = []
  /\ programLive w = false /\ bufferLive w = false.

(** The number of frames presented in a sequence of events. *)
Definition frames (evs : list event) : nat :=
  length (List.filter (fun ev => match ev with AnimationFrame => true | _ => false end) evs).

(** The buffer holds the current particles. *)
Definition synced (w : World) : Prop :=
  vertexData w = flat_map Render.vertex (particles w).

(** What a frame leaves alone: the canvas, the pointer, the subscriptions,
    the GPU objects and the console. *)
Definition frame_view (w : World) :=
  (canvasWidth w, canvasHeight w, mouseX w, mouseY w, isMouseOver w,
   onload w, loaded w, listeners w, mouseMoveHandler w, mouseOutHandler w,
   programLive w, bufferLive w, console w).

(** The loop is alive: the load is behind, the particle array, its count
    and the uploaded buffer agree, the frame requested last is the one
    pending, and both pointer handlers are subscribed. *)
Definition alive (w : World) : Prop :=
  consistent w /\ synced w
  /\ loaded w = true
  /\ scheduled w = [animationId w] /\ lastFrameId w = animationId w
  /\ listeners w = ["mousemove"; "mouseout"]
  /\ programLive w = true /\ bufferLive w = true.

(** A color channel as the builder computes it: a number between 0 and 1,
    or NaN when the pixel read fell outside the data. *)
Definition channel (c : number) : bool :=
  is_nan c || ((0 <=? c) && (c <=? 1)).



(** ** Whole numbers and the pixels of the bitmap *)

(** The number whose value is the natural number [n]: a column, a row or an
    index into the data. *)
Definition whole (n : nat) : number := of_uint63 (Uint63.of_Z (Z.of_nat n)).

(** [x] is the binary64 value of the whole number [n]. *)
Definition represents (n : Z) (x : spec_float) : Prop :=
  match x with
  | S754_zero s => s = false /\ n = 0%Z
  | S754_finite s m e =>
      s = false /\ (0 < n)%Z /\ e = (Zdigits2 n - 53)%Z
      /\ Zpos m = (n * 2 ^ (53 - Zdigits2 n))%Z
  | _ => False
  end.

(** The byte of channel [c] of the pixel in column [x] and row [y] of a
    bitmap [sw] pixels wide: [ImageData] stores the pixels row by row, four
    bytes each, red, green, blue and alpha. *)
Definition pixel_byte (sw : nat) (data : Builder.pixels) (x y c : nat) : option Byte.byte :=
  data !! ((y * sw + x) * 4 + c)%nat.

Definition pixel_alpha (sw : nat) (data : Builder.pixels) (x y : nat) : option Byte.byte :=
  pixel_byte sw data x y 3.

(** The pixels of a bitmap [sw] wide and [sh] high, row by row. *)
Definition bitmap_pixels (sw sh : nat) : list (nat * nat) :=
  flat_map (fun y => map (fun x => (x, y)) (seq 0 sw)) (seq 0 sh).

(** Where a particle is anchored in the plane of the canvas. *)
Definition anchored_at (p : Particle) : number * number :=
  (Particle.originX p, Particle.originY p).

(** The particle of the pixel [(x, y)] of the bitmap: anchored at the offset
    plus the pixel's coordinates, with the pixel's red, green and blue. *)
Definition pixel_particle (L : Builder.layout) (sw : nat) (data : Builder.pixels)
    (random : nat -> number) (x y calls : nat) : Particle :=
  Particle.mk (Builder.offsetX L + whole x) (Builder.offsetY L + whole y)
    ((random calls * 2 - 1) * 20)
    0 0 0
    (Builder.offsetX L + whole x) (Builder.offsetY L + whole y) 0
    (Builder.to_number (pixel_byte sw data x y 0) / 255,
     Builder.to_number (pixel_byte sw data x y 1) / 255,
     Builder.to_number (pixel_byte sw data x y 2) / 255,
     1.0)
    (random (S calls) * 1.5 + 0.9).

(** The anchors of the particles that the pixel [(x, y)] yields: one when its
    alpha byte is above 128, none otherwise. *)
Definition pixel_yield (L : Builder.layout) (sw : nat) (data : Builder.pixels)
    (xy : nat * nat) : list (number * number) :=
  if above_128 (pixel_alpha sw data (fst xy) (snd xy))
  then [(Builder.offsetX L + whole (fst xy), Builder.offsetY L + whole (snd xy))]
  else [].

(** The colors of the particles that the pixel [(x, y)] yields. *)
Definition pixel_colors (sw : nat) (data : Builder.pixels)
    (xy : nat * nat) : list (number * number * number * number) :=
  if above_128 (pixel_alpha sw data (fst xy) (snd xy))
  then [(Builder.to_number (pixel_byte sw data (fst xy) (snd xy) 0) / 255,
         Builder.to_number (pixel_byte sw data (fst xy) (snd xy) 1) / 255,
         Builder.to_number (pixel_byte sw data (fst xy) (snd xy) 2) / 255,
         1.0)]
  else [].

(** A row of 315 pixels: an opaque red one, a white one with an alpha of 128,
    a green one with an alpha of 129, and transparent ones. *)
Definition threshold_row : Builder.pixels :=
  [Byte.xff; Byte.x00; Byte.x00; Byte.xff] ++ [Byte.xff; Byte.xff; Byte.xff; Byte.x80]
  ++ [Byte.x00; Byte.xff; Byte.x00; Byte.x81] ++ repeat Byte.x00 1248.

(** An opaque white bitmap, 57 by 135. *)
Definition opaque_bitmap : Builder.pixels := repeat Byte.xff (4 * 57 * 135).

(** The two particles built when [threshold_row] is the bitmap of an image
    630 by 3, which is scaled by a half to 315 by 1.5. *)
Definition threshold_particles : list Particle :=
  [Particle.mk 17.5 74.25 (-10) 0 0 0 17.5 74.25 0 (1, 0, 0, 1) 1.2749999999999999;
   Particle.mk 19.5 74.25 (-10) 0 0 0 19.5 74.25 0 (0, 1, 0, 1) 1.2749999999999999].

(** An event other than the load event of the image, which the browser
    delivers once. *)
Definition not_a_load (ev : event) : bool :=
  match ev with ImageLoad => false | _ => true end.

(** * Theorems *)

(** ** Binary64 facts, through [Prim2SF] *)

Lemma SFcompare_finite_refl s m e :
  SFcompare (S754_finite s m e) (S754_finite s m e) = Some Eq.
Proof.
  cbn. rewrite Z.compare_refl, Pos.compare_cont_refl. now destruct s.
Qed.

Lemma SFcompare_finite_Eq s1 m1 e1 s2 m2 e2 :
  SFcompare (S754_finite s1 m1 e1) (S754_finite s2 m2 e2) = Some Eq ->
  s1 = s2 /\ m1 = m2 /\ e1 = e2.
Proof.
  cbn. destruct s1, s2; try discriminate;
    destruct (Z.compare_spec e1 e2) as [He|He|He]; try discriminate; intros Hm;
    (split; [reflexivity|split; [|assumption]]).
  - apply Pos.compare_eq. injection Hm as Hm. unfold Pos.compare.
    now destruct (Pos.compare_cont Eq m1 m2).
  - apply Pos.compare_eq. now injection Hm.
Qed.

Lemma is_finite_spec (f : number) : is_finite f = JS.is_finite_sf (Prim2SF f).
Proof.
  unfold is_finite, is_nan, is_infinity. rewrite !FloatAxioms.eqb_spec, FloatAxioms.abs_spec.
  change (Prim2SF infinity) with (S754_infinity false).
  unfold SFeqb. destruct (Prim2SF f) as [s|s| |s m e]; try reflexivity.
  - now destruct s.
  - rewrite SFcompare_finite_refl. reflexivity.
Qed.

Lemma eqb_zero_spec (f : number) : (f =? 0) = JS.is_zero_sf (Prim2SF f).
Proof.
  rewrite FloatAxioms.eqb_spec. change (Prim2SF 0) with (S754_zero false).
  destruct (Prim2SF f) as [s|s| |s m e]; try reflexivity; now destruct s.
Qed.

Lemma SFsub_diag s m e : SFsub prec emax (S754_finite s m e) (S754_finite s m e) = S754_zero false.
Proof.
  cbn -[shl_align]. rewrite Z.sub_diag. reflexivity.
Qed.

Ltac sf_trivial :=
  try discriminate; try reflexivity;
  try (intros; cbn in *; discriminate).

Lemma sub_strict_eq (a b : number) :
  is_finite a = true -> (a =? b) = true -> (b - a =? 0) = true.
Proof.
  rewrite is_finite_spec, FloatAxioms.eqb_spec, eqb_zero_spec, FloatAxioms.sub_spec. unfold SFeqb, SF64sub.
  destruct (Prim2SF a) as [[]|[]| |sa ma ea], (Prim2SF b) as [[]|[]| |sb mb eb];
    sf_trivial.
  all: try solve [destruct sa; sf_trivial].
  all: try solve [destruct sb; sf_trivial].
  intros _.
  destruct (SFcompare _ _) as [[]|] eqn:Hc; try discriminate.
  apply SFcompare_finite_Eq in Hc as (-> & -> & ->). intros _.
  now rewrite SFsub_diag.
Qed.

Lemma mul_zero_l (a c : number) :
  (a =? 0) = true -> is_finite c = true -> (a * c =? 0) = true.
Proof.
  rewrite is_finite_spec, !eqb_zero_spec, FloatAxioms.mul_spec. unfold SF64mul.
  destruct (Prim2SF a), (Prim2SF c); try discriminate; reflexivity.
Qed.

Lemma add_zero_zero (a b : number) :
  (a =? 0) = true -> (b =? 0) = true -> (a + b =? 0) = true.
Proof.
  rewrite !eqb_zero_spec, FloatAxioms.add_spec. unfold SF64add.
  destruct (Prim2SF a) as [[]| | |], (Prim2SF b) as [[]| | |]; try discriminate; reflexivity.
Qed.

Lemma add_zero_r (a b z : number) :
  is_finite a = true -> (a =? b) = true -> (z =? 0) = true ->
  is_finite (a + z) = true /\ (a + z =? b) = true.
Proof.
  rewrite !is_finite_spec, eqb_zero_spec, !FloatAxioms.eqb_spec, FloatAxioms.add_spec. unfold SFeqb, SF64add.
  destruct (Prim2SF z) as [[]| | |]; try discriminate;
  destruct (Prim2SF a) as [[]|[]| |sa ma ea]; try discriminate; intros _;
  destruct (Prim2SF b) as [[]|[]| |sb mb eb]; sf_trivial;
  try solve [intros; split; reflexivity]; try solve [destruct sa; sf_trivial];
  try solve [destruct sb; sf_trivial].
  all: intros H _; cbn; split; [reflexivity|assumption].
Qed.

Lemma strict_eq_refl (a : number) : is_finite a = true -> (a =? a) = true.
Proof.
  rewrite is_finite_spec, FloatAxioms.eqb_spec. unfold SFeqb.
  destruct (Prim2SF a) as [[]|[]| |sa ma ea]; try discriminate; try reflexivity.
  now rewrite SFcompare_finite_refl.
Qed.

Lemma zero_strict_eq (a b : number) :
  (a =? 0) = true -> (b =? 0) = true -> (a =? b) = true.
Proof.
  rewrite !eqb_zero_spec, FloatAxioms.eqb_spec.
  destruct (Prim2SF a) as [[]| | |], (Prim2SF b) as [[]| | |]; try discriminate; reflexivity.
Qed.

(** ** Binary64 magnitudes: how large a rounded result can be

    The number of binary digits of a mantissa plus its exponent bounds the
    value; the lemmas below follow it through [binary_round_aux] and the
    operations built on it. *)

#[local] Open Scope Z_scope.

Lemma digits2_pos_size (p : positive) : digits2_pos p = Pos.size p.
Proof. induction p as [p IH|p IH|]; cbn; now rewrite ?IH. Qed.

Lemma Zdigits2_log2 (m : Z) : 0 < m -> Zdigits2 m = Z.log2 m + 1.
Proof.
  destruct m as [|p|p]; try lia. intros _. cbn [Zdigits2].
  rewrite digits2_pos_size. destruct p as [p|p|]; cbn; lia.
Qed.

Lemma Zdigits2_nonneg (m : Z) : 0 <= Zdigits2 m.
Proof. destruct m; cbn; lia. Qed.

Lemma Zdigits2_pos (m : Z) : 0 < m -> 0 < Zdigits2 m.
Proof. destruct m; cbn; lia. Qed.

Lemma Zdigits2_bounds (m : Z) : 0 < m -> 2 ^ (Zdigits2 m - 1) <= m < 2 ^ Zdigits2 m.
Proof.
  intros H. rewrite Zdigits2_log2 by assumption.
  replace (Z.log2 m + 1 - 1) with (Z.log2 m) by lia.
  apply Z.log2_spec. assumption.
Qed.

Lemma Zdigits2_le (m k : Z) : 0 <= m -> 0 <= k -> m < 2 ^ k -> Zdigits2 m <= k.
Proof.
  intros Hm Hk H. destruct (Z.eq_dec m 0) as [->|Hn]; [cbn; lia|].
  rewrite Zdigits2_log2 by lia. apply Z.log2_lt_pow2 in H; lia.
Qed.

Lemma Zdigits2_ge (m k : Z) : 0 < m -> 2 ^ (k - 1) <= m -> k <= Zdigits2 m.
Proof.
  intros Hm H. rewrite Zdigits2_log2 by lia.
  destruct (Z.le_gt_cases 0 (k - 1)) as [Hk|Hk].
  - apply Z.log2_le_pow2 in H; lia.
  - pose proof (Z.log2_nonneg m). lia.
Qed.

Lemma Zdigits2_mono (a b : Z) : 0 <= a <= b -> Zdigits2 a <= Zdigits2 b.
Proof.
  intros [Ha Hab]. destruct (Z.eq_dec a 0) as [->|Hn]; [apply Zdigits2_nonneg|].
  rewrite !Zdigits2_log2 by lia. pose proof (Z.log2_le_mono a b Hab). lia.
Qed.

Lemma Zdigits2_succ (m : Z) : 0 <= m -> Zdigits2 (m + 1) <= Zdigits2 m + 1.
Proof.
  intros Hm. destruct (Z.eq_dec m 0) as [->|Hn]; [vm_compute; discriminate|].
  rewrite !Zdigits2_log2 by lia. pose proof (Z.log2_succ_le m) as H.
  rewrite <- Z.add_1_r in H. lia.
Qed.

Lemma Zdigits2_div_pow2 (m n : Z) :
  0 <= n -> 0 < m / 2 ^ n -> Zdigits2 (m / 2 ^ n) = Zdigits2 m - n.
Proof.
  intros Hn Hq.
  assert (Hm : 0 < m).
  { destruct (Z.lt_ge_cases 0 m) as [|Hle]; [assumption|].
    assert (m / 2 ^ n <= 0); [|lia].
    apply Z.div_le_upper_bound; [apply Z.pow_pos_nonneg; lia|lia]. }
  rewrite !Zdigits2_log2 by lia.
  rewrite <- Z.shiftr_div_pow2 by lia. rewrite Z.log2_shiftr by lia.
  assert (n <= Z.log2 m); [|lia].
  destruct (Z.le_gt_cases n (Z.log2 m)) as [|Hlt]; [assumption|].
  exfalso. assert (m < 2 ^ n).
  { apply Z.log2_lt_pow2; lia. }
  rewrite Z.div_small in Hq by lia. lia.
Qed.

Lemma Zdigits2_mul_pow2 (m n : Z) :
  0 < m -> 0 <= n -> Zdigits2 (m * 2 ^ n) = Zdigits2 m + n.
Proof.
  intros Hm Hn. rewrite !Zdigits2_log2.
  - rewrite Z.log2_mul_pow2 by lia. lia.
  - assumption.
  - apply Z.mul_pos_pos; [assumption|apply Z.pow_pos_nonneg; lia].
Qed.

Lemma Zdigits2_mul (a b : Z) :
  0 < a -> 0 < b ->
  Zdigits2 a + Zdigits2 b - 1 <= Zdigits2 (a * b) <= Zdigits2 a + Zdigits2 b.
Proof.
  intros Ha Hb. rewrite !Zdigits2_log2 by nia.
  pose proof (Z.log2_mul_below a b Ha Hb). pose proof (Z.log2_mul_above a b). lia.
Qed.

(** ** Shifting right with a round bit *)

Lemma shr_1_spec (r : shr_record) :
  0 <= shr_m r ->
  shr_m (shr_1 r) = shr_m r / 2 /\ shr_r (shr_1 r) = Z.testbit (shr_m r) 0.
Proof.
  destruct r as [m rb sb]. cbn [shr_m]. intros Hm.
  rewrite <- Z.div2_div, Z.bit0_odd.
  destruct m as [|[p|p|]|p]; try lia; cbn; auto.
Qed.

Lemma iter_shr_1_spec (p : positive) :
  forall r : shr_record,
    0 <= shr_m r ->
    shr_m (SpecFloat.iter_pos shr_1 p r) = shr_m r / 2 ^ Zpos p
    /\ shr_r (SpecFloat.iter_pos shr_1 p r) = Z.testbit (shr_m r) (Zpos p - 1).
Proof.
  induction p as [p IH|p IH|]; intros r Hr; cbn [SpecFloat.iter_pos].
  - destruct (shr_1_spec r Hr) as [Hm1 _].
    assert (H1 : 0 <= shr_m (shr_1 r)) by (rewrite Hm1; apply Z.div_pos; lia).
    destruct (IH _ H1) as [Hm2 _].
    assert (H2 : 0 <= shr_m (SpecFloat.iter_pos shr_1 p (shr_1 r))).
    { rewrite Hm2. apply Z.div_pos; [lia|apply Z.pow_pos_nonneg; lia]. }
    destruct (IH _ H2) as [Hm3 Hr3]. rewrite Hm3, Hr3, Hm2, Hm1.
    assert (Hp : 0 < 2 ^ Zpos p) by (apply Z.pow_pos_nonneg; lia).
    split.
    + rewrite !Z.div_div by lia. f_equal.
      replace (Z.pos p~1) with (Z.pos p + Z.pos p + 1) by lia.
      rewrite !Z.pow_add_r by lia. change (2 ^ 1) with 2. ring.
    + rewrite Z.div_div by lia.
      replace (2 * 2 ^ Zpos p) with (2 ^ (Zpos p + 1)) by (rewrite Z.pow_add_r; lia).
      rewrite Z.div_pow2_bits by lia. f_equal. lia.
  - destruct (IH _ Hr) as [Hm1 _].
    assert (H1 : 0 <= shr_m (SpecFloat.iter_pos shr_1 p r)).
    { rewrite Hm1. apply Z.div_pos; [lia|apply Z.pow_pos_nonneg; lia]. }
    destruct (IH _ H1) as [Hm2 Hr2]. rewrite Hm2, Hr2, Hm1.
    assert (Hp : 0 < 2 ^ Zpos p) by (apply Z.pow_pos_nonneg; lia).
    split.
    + rewrite Z.div_div by lia. f_equal.
      replace (Z.pos p~0) with (Z.pos p + Z.pos p) by lia.
      now rewrite Z.pow_add_r by lia.
    + rewrite Z.div_pow2_bits by lia. f_equal. lia.
  - destruct (shr_1_spec r Hr) as [-> ->]. split; reflexivity.
Qed.

Lemma shr_m_record_of_loc (m : Z) (l : location) : shr_m (shr_record_of_loc m l) = m.
Proof. now destruct l as [|[]]. Qed.

(** [shr_fexp] either leaves the mantissa alone or divides it by a power of 2,
    and then its round bit is the bit just below the cut. *)
Lemma shr_fexp_spec (m e : Z) (l : location) :
  0 <= m ->
  let n := fexp prec emax (Zdigits2 m + e) - e in
  (n <= 0 -> shr_fexp prec emax m e l = (shr_record_of_loc m l, e))
  /\ (0 < n ->
      exists r, shr_fexp prec emax m e l = (r, e + n)
                /\ shr_m r = m / 2 ^ n /\ shr_r r = Z.testbit m (n - 1)).
Proof.
  intros Hm n. unfold shr_fexp, shr. fold n. split; intros Hn.
  - destruct n; try lia; reflexivity.
  - destruct n as [|p|p]; try lia.
    eexists. split; [reflexivity|].
    rewrite <- (shr_m_record_of_loc m l) at 2 4.
    apply iter_shr_1_spec. now rewrite shr_m_record_of_loc.
Qed.

Lemma round_nearest_even_bounds (m : Z) (l : location) :
  m <= round_nearest_even m l <= m + 1.
Proof.
  destruct l as [|[]]; cbn; try lia. destruct (Z.even m); lia.
Qed.

Lemma round_nearest_even_down (r : shr_record) :
  shr_r r = false -> round_nearest_even (shr_m r) (loc_of_shr_record r) = shr_m r.
Proof.
  destruct r as [m [] []]; cbn; intros; try discriminate; reflexivity.
Qed.

(** ** The magnitude of a rounded value *)

Lemma fexp64 (k : Z) : fexp prec emax k = Z.max (k - 53) (-1074).
Proof. reflexivity. Qed.

Lemma shr_fexp_mag (m e : Z) (l : location) :
  0 <= m ->
  exists r e1,
    shr_fexp prec emax m e l = (r, e1)
    /\ 0 <= shr_m r <= m
    /\ e1 = Z.max e (Z.max (Zdigits2 m + e - 53) (-1074))
    /\ (0 < shr_m r -> Zdigits2 (shr_m r) + e1 = Zdigits2 m + e)
    /\ (0 < m -> shr_m r = 0 -> Zdigits2 m + e <= e1).
Proof.
  intros Hm. destruct (shr_fexp_spec m e l Hm) as [Hle Hgt].
  rewrite fexp64 in Hle, Hgt.
  set (n := Z.max (Zdigits2 m + e - 53) (-1074) - e) in *.
  destruct (Z.le_gt_cases n 0) as [Hn|Hn].
  - rewrite (Hle Hn). do 2 eexists. split; [reflexivity|].
    rewrite shr_m_record_of_loc. repeat split; lia.
  - destruct (Hgt ltac:(lia)) as (r & -> & Hr & _). exists r, (e + n).
    split; [reflexivity|]. rewrite Hr.
    assert (Hp : 0 < 2 ^ n) by (apply Z.pow_pos_nonneg; lia).
    repeat split.
    + apply Z.div_pos; lia.
    + apply Z.div_le_upper_bound; nia.
    + lia.
    + intros Hq. rewrite Zdigits2_div_pow2 by lia. lia.
    + intros Hm' Hq. apply Z.div_small_iff in Hq as [Hq|Hq]; [|lia|lia].
      assert (Zdigits2 m <= n) by (apply Zdigits2_le; lia). lia.
Qed.

(** The result of [binary_round_aux] on a positive mantissa [m] at exponent
    [e], the value being below [2 ^ D] for [D = digits m + e]: never a NaN; a
    zero only below the normal range; an infinity only from [2 ^ 1023] on
    (or from a too large exponent); and a finite result keeps the magnitude
    [D], up to one more binary digit. *)
Lemma binary_round_aux_mag (s : bool) (m e : Z) (l : location) :
  0 < m ->
  let D := Zdigits2 m + e in
  match binary_round_aux prec emax s m e l with
  | S754_zero s' => s' = s /\ D < -1021
  | S754_finite s' m' e' =>
      s' = s
      /\ Zpos (digits2_pos m') + e' <= Z.max D (-1074) + 1
      /\ (-1021 <= D -> D <= Zpos (digits2_pos m') + e')
  | S754_infinity s' => s' = s /\ (1024 <= D \/ 971 < e)
  | S754_nan => False
  end.
Proof.
  intros Hm D. unfold binary_round_aux.
  destruct (shr_fexp_mag m e l) as (r1 & e1 & -> & Hr1 & He1 & Hd1 & Hz1); [lia|].
  pose proof (round_nearest_even_bounds (shr_m r1) (loc_of_shr_record r1)) as Hrne.
  set (m2 := round_nearest_even (shr_m r1) (loc_of_shr_record r1)) in *.
  destruct (shr_fexp_mag m2 e1 loc_Exact) as (r2 & e2 & -> & Hr2 & He2 & Hd2 & Hz2); [lia|].
  pose proof (Zdigits2_pos m Hm) as Hdm.
  assert (Hm2 : 0 < m2 -> Zdigits2 m2 + e1 <= Z.max D (-1074) + 1
                          /\ (-1021 <= D -> D <= Zdigits2 m2 + e1) /\ 0 < Zdigits2 m2).
  { intros Hpos. pose proof (Zdigits2_pos m2 Hpos).
    destruct (Z.eq_dec (shr_m r1) 0) as [H0|H0].
    - specialize (Hz1 Hm H0). assert (m2 = 1) as -> by lia.
      change (Zdigits2 1) with 1. subst D. lia.
    - specialize (Hd1 ltac:(lia)).
      pose proof (Zdigits2_mono (shr_m r1) m2 ltac:(lia)).
      pose proof (Zdigits2_succ (shr_m r1) (proj1 Hr1)).
      pose proof (Zdigits2_mono m2 (shr_m r1 + 1) ltac:(lia)).
      subst D. lia. }
  assert (Hnormal : -1021 <= D -> 0 < shr_m r2).
  { intros HD. assert (0 < shr_m r1).
    { destruct (Z.eq_dec (shr_m r1) 0) as [H0|H0]; [|lia].
      specialize (Hz1 Hm H0). subst D. lia. }
    destruct (Hm2 ltac:(lia)) as (_ & Hlo & _). specialize (Hlo HD).
    destruct (Z.eq_dec (shr_m r2) 0) as [H0|H0]; [|lia].
    specialize (Hz2 ltac:(lia) H0). lia. }
  destruct (shr_m r2) as [|m3|m3] eqn:Hm3; [| |lia].
  - split; [reflexivity|]. destruct (Z.lt_ge_cases D (-1021)); [assumption|].
    specialize (Hnormal ltac:(lia)). lia.
  - assert (Hpos2 : 0 < m2) by lia.
    destruct (Hm2 Hpos2) as (Hup & Hlo & _). specialize (Hd2 ltac:(lia)).
    change (Zdigits2 (Z.pos m3)) with (Z.pos (digits2_pos m3)) in Hd2.
    destruct (e2 <=? emax - prec) eqn:He.
    + repeat split; lia.
    + split; [reflexivity|]. apply Z.leb_gt in He. change (emax - prec) with 971 in He.
      subst D. lia.
Qed.

Lemma iter_xO_mul (m d : positive) : Zpos (Pos.iter xO m d) = Zpos m * 2 ^ Zpos d.
Proof.
  rewrite <- Z.shiftl_mul_pow2 by lia. cbn [Z.shiftl].
  apply (Pos.iter_swap_gen _ _ Zpos xO (Z.mul 2)). reflexivity.
Qed.

(** [shl_align m e e'] rewrites [m * 2^e] with the exponent [min e e']. *)
Lemma shl_align_spec (m : positive) (e e' : Z) :
  let '(m', e'') := shl_align m e e' in
  e'' = Z.min e e' /\ Zpos m' = Zpos m * 2 ^ (e - e'').
Proof.
  unfold shl_align. destruct (e' - e) as [|d|d] eqn:Hd.
  - replace (Z.min e e') with e by lia. rewrite Z.sub_diag. split; lia.
  - replace (Z.min e e') with e by lia. rewrite Z.sub_diag. split; lia.
  - replace (Z.min e e') with e' by lia. split; [reflexivity|].
    rewrite iter_xO_mul. f_equal. f_equal. lia.
Qed.

(** The same bounds for [binary_round], whose input exponent is at most 971. *)
Lemma binary_round_mag (s : bool) (m : positive) (e : Z) :
  e <= 971 ->
  let D := Zpos (digits2_pos m) + e in
  match binary_round prec emax s m e with
  | S754_zero s' => s' = s /\ D < -1021
  | S754_finite s' m' e' =>
      s' = s
      /\ Zpos (digits2_pos m') + e' <= Z.max D (-1074) + 1
      /\ (-1021 <= D -> D <= Zpos (digits2_pos m') + e')
  | S754_infinity s' => s' = s /\ 1024 <= D
  | S754_nan => False
  end.
Proof.
  intros He D. unfold binary_round.
  pose proof (shl_align_spec m e (fexp prec emax (Zpos (digits2_pos m) + e))) as Hal.
  destruct (shl_align _ _ _) as [mz ez]. destruct Hal as [Hez Hmz].
  pose proof (binary_round_aux_mag s (Zpos mz) ez loc_Exact ltac:(lia)) as H.
  cbn zeta in H.
  assert (HD : Zdigits2 (Zpos mz) + ez = D).
  { rewrite Hmz, Zdigits2_mul_pow2 by lia. cbn [Zdigits2]. subst D. lia. }
  rewrite HD in H.
  destruct (binary_round_aux _ _ _ _ _ _); try assumption.
  destruct H as [Hs [H|H]]; [now split|lia].
Qed.

(** ** Magnitudes of binary64 values *)

Lemma valid_finite (s : bool) (m : positive) (e : Z) :
  valid_binary (S754_finite s m e) = true ->
  Zpos (digits2_pos m) <= 53 /\ -1074 <= e <= 971
  /\ (Zpos (digits2_pos m) < 53 -> e = -1074).
Proof.
  cbn [SpecFloat.valid_binary]. unfold bounded, canonical_mantissa.
  rewrite andb_true_iff, Z.eqb_eq, Z.leb_le, fexp64.
  change (emax - prec) with 971. lia.
Qed.

Lemma mag_le_finite (k : Z) (x : spec_float) : mag_le k x -> is_finite_sf x = true.
Proof. now destruct x. Qed.

Lemma mag_le_weaken (k k' : Z) (x : spec_float) : k <= k' -> mag_le k x -> mag_le k' x.
Proof. destruct x; cbn; lia. Qed.


Lemma SFmul_mag (a b : Z) (x y : spec_float) :
  valid_binary x = true -> valid_binary y = true ->
  mag_le a x -> mag_le b y -> a + b <= 1023 ->
  mag_le (Z.max (a + b) (-1074) + 1) (SFmul prec emax x y).
Proof.
  destruct x as [sx|sx| |sx mx ex], y as [sy|sy| |sy my ey]; cbn [mag_le SFmul];
    try tauto.
  intros Hx Hy Ha Hb Hab.
  apply valid_finite in Hx, Hy.
  pose proof (binary_round_aux_mag (xorb sx sy) (Zpos (mx * my)) (ex + ey) loc_Exact
                ltac:(lia)) as H.
  cbn zeta in H.
  pose proof (Zdigits2_mul (Zpos mx) (Zpos my) ltac:(lia) ltac:(lia)) as Hd.
  cbn [Zdigits2] in Hd. change (Z.pos mx * Z.pos my) with (Z.pos (mx * my)) in Hd.
  cbn [Zdigits2] in H, Hd.
  destruct (binary_round_aux _ _ _ _ _ _); cbn [mag_le]; try tauto; lia.
Qed.

Lemma SFmul_square_shape (x : spec_float) : not_negative (SFmul prec emax x x).
Proof.
  destruct x as [sx|sx| |sx mx ex]; cbn [SFmul not_negative];
    try apply xorb_nilpotent; trivial.
  pose proof (binary_round_aux_mag (xorb sx sx) (Zpos (mx * mx)) (ex + ex) loc_Exact
                ltac:(lia)) as H.
  cbn zeta in H. rewrite xorb_nilpotent in *.
  destruct (binary_round_aux _ _ _ _ _ _); cbn [not_negative]; tauto.
Qed.

(** A finite square bounds its root: [|x| < 2^513]. *)
Lemma SFmul_square_bound (x : spec_float) :
  valid_binary x = true -> valid_binary (SFmul prec emax x x) = true ->
  is_finite_sf (SFmul prec emax x x) = true ->
  mag_le 513 x.
Proof.
  destruct x as [sx|sx| |sx mx ex]; cbn [mag_le SFmul is_finite_sf]; intros Hx Hv Hf;
    try discriminate; trivial.
  apply valid_finite in Hx.
  pose proof (binary_round_aux_mag (xorb sx sx) (Zpos (mx * mx)) (ex + ex) loc_Exact
                ltac:(lia)) as H.
  cbn zeta in H.
  pose proof (Zdigits2_mul (Zpos mx) (Zpos mx) ltac:(lia) ltac:(lia)) as Hd.
  change (Z.pos mx * Z.pos mx) with (Z.pos (mx * mx)) in Hd.
  cbn [Zdigits2] in H, Hd.
  destruct (binary_round_aux _ _ _ _ _ _) as [| | |s' m' e']; try discriminate.
  - lia.
  - apply valid_finite in Hv. lia.
Qed.

Lemma Zdigits2_abs (M : Z) : Zdigits2 M = Zdigits2 (Z.abs M).
Proof. now destruct M. Qed.

Lemma binary_normalize_mag (M e : Z) (sz : bool) :
  e <= 971 ->
  let D := Zdigits2 M + e in
  match binary_normalize prec emax M e sz with
  | S754_zero _ => M = 0 \/ D < -1021
  | S754_finite s' m' e' =>
      s' = (M <? 0)
      /\ Zpos (digits2_pos m') + e' <= Z.max D (-1074) + 1
      /\ (-1021 <= D -> D <= Zpos (digits2_pos m') + e')
  | S754_infinity s' => s' = (M <? 0) /\ 1024 <= D
  | S754_nan => False
  end.
Proof.
  intros He D. destruct M as [|p|p]; cbn [binary_normalize].
  - now left.
  - pose proof (binary_round_mag false p e He) as H. cbn zeta in H.
    subst D. cbn [Zdigits2].
    destruct (binary_round _ _ _ _ _); try tauto.
  - pose proof (binary_round_mag true p e He) as H. cbn zeta in H.
    subst D. cbn [Zdigits2].
    destruct (binary_round _ _ _ _ _); try tauto.
Qed.

Lemma aligned_mantissa (m : positive) (e e' : Z) :
  e' <= e -> Zpos (fst (shl_align m e e')) = Zpos m * 2 ^ (e - e').
Proof.
  intros H. pose proof (shl_align_spec m e e') as Hs.
  destruct (shl_align m e e') as [m' e'']. destruct Hs as [-> Hm].
  cbn [fst]. rewrite Hm. now rewrite Z.min_r by lia.
Qed.

Lemma aligned_below (m : positive) (e ez k : Z) :
  ez <= e -> Zpos (digits2_pos m) + e <= k -> Zpos m * 2 ^ (e - ez) < 2 ^ (k - ez).
Proof.
  intros Hez Hk.
  pose proof (Zdigits2_bounds (Zpos m) ltac:(lia)) as [_ Hm]. cbn [Zdigits2] in Hm.
  apply Z.lt_le_trans with (2 ^ Zpos (digits2_pos m) * 2 ^ (e - ez)).
  - apply Z.mul_lt_mono_pos_r; [apply Z.pow_pos_nonneg; lia|assumption].
  - rewrite <- Z.pow_add_r by lia. apply Z.pow_le_mono_r; lia.
Qed.

Lemma cond_Zopp_abs (s : bool) (m : Z) : Z.abs (cond_Zopp s m) = Z.abs m.
Proof. destruct s; cbn; lia. Qed.

Lemma SFadd_mag (a b : Z) (x y : spec_float) :
  valid_binary x = true -> valid_binary y = true ->
  mag_le a x -> mag_le b y -> Z.max a b <= 1022 ->
  mag_le (Z.max (Z.max a b + 1) (-1074) + 1) (SFadd prec emax x y).
Proof.
  destruct x as [sx|sx| |sx mx ex], y as [sy|sy| |sy my ey]; cbn [mag_le SFadd];
    try tauto; intros Hx Hy Ha Hb Hab.
  - now destruct sx, sy.
  - lia.
  - lia.
  - apply valid_finite in Hx, Hy.
    set (ez := Z.min ex ey).
    rewrite !aligned_mantissa by lia.
    set (M := cond_Zopp sx _ + cond_Zopp sy _).
    pose proof (binary_normalize_mag M ez false ltac:(lia)) as H. cbn zeta in H.
    assert (HM : Zdigits2 M + ez <= Z.max a b + 1).
    { pose proof (aligned_below mx ex ez (Z.max a b) ltac:(lia) ltac:(lia)) as H1.
      pose proof (aligned_below my ey ez (Z.max a b) ltac:(lia) ltac:(lia)) as H2.
      assert (Zdigits2 M <= Z.max a b + 1 - ez); [|lia].
      rewrite Zdigits2_abs. apply Zdigits2_le; [lia|lia|].
      replace (Z.max a b + 1 - ez) with (Z.max a b - ez + 1) by lia.
      rewrite Z.pow_add_r by lia. change (2 ^ 1) with 2.
      assert (Z.abs M <= Z.pos mx * 2 ^ (ex - ez) + Z.pos my * 2 ^ (ey - ez)); [|lia].
      subst M. destruct sx, sy; cbn [cond_Zopp]; lia. }
    destruct (binary_normalize _ _ _ _ _); cbn [mag_le]; try tauto; lia.
Qed.

(** Adding a positive normal number to a number that is not negative: the
    sum is positive and at least as large. *)
Lemma SFadd_pos (a b : Z) (x y : spec_float) :
  valid_binary x = true -> valid_binary y = true ->
  not_negative x -> mag_le a x ->
  not_negative y -> mag_ge b y -> mag_le a y -> -1021 <= b -> a <= 1022 ->
  not_negative (SFadd prec emax x y)
  /\ mag_ge b (SFadd prec emax x y)
  /\ mag_le (Z.max (a + 1) (-1074) + 1) (SFadd prec emax x y).
Proof.
  intros Hx Hy Hnx Hax Hny Hby Hay Hb Ha.
  pose proof (SFadd_mag a a x y Hx Hy Hax Hay ltac:(lia)) as Hup.
  rewrite Z.max_id in Hup. split; [|split; [|exact Hup]];
  destruct x as [sx|sx| |sx mx ex], y as [sy|sy| |sy my ey];
    cbn [mag_le mag_ge not_negative SFadd] in *; try tauto; subst.
  all: apply valid_finite in Hx, Hy.
  all: set (ez := Z.min ex ey) in *.
  all: rewrite !aligned_mantissa in * by lia.
  all: cbn [cond_Zopp] in *.
  all: set (M := Z.pos mx * 2 ^ (ex - ez) + Z.pos my * 2 ^ (ey - ez)) in *.
  all: pose proof (binary_normalize_mag M ez false ltac:(lia)) as H; cbn zeta in H.
  all: assert (HM : 0 < M /\ b <= Zdigits2 M + ez).
  1,3: assert (Hpx : 0 < 2 ^ (ex - ez)) by (apply Z.pow_pos_nonneg; lia).
  1,2: assert (Hpy : 0 < 2 ^ (ey - ez)) by (apply Z.pow_pos_nonneg; lia).
  1,2: split; [subst M; nia|].
  1,2: pose proof (Zdigits2_mono (Z.pos my * 2 ^ (ey - ez)) M ltac:(subst M; nia)) as Hmono.
  1,2: rewrite Zdigits2_mul_pow2 in Hmono by lia; cbn [Zdigits2] in Hmono; lia.
  all: destruct HM as [HM0 HMb].
  all: destruct (binary_normalize _ _ _ _ _); cbn [not_negative mag_ge]; try tauto.
  all: try lia.
  all: destruct H as [-> _]; apply Z.ltb_ge; lia.
Qed.

(** ** Next to the largest finite number *)

(** A value in the top binade is rounded to a finite number as long as its
    first 53 bits are not all ones, or the bit after them is 0. *)
Lemma binary_round_aux_top (s : bool) (M e : Z) :
  0 < M -> e < 971 -> Zdigits2 M + e = 1024 ->
  M / 2 ^ (971 - e) < 2 ^ 53 - 1 \/ Z.testbit M (970 - e) = false ->
  is_finite_sf (binary_round_aux prec emax s M e loc_Exact) = true.
Proof.
  intros HM He HD Hbit. unfold binary_round_aux.
  destruct (shr_fexp_spec M e loc_Exact ltac:(lia)) as [_ H1].
  rewrite HD, fexp64 in H1. cbn zeta in H1.
  replace (Z.max (1024 - 53) (-1074) - e) with (971 - e) in H1 by lia.
  destruct (H1 ltac:(lia)) as (r1 & -> & Hm1 & Hr1). clear H1.
  replace (971 - e - 1) with (970 - e) in Hr1 by lia.
  replace (e + (971 - e)) with 971 by lia.
  pose proof (Zdigits2_bounds M HM) as [HMlo HMhi].
  assert (Hp : 0 < 2 ^ (971 - e)) by (apply Z.pow_pos_nonneg; lia).
  assert (Hlo : 2 ^ 52 <= shr_m r1).
  { rewrite Hm1. apply Z.div_le_lower_bound; [lia|].
    rewrite <- Z.pow_add_r by lia.
    replace (971 - e + 52) with (Zdigits2 M - 1) by lia. assumption. }
  assert (Hhi : shr_m r1 < 2 ^ 53).
  { rewrite Hm1. apply Z.div_lt_upper_bound; [lia|].
    rewrite <- Z.pow_add_r by lia.
    replace (971 - e + 53) with (Zdigits2 M) by lia. assumption. }
  pose proof (round_nearest_even_bounds (shr_m r1) (loc_of_shr_record r1)) as Hrne.
  assert (Hm2 : round_nearest_even (shr_m r1) (loc_of_shr_record r1) < 2 ^ 53).
  { destruct Hbit as [Hq|Hb].
    - rewrite <- Hm1 in Hq. lia.
    - rewrite round_nearest_even_down by congruence. assumption. }
  set (m2 := round_nearest_even _ _) in *.
  assert (Hd2 : Zdigits2 m2 = 53).
  { apply Z.le_antisymm.
    - apply Zdigits2_le; lia.
    - apply Zdigits2_ge; [lia|]. change (2 ^ (53 - 1)) with (2 ^ 52). lia. }
  destruct (shr_fexp_spec m2 971 loc_Exact ltac:(lia)) as [H2 _].
  rewrite Hd2, fexp64 in H2. cbn zeta in H2. rewrite (H2 ltac:(lia)).
  cbn [shr_m shr_record_of_loc].
  destruct m2 as [|p|p]; try lia. reflexivity.
Qed.

Lemma binary_round_no_shift (s : bool) (p : positive) (e : Z) :
  e <= fexp prec emax (Zpos (digits2_pos p) + e) ->
  binary_round prec emax s p e = binary_round_aux prec emax s (Zpos p) e loc_Exact.
Proof.
  intros H. unfold binary_round, shl_align.
  destruct (fexp prec emax (Z.pos (digits2_pos p) + e) - e) eqn:Hd; try reflexivity. lia.
Qed.

Lemma testbit_below (a b n : Z) :
  0 <= n -> 0 <= b < 2 ^ n -> Z.testbit (a * 2 ^ (n + 1) + b) n = false.
Proof.
  intros Hn Hb. apply Z.testbit_false; [assumption|].
  rewrite Z.pow_add_r by lia. change (2 ^ 1) with 2.
  replace (a * (2 ^ n * 2) + b) with (2 * a * 2 ^ n + b) by ring.
  rewrite Z.div_add_l by lia. rewrite Z.div_small by lia.
  rewrite Z.add_0_r, Z.mul_comm. apply Z.mod_mul. lia.
Qed.

(** A sum (or difference) of a number of the top two binades and of a far
    smaller one is rounded to a finite number. *)
Lemma top_sum_finite (s : bool) (mx my P : positive) (ex ey : Z) :
  Zpos (digits2_pos mx) = 53 -> 970 <= ex <= 971 ->
  Zpos (digits2_pos my) + ey <= 969 -> -1074 <= ey ->
  Zpos P = Zpos mx * 2 ^ (ex - ey) + Zpos my
  \/ Zpos P = Zpos mx * 2 ^ (ex - ey) - Zpos my ->
  is_finite_sf (binary_round prec emax s P ey) = true.
Proof.
  intros Hdx Hex Hdy Hey HP.
  set (n := ex - ey) in *.
  assert (Hn : 2 <= n) by (pose proof (Pos2Z.is_pos (digits2_pos my)); lia).
  set (t := 2 ^ (n - 1)).
  assert (Ht : 0 < t) by (apply Z.pow_pos_nonneg; lia).
  assert (Hn2 : 2 ^ n = 2 * t).
  { unfold t. replace n with (1 + (n - 1)) at 1 by lia. now rewrite Z.pow_add_r by lia. }
  pose proof (Zdigits2_bounds (Zpos mx) ltac:(lia)) as [Hxlo Hxhi].
  cbn [Zdigits2] in Hxlo, Hxhi. rewrite Hdx in Hxlo, Hxhi.
  change (2 ^ (53 - 1)) with (2 ^ 52) in Hxlo.
  assert (Hmy : Zpos my < t).
  { pose proof (Zdigits2_bounds (Zpos my) ltac:(lia)) as [_ Hyhi]. cbn [Zdigits2] in Hyhi.
    apply Z.lt_le_trans with (1 := Hyhi). apply Z.pow_le_mono_r; lia. }
  assert (Hlo : 2 ^ (52 + n - 1) <= Zpos P).
  { replace (52 + n - 1) with (52 + (n - 1)) by lia. rewrite Z.pow_add_r by lia.
    fold t. rewrite Hn2 in HP. change (2 ^ 52) with 4503599627370496 in *. nia. }
  assert (Hhi : Zpos P < 2 ^ (53 + n)).
  { rewrite Z.pow_add_r by lia. rewrite Hn2. rewrite Hn2 in HP.
    change (2 ^ 53) with 9007199254740992 in *. nia. }
  assert (HdP : 52 + n <= Zpos (digits2_pos P) <= 53 + n).
  { split.
    - apply (Zdigits2_ge (Zpos P)); lia.
    - apply (Zdigits2_le (Zpos P)); lia. }
  rewrite binary_round_no_shift by (rewrite fexp64; lia).
  destruct (Z.le_gt_cases (Zpos (digits2_pos P) + ey) 1023) as [HD|HD].
  - pose proof (binary_round_aux_mag s (Zpos P) ey loc_Exact ltac:(lia)) as H.
    cbn zeta in H. cbn [Zdigits2] in H.
    destruct (binary_round_aux _ _ _ _ _ _); try reflexivity; [lia|tauto].
  - assert (Hex' : ex = 971) by lia.
    apply binary_round_aux_top; [lia|lia|cbn [Zdigits2]; lia|].
    replace (971 - ey) with n by lia.
    destruct HP as [HP|HP].
    + right. rewrite HP. replace n with (970 - ey + 1) by lia.
      apply testbit_below; [lia|]. split; [lia|].
      replace (970 - ey) with (n - 1) by lia. exact Hmy.
    + left. assert (Zpos P / 2 ^ n < Zpos mx); [|lia].
      apply Z.div_lt_upper_bound; [lia|]. rewrite HP. lia.
Qed.

Lemma SFadd_small (x y : spec_float) :
  valid_binary x = true -> valid_binary y = true ->
  is_finite_sf x = true -> mag_le 969 y ->
  is_finite_sf (SFadd prec emax x y) = true.
Proof.
  intros Hx Hy Hfx Hby.
  destruct x as [sx|sx| |sx mx ex] eqn:Ex, y as [sy|sy| |sy my ey] eqn:Ey;
    try discriminate; cbn [mag_le] in Hby; try tauto.
  all: try solve [reflexivity | destruct sx, sy; reflexivity].
  - pose proof (valid_finite _ _ _ Hx) as Vx. pose proof (valid_finite _ _ _ Hy) as Vy.
    destruct (Z.le_gt_cases (Zpos (digits2_pos mx) + ex) 1022) as [Hsmall|Htop].
    + apply (mag_le_finite (Z.max (Z.max 1022 969 + 1) (-1074) + 1)).
      apply SFadd_mag; cbn [mag_le]; trivial; lia.
    + cbn [SFadd]. rewrite Z.min_r by lia.
      rewrite (aligned_mantissa mx ex ey) by lia.
      rewrite (aligned_mantissa my ey ey) by lia.
      rewrite Z.sub_diag, Z.pow_0_r, Z.mul_1_r.
      assert (Hpow : 0 < 2 ^ (ex - ey)) by (apply Z.pow_pos_nonneg; lia).
      assert (Hbig : Zpos my < Zpos mx * 2 ^ (ex - ey)).
      { pose proof (Zdigits2_bounds (Zpos my) ltac:(lia)) as [_ Hyhi].
        cbn [Zdigits2] in Hyhi.
        assert (2 ^ Zpos (digits2_pos my) <= 2 ^ (ex - ey))
          by (apply Z.pow_le_mono_r; lia).
        nia. }
      destruct (cond_Zopp sx (Z.pos mx * 2 ^ (ex - ey)) + cond_Zopp sy (Z.pos my))
        as [|P|P] eqn:HM; cbn [binary_normalize]; [reflexivity| |].
      * apply (top_sum_finite false mx my P ex ey); try lia.
        destruct sx, sy; cbn [cond_Zopp] in HM; lia.
      * apply (top_sum_finite true mx my P ex ey); try lia.
        destruct sx, sy; cbn [cond_Zopp] in HM; lia.
Qed.

(** ** Rounding a mantissa that may be zero *)

Lemma binary_round_aux_upper (s : bool) (m e : Z) (l : location) :
  0 <= m -> e <= 971 -> Zdigits2 m + e <= 1023 ->
  mag_le (Z.max (Zdigits2 m + e) (-1074) + 1) (binary_round_aux prec emax s m e l)
  /\ not_negative (binary_round_aux prec emax false m e l).
Proof.
  intros Hm He HD.
  assert (H : forall s',
             match binary_round_aux prec emax s' m e l with
             | S754_zero s'' => s'' = s'
             | S754_finite s'' m' e' =>
                 s'' = s' /\ Zpos (digits2_pos m') + e' <= Z.max (Zdigits2 m + e) (-1074) + 1
             | _ => False
             end).
  { intros s'. destruct (Z.eq_dec m 0) as [->|Hn].
    - unfold binary_round_aux.
      destruct (shr_fexp_mag 0 e l) as (r1 & e1 & -> & Hr1 & He1 & _ & _); [lia|].
      pose proof (round_nearest_even_bounds (shr_m r1) (loc_of_shr_record r1)) as Hrne.
      set (m2 := round_nearest_even _ _) in *.
      destruct (shr_fexp_mag m2 e1 loc_Exact) as (r2 & e2 & -> & Hr2 & He2 & Hd2 & _);
        [lia|].
      change (Zdigits2 0) with 0 in *.
      destruct (shr_m r2) as [|m3|m3] eqn:Hm3; [reflexivity| |lia].
      assert (m2 = 1) as Hm21 by lia. rewrite Hm21 in *.
      change (Zdigits2 1) with 1 in *. specialize (Hd2 ltac:(lia)).
      change (Zdigits2 (Z.pos m3)) with (Z.pos (digits2_pos m3)) in Hd2.
      replace (e2 <=? emax - prec) with true
        by (symmetry; apply Z.leb_le; change (emax - prec) with 971; lia).
      split; [reflexivity|lia].
    - pose proof (binary_round_aux_mag s' m e l ltac:(lia)) as H. cbn zeta in H.
      destruct (binary_round_aux _ _ _ _ _ _); try tauto. lia. }
  split.
  - specialize (H s). destruct (binary_round_aux _ _ _ _ _ _); cbn [mag_le]; tauto.
  - specialize (H false). destruct (binary_round_aux _ _ _ _ _ _); cbn [not_negative]; tauto.
Qed.

(** ** Subtraction is addition of the opposite *)

Lemma cond_Zopp_negb (s : bool) (m : Z) : cond_Zopp (negb s) m = - cond_Zopp s m.
Proof. destruct s; cbn; lia. Qed.

Lemma SFsub_as_add (x y : spec_float) :
  SFsub prec emax x y = SFadd prec emax x (SFopp y).
Proof.
  destruct x as [[]|[]| |sx mx ex], y as [[]|[]| |sy my ey]; try reflexivity.
  cbn [SFsub SFadd SFopp]. now rewrite cond_Zopp_negb, Z.add_opp_r.
Qed.

Lemma valid_SFopp (y : spec_float) : valid_binary (SFopp y) = valid_binary y.
Proof. now destruct y. Qed.

Lemma mag_le_SFopp (k : Z) (y : spec_float) : mag_le k (SFopp y) <-> mag_le k y.
Proof. now destruct y. Qed.

Lemma SFsub_mag (a b : Z) (x y : spec_float) :
  valid_binary x = true -> valid_binary y = true ->
  mag_le a x -> mag_le b y -> Z.max a b <= 1022 ->
  mag_le (Z.max (Z.max a b + 1) (-1074) + 1) (SFsub prec emax x y).
Proof.
  intros Hx Hy Ha Hb Hab. rewrite SFsub_as_add.
  apply SFadd_mag; trivial; [now rewrite valid_SFopp|now apply mag_le_SFopp].
Qed.

(** ** Division *)

Lemma SFdiv_mag (a b : Z) (x y : spec_float) :
  valid_binary x = true -> valid_binary y = true ->
  mag_le a x -> mag_ge b y -> a - b <= 1022 ->
  mag_le (Z.max (a - b + 1) (-1074) + 1) (SFdiv prec emax x y).
Proof.
  destruct x as [sx|sx| |sx mx ex], y as [sy|sy| |sy my ey]; cbn [mag_le mag_ge SFdiv];
    try tauto.
  intros Hx Hy Ha Hb Hab. apply valid_finite in Hx, Hy.
  unfold SFdiv_core_binary. cbn [Zdigits2].
  set (d1 := Zpos (digits2_pos mx)) in *. set (d2 := Zpos (digits2_pos my)) in *.
  rewrite fexp64.
  set (e' := Z.min (Z.max (d1 + ex - (d2 + ey) - 53) (-1074)) (ex - ey)).
  remember (ex - ey - e') as s eqn:Es.
  assert (Hs : 0 <= s) by lia.
  remember (match s with Z.pos _ => Z.shiftl (Z.pos mx) s | 0 => Z.pos mx | Z.neg _ => 0 end)
    as m' eqn:Em'.
  assert (Hm' : m' = Zpos mx * 2 ^ s).
  { rewrite Em'. clear -Hs. destruct s; try lia.
    now rewrite Z.shiftl_mul_pow2 by lia. }
  pose proof (Z_div_mod m' (Zpos my) ltac:(lia)) as Hdm.
  destruct (Z.div_eucl m' (Z.pos my)) as [q r]. destruct Hdm as [Hq Hr].
  assert (Hps : 0 < 2 ^ s) by (apply Z.pow_pos_nonneg; lia).
  assert (Hq0 : 0 <= q) by nia.
  assert (Hdq : Zdigits2 q + e' <= Z.max (a - b + 1) (-1074)).
  { destruct (Z.eq_dec q 0) as [->|Hqn]; [change (Zdigits2 0) with 0; lia|].
    assert (Zdigits2 q <= d1 + s - d2 + 1); [|lia].
    pose proof (Zdigits2_bounds (Zpos mx) ltac:(lia)) as [_ Hxhi].
    pose proof (Zdigits2_bounds (Zpos my) ltac:(lia)) as [Hylo _].
    cbn [Zdigits2] in Hxhi, Hylo. fold d1 in Hxhi. fold d2 in Hylo.
    assert (Hd2 : 0 < d2) by (subst d2; lia).
    assert (Hk : 0 <= d1 + s - d2 + 1).
    { destruct (Z.le_gt_cases 0 (d1 + s - d2 + 1)) as [|Hneg]; [assumption|exfalso].
      assert (2 ^ (d1 + s) <= 2 ^ (d2 - 1)) by (apply Z.pow_le_mono_r; lia).
      rewrite Z.pow_add_r in H by (subst d1; lia). nia. }
    apply Zdigits2_le; [lia|lia|].
    assert (Hsplit : 2 ^ (d1 + s) = 2 ^ (d1 + s - d2 + 1) * 2 ^ (d2 - 1)).
    { rewrite <- Z.pow_add_r by lia. f_equal. lia. }
    assert (Hlt : Zpos mx * 2 ^ s < 2 ^ (d1 + s)).
    { rewrite Z.pow_add_r by (subst d1; lia). nia. }
    assert (0 < 2 ^ (d2 - 1)) by (apply Z.pow_pos_nonneg; lia).
    nia. }
  destruct (binary_round_aux_upper (xorb sx sy) q e' (new_location (Z.pos my) r)
              Hq0 ltac:(lia) ltac:(lia)) as [Hup _].
  eapply mag_le_weaken; [|exact Hup]. lia.
Qed.

(** ** Square root *)

Lemma SFsqrt_mag (a : Z) (x : spec_float) :
  valid_binary x = true -> not_negative x -> mag_le a x -> a <= 1022 ->
  mag_le (Z.max ((a + 1) / 2) (-1074) + 1) (SFsqrt prec emax x)
  /\ not_negative (SFsqrt prec emax x).
Proof.
  destruct x as [sx|sx| |sx mx ex]; cbn [mag_le not_negative SFsqrt]; try tauto.
  intros Hx -> Ha Ha'. apply valid_finite in Hx.
  unfold SFsqrt_core_binary. cbn [Zdigits2]. rewrite fexp64, !Z.div2_div.
  set (d := Zpos (digits2_pos mx)) in *.
  remember (Z.min (Z.max ((d + ex + 1) / 2 - 53) (-1074)) (ex / 2)) as e' eqn:Ee'.
  remember (ex - 2 * e') as s eqn:Es.
  assert (Hex : 2 * (ex / 2) <= ex) by (apply Z.mul_div_le; lia).
  assert (Hs : 0 <= s) by lia.
  remember (match s with Z.pos _ => Z.shiftl (Z.pos mx) s | 0 => Z.pos mx | Z.neg _ => 0 end)
    as m' eqn:Em'.
  assert (Hm' : m' = Zpos mx * 2 ^ s).
  { rewrite Em'. clear -Hs. destruct s; try lia.
    now rewrite Z.shiftl_mul_pow2 by lia. }
  assert (Hps : 0 < 2 ^ s) by (apply Z.pow_pos_nonneg; lia).
  pose proof (Z.sqrtrem_sqrt m') as Hsq.
  destruct (Z.sqrtrem m') as [q r]. cbn [fst] in Hsq. subst q.
  pose proof (Z.sqrt_spec m' ltac:(nia)) as [Hlo _].
  pose proof (Z.sqrt_nonneg m') as Hq0.
  set (q := Z.sqrt m') in *.
  assert (Hdq : Zdigits2 q + e' <= (a + 1) / 2).
  { set (k := (d + s + 1) / 2).
    assert (Hk : d + s <= 2 * k).
    { subst k. pose proof (Z.mul_succ_div_gt (d + s + 1) 2 ltac:(lia)). lia. }
    assert (Hd0 : 0 < d) by (subst d; lia).
    assert (Hk0 : 0 <= k) by lia.
    assert (Zdigits2 q <= k).
    { apply Zdigits2_le; [lia|lia|].
      pose proof (Zdigits2_bounds (Zpos mx) ltac:(lia)) as [_ Hxhi].
      cbn [Zdigits2] in Hxhi. fold d in Hxhi.
      assert (Hm'lt : m' < 2 ^ (2 * k)).
      { apply Z.lt_le_trans with (2 ^ (d + s)).
        - rewrite Hm', Z.pow_add_r by lia. nia.
        - apply Z.pow_le_mono_r; lia. }
      replace (2 * k) with (k + k) in Hm'lt by lia.
      rewrite Z.pow_add_r in Hm'lt by lia.
      assert (0 < 2 ^ k) by (apply Z.pow_pos_nonneg; lia).
      nia. }
    assert (k + e' = (d + ex + 1) / 2).
    { subst k. rewrite Es.
      replace (d + (ex - 2 * e') + 1) with (d + ex + 1 + (- e') * 2) by lia.
      rewrite Z.div_add by lia. lia. }
    assert ((d + ex + 1) / 2 <= (a + 1) / 2) by (apply Z.div_le_mono; lia).
    lia. }
  assert (Ha2 : (a + 1) / 2 <= 1023 / 2) by (apply Z.div_le_mono; lia).
  change (1023 / 2) with 511 in Ha2.
  assert (He' : e' <= 971).
  { assert ((d + ex + 1) / 2 <= 1025 / 2) by (apply Z.div_le_mono; lia).
    change (1025 / 2) with 512 in *. lia. }
  destruct (binary_round_aux_upper false q e'
              (if (r =? 0)%Z then loc_Exact else loc_Inexact (if (r <=? q)%Z then Lt else Gt))
              Hq0 He' ltac:(lia)) as [Hup Hnn].
  split; [|exact Hnn]. eapply mag_le_weaken; [|exact Hup]. lia.
Qed.

(** ** Comparison with a positive normal number *)

Lemma SFltb_mag (x : spec_float) (mc : positive) (ec : Z) :
  valid_binary x = true -> not_negative x ->
  SFltb x (S754_finite false mc ec) = true ->
  mag_le (53 + ec) x.
Proof.
  unfold SFltb.
  destruct x as [sx|sx| |sx mx ex]; cbn [mag_le not_negative SFcompare]; trivial;
    intros Hx Hn Hlt; try discriminate.
  - subst sx. discriminate.
  - subst sx. apply valid_finite in Hx.
    destruct (Z.compare_spec ex ec); try discriminate; lia.
Qed.

(** ** Shapes *)

Lemma binary_round_not_negative (p : positive) (e : Z) :
  not_negative (binary_round prec emax false p e).
Proof.
  unfold binary_round. destruct (shl_align _ _ _) as [mz ez].
  pose proof (binary_round_aux_mag false (Zpos mz) ez loc_Exact ltac:(lia)) as H.
  cbn zeta in H. destruct (binary_round_aux _ _ _ _ _ _); cbn [not_negative]; tauto.
Qed.

Lemma SFadd_not_negative (x y : spec_float) :
  not_negative x -> not_negative y -> not_negative (SFadd prec emax x y).
Proof.
  destruct x as [sx|sx| |sx mx ex], y as [sy|sy| |sy my ey];
    cbn [not_negative SFadd]; intros; subst; trivial; try reflexivity.
  cbn [cond_Zopp].
  match goal with
  | |- context [binary_normalize _ _ ?M _ _] => destruct M as [|P|P] eqn:HP
  end; cbn [binary_normalize]; try lia; try reflexivity.
  apply binary_round_not_negative.
Qed.

Lemma SFadd_finite_inv (x y : spec_float) :
  is_finite_sf (SFadd prec emax x y) = true ->
  is_finite_sf x = true /\ is_finite_sf y = true.
Proof.
  destruct x as [[]|[]| |sx mx ex], y as [[]|[]| |sy my ey]; cbn [SFadd is_finite_sf];
    intros; try discriminate; now split.
Qed.

Lemma SFmul_finite_inv (x : spec_float) :
  is_finite_sf (SFmul prec emax x x) = true -> is_finite_sf x = true.
Proof.
  destruct x as [[]|[]| |sx mx ex]; cbn [SFmul is_finite_sf]; intros;
    try discriminate; reflexivity.
Qed.

Lemma mag_ge_nonzero (k : Z) (x : spec_float) :
  mag_ge k x -> match x with S754_zero _ => False | _ => True end.
Proof. now destruct x. Qed.

#[local] Close Scope Z_scope.

(** ** The loop of [animate] visits every particle once *)

Lemma update_from_spec (m : Physics.pointer) (r : nat) :
  forall (i : nat) (ps : list Particle),
    (i + r)%nat = length ps ->
    Physics.update_from r i m ps
    = (take i ps ++ map (Physics.update_particle m) (drop i ps), Return tt).
Proof.
  induction r as [|r IH]; intros i ps Hlen; cbn [Physics.update_from].
  - rewrite drop_ge by lia. rewrite take_ge by lia. now rewrite app_nil_r.
  - assert (Hi : (i < length ps)%nat) by lia.
    destruct (lookup_lt_is_Some_2 ps i Hi) as [p Hp].
    unfold bind at 1, get. rewrite Hp. unfold bind at 1, put.
    rewrite IH by (rewrite length_insert; lia).
    f_equal.
    rewrite take_insert_lt by lia.
    rewrite drop_insert_lt by lia.
    rewrite (take_S_r _ _ _ Hp), insert_app_r_alt by (rewrite length_take; lia).
    rewrite length_take, Nat.min_l, Nat.sub_diag by lia. cbn [list_insert].
    rewrite (drop_S _ _ _ Hp). cbn [map]. now rewrite <- app_assoc.
Qed.

Lemma update_particles_map (m : Physics.pointer) (ps : list Particle) :
  Physics.update_particles (length ps) m ps
  = (map (Physics.update_particle m) ps, Return tt).
Proof.
  unfold Physics.update_particles. now rewrite update_from_spec by lia.
Qed.

Lemma update_particle_step (m : Physics.pointer) (p : Particle) :
  Physics.update_particle m p
  = Spec.step (Physics.isMouseOver m) (Physics.mouseX m, Physics.mouseY m) p.
Proof.
  unfold Physics.update_particle, Spec.step.
  destruct m as [over mx my], p as [x y z vx vy vz ox oy oz c sz].
  unfold Physics.mouse_interaction, Spec.repel; cbn.
  destruct over; [|reflexivity].
  unfold Physics.mouseDistSquared, Physics.mouseDx, Physics.mouseDy; cbn.
  fold Physics.mouseRadiusSquared.
  destruct (_ <? _); reflexivity.
Qed.

(** C1: one physics step does, on every particle and in this order, the
    spring update with attraction 0.06 (z halved), the pointer repulsion
    with radius 120 and strength 4, the friction 0.92 on the three axes and
    the unit-timestep integration, and nothing else. *)
Theorem C1_physics_step (m : Physics.pointer) (ps : list Particle) :
  Physics.update_particles (length ps) m ps
  = (map (fun p => Spec.integrate (Spec.damp
             (Spec.repel (Physics.isMouseOver m) (Physics.mouseX m, Physics.mouseY m)
                (Spec.spring p)))) ps,
     Return tt)
  /\ (Physics.attractionForce, Physics.mouseRepelForce, Physics.mouseRadius, Physics.friction)
     = (0.06, 4, 120, 0.92).
Proof.
  split; [|reflexivity].
  rewrite update_particles_map.
  rewrite (map_ext _ _ (update_particle_step m)). reflexivity.
Qed.

(** ** The rest state *)

Lemma at_rest_settled (p : Particle) : at_rest p = true -> settled p p.
Proof.
  intros H. repeat split; trivial.
  unfold at_rest, strict_eq in H. unfold same_motion, strict_eq.
  repeat (apply andb_prop in H as [H ?]).
  repeat (apply andb_true_intro; split);
    first [now apply strict_eq_refl | now apply zero_strict_eq].
Qed.

(** One axis of the step of a particle at rest: the new velocity is zero and
    the new coordinate is the old one. [damped] multiplies by the
    attraction, and by 0.5 more on the z axis. *)
Lemma axis_at_rest (x o v x0 : number) (damped : number -> number) :
  (forall d, (d =? 0) = true -> (damped d =? 0) = true) ->
  is_finite x = true -> (x =? o) = true -> (x =? x0) = true -> (v =? 0) = true ->
  let v' := (v + damped (o - x)) * Physics.friction in
  (v' =? 0) = true /\ is_finite (x + v') = true
  /\ (x + v' =? o) = true /\ (x + v' =? x0) = true.
Proof.
  intros Hd Hx Ho H0 Hv v'.
  assert (Hv' : (v' =? 0) = true).
  { apply mul_zero_l; [|reflexivity].
    apply add_zero_zero; [assumption|]. apply Hd. now apply sub_strict_eq. }
  split; [assumption|].
  destruct (add_zero_r x o v' Hx Ho Hv') as [Hf Ho'].
  destruct (add_zero_r x x0 v' Hx H0 Hv') as [_ H0'].
  now repeat split.
Qed.

Lemma update_settled (m : Physics.pointer) (p0 p : Particle) :
  Physics.isMouseOver m = false ->
  settled p0 p -> settled p0 (Physics.update_particle m p).
Proof.
  intros Hm (H0 & Hp & Hs & Ha). split; [assumption|].
  unfold Physics.update_particle, Physics.mouse_interaction. rewrite Hm.
  destruct p as [x y z vx vy vz ox oy oz c sz], p0 as [x0 y0 z0 vx0 vy0 vz0 ox0 oy0 oz0 c0 sz0].
  unfold at_rest, same_motion, strict_eq in *. cbn in *.
  repeat (apply andb_prop in Hp as [Hp ?]).
  repeat (apply andb_prop in Hs as [Hs ?]).
  repeat (apply andb_prop in H0 as [H0 ?]).
  destruct (axis_at_rest x ox vx x0 (fun d => d * Physics.attractionForce))
    as (? & ? & ? & ?); trivial.
  { intros d Hd. now apply mul_zero_l. }
  destruct (axis_at_rest y oy vy y0 (fun d => d * Physics.attractionForce))
    as (? & ? & ? & ?); trivial.
  { intros d Hd. now apply mul_zero_l. }
  destruct (axis_at_rest z oz vz z0 (fun d => d * Physics.attractionForce * 0.5))
    as (? & ? & ? & ?); trivial.
  { intros d Hd. apply mul_zero_l; [|reflexivity]. now apply mul_zero_l. }
  split; [|split; [|assumption]].
  - repeat (apply andb_true_intro; split); assumption.
  - repeat (apply andb_true_intro; split); try assumption;
      now apply zero_strict_eq.
Qed.

Lemma physics_steps_settled (m : Physics.pointer) (n : nat) :
  Physics.isMouseOver m = false ->
  forall ps0 ps : list Particle,
    Forall2 settled ps0 ps ->
    exists ps', physics_steps n (length ps) m ps = (ps', Return tt)
                /\ Forall2 settled ps0 ps'.
Proof.
  intros Hm. induction n as [|n IH]; intros ps0 ps H; cbn [physics_steps].
  - now exists ps.
  - unfold bind. rewrite update_particles_map.
    destruct (IH ps0 (map (Physics.update_particle m) ps)) as (ps' & Hrun & H').
    { apply Forall2_fmap_r. eapply Forall2_impl; [exact H|].
      intros p0 p Hp. now apply update_settled. }
    rewrite length_map in Hrun. now exists ps'.
Qed.

(** C3: particles that sit at their (finite) origins with zero velocity,
    the pointer being off the surface, have the same positions and
    velocities after any number of physics steps, and are still at rest. *)
Theorem C3_rest_is_fixed_point (n : nat) (m : Physics.pointer) (ps : list Particle) :
  Physics.isMouseOver m = false ->
  forallb at_rest ps = true ->
  exists ps',
    physics_steps n (length ps) m ps = (ps', Return tt)
    /\ Forall2 (fun p p' => same_motion p' p = true /\ anchor p' = anchor p) ps ps'
    /\ forallb at_rest ps' = true.
Proof.
  intros Hm Hrest.
  destruct (physics_steps_settled m n Hm ps ps) as (ps' & Hrun & H).
  { apply Forall_Forall2_diag, Forall_forall. intros p Hp.
    apply at_rest_settled. rewrite forallb_forall in Hrest.
    apply Hrest. now apply list_elem_of_In. }
  exists ps'. split; [assumption|]. split.
  - eapply Forall2_impl; [exact H|]. now intros p p' (_ & _ & ? & ?).
  - apply forallb_forall. intros p' Hp'.
    apply list_elem_of_In, list_elem_of_lookup in Hp' as [i Hi].
    destruct (Forall2_lookup_r _ _ _ _ _ H Hi) as (p & _ & Hs). apply Hs.
Qed.

Lemma C3_rest_witness :
  let p := Particle.mk 17.5 74.5 0 0 0 0 17.5 74.5 0 (1, 0, 0, 1) 1.275 in
  let m := Physics.mkPointer false (-1000) (-1000) in
  Physics.isMouseOver m = false /\ forallb at_rest [p] = true
  /\ exists ps',
      physics_steps 3 1 m [p] = (ps', Return tt)
      /\ Forall2 (fun p p' => same_motion p' p = true /\ anchor p' = anchor p) [p] ps'
      /\ forallb at_rest ps' = true.
Proof.
  intros p m. split; [reflexivity|]. split; [reflexivity|].
  apply (C3_rest_is_fixed_point 3 m [p]); reflexivity.
Defined.

(** ** The builder *)

Lemma SFmul_comm (a b : spec_float) : SFmul prec emax a b = SFmul prec emax b a.
Proof.
  destruct a as [sa|sa| |sa ma ea], b as [sb|sb| |sb mb eb]; cbn;
    rewrite ?(xorb_comm sa sb); try reflexivity.
  now rewrite (Pos.mul_comm ma mb), (Z.add_comm ea eb).
Qed.

Lemma mul_comm (a b : number) : a * b = b * a.
Proof.
  apply Prim2SF_inj. rewrite !FloatAxioms.mul_spec. apply SFmul_comm.
Qed.

(** C5: the layout the builder computes is the specification's: one scale
    [min(0.9*canvasWidth/w, 0.9*canvasHeight/h)] for both dimensions, and
    offsets that center the scaled bitmap; every particle is anchored at
    the offset plus its pixel coordinate. *)
Theorem C5_scale_and_center (canvasWidth canvasHeight w h : number) :
  let L := Builder.compute_layout canvasWidth canvasHeight w h in
  Builder.scale L = Spec.scale canvasWidth canvasHeight w h
  /\ Builder.logoWidth L = w * Builder.scale L
  /\ Builder.logoHeight L = h * Builder.scale L
  /\ Builder.offsetX L = (canvasWidth - w * Builder.scale L) / 2
  /\ Builder.offsetY L = (canvasHeight - h * Builder.scale L) / 2
  /\ Builder.offsetX L = Spec.offsetX canvasWidth canvasHeight w h
  /\ Builder.offsetY L = Spec.offsetY canvasWidth canvasHeight w h
  /\ forall data random x y calls,
       let p := Builder.new_particle L data random x y calls in
       Particle.originX p = Builder.offsetX L + x
       /\ Particle.originY p = Builder.offsetY L + y.
Proof.
  assert (Hs : Builder.scale (Builder.compute_layout canvasWidth canvasHeight w h)
               = Spec.scale canvasWidth canvasHeight w h).
  { unfold Spec.scale. cbn.
    now rewrite (mul_comm 0.9 canvasWidth), (mul_comm 0.9 canvasHeight). }
  cbn zeta. repeat split; try assumption; try reflexivity.
  - unfold Spec.offsetX. now rewrite <- Hs.
  - unfold Spec.offsetY. now rewrite <- Hs.
Qed.

Lemma threshold_on_bytes (v : option Byte.byte) :
  (128 <? Builder.to_number v) = above_128 v.
Proof.
  destruct v as [b|]; [|reflexivity]. destruct b; reflexivity.
Qed.

(** The test of the inner loop: the visit adds one particle if and only if
    the alpha it read is a byte strictly greater than 128; with an alpha of
    128 or less, or none, it leaves the particles as they are. *)
Lemma visit_threshold (L : Builder.layout) (data : Builder.pixels)
    (random : nat -> number) (x y : number) (a : Builder.acc) :
  (length (fst (Builder.visit L data random x y a)) = S (length (fst a))
   <-> above_128 (Builder.alpha L data x y) = true)
  /\ (above_128 (Builder.alpha L data x y) = true ->
      Builder.visit L data random x y a
      = (fst a ++ [Builder.new_particle L data random x y (snd a)], S (S (snd a))))
  /\ (above_128 (Builder.alpha L data x y) = false ->
      Builder.visit L data random x y a = a).
Proof.
  unfold Builder.visit. rewrite threshold_on_bytes.
  destruct (above_128 _); cbn [fst snd].
  - rewrite length_app. cbn. repeat split; trivial; try discriminate. intros _. lia.
  - repeat split; trivial; try discriminate. intros H. lia.
Qed.

Section BuilderInvariant.

Variable L : Builder.layout.
Variable data : Builder.pixels.
Variable random : nat -> number.
Variable P : Particle -> Prop.
Hypothesis new_particle_P : forall x y calls, P (Builder.new_particle L data random x y calls).

Lemma visit_Forall (x y : number) (a : Builder.acc) :
  Forall P (fst a) -> Forall P (fst (Builder.visit L data random x y a)).
Proof.
  intros H. unfold Builder.visit. destruct (_ <? _); [|assumption].
  cbn [fst]. apply Forall_app. split; [assumption|]. now constructor.
Qed.

Lemma row_Forall (fuel : nat) :
  forall (x y : number) (a a' : Builder.acc),
    Forall P (fst a) -> Builder.row L data random fuel x y a = Some a' -> Forall P (fst a').
Proof.
  induction fuel as [|fuel IH]; intros x y a a' H; cbn [Builder.row];
    destruct (x <? Builder.logoWidth L); try discriminate;
    try (intros [= <-]; assumption).
  apply IH. now apply visit_Forall.
Qed.

Lemma rows_Forall (fuel : nat) :
  forall (y : number) (a a' : Builder.acc),
    Forall P (fst a) -> Builder.rows L data random fuel y a = Some a' -> Forall P (fst a').
Proof.
  induction fuel as [|fuel IH]; intros y a a' H; cbn [Builder.rows];
    destruct (y <? Builder.logoHeight L); try discriminate;
    try (intros [= <-]; assumption).
  destruct (Builder.row _ _ _ _ _ _ _) as [a1|] eqn:Hrow; [|discriminate].
  apply IH. eapply row_Forall; eassumption.
Qed.

End BuilderInvariant.

Lemma build_Forall (P : Particle -> Prop) fuel cw ch w h data random calls ps calls' :
  (forall L x y k, P (Builder.new_particle L data random x y k)) ->
  Builder.build fuel cw ch w h data random calls = Some (ps, calls') ->
  Forall P ps.
Proof.
  intros HP Hb. unfold Builder.build in Hb.
  apply (rows_Forall _ data random P (HP _)) in Hb; [assumption|constructor].
Qed.

(** C6, amended: every particle the builder creates starts with velocity
    (0,0,0) at its origin in the plane of the canvas, [x = originX] and
    [y = originY]; its depth starts at [(Math.random() * 2 - 1) * 20] while
    [originZ] is 0. *)
Theorem C6_initial_state fuel cw ch w h data random calls ps calls' :
  Builder.build fuel cw ch w h data random calls = Some (ps, calls') ->
  Forall (fun p =>
            Particle.x p = Particle.originX p /\ Particle.y p = Particle.originY p
            /\ Particle.vx p = 0 /\ Particle.vy p = 0 /\ Particle.vz p = 0
            /\ Particle.originZ p = 0
            /\ exists k, Particle.z p = (random k * 2 - 1) * 20) ps.
Proof.
  apply build_Forall. intros L x y k. cbn. repeat split. now exists k.
Qed.

Lemma C6_initial_state_witness :
  let p := Particle.mk 17.5 74.5 (-10) 0 0 0 17.5 74.5 0 (1, 0, 0, 1) 1.2749999999999999 in
  Builder.build 400 350 150 315 1 one_red_pixel sample_random 0 = Some ([p], 2%nat)
  /\ Forall (fun p =>
            Particle.x p = Particle.originX p /\ Particle.y p = Particle.originY p
            /\ Particle.vx p = 0 /\ Particle.vy p = 0 /\ Particle.vz p = 0
            /\ Particle.originZ p = 0
            /\ exists k, Particle.z p = (sample_random k * 2 - 1) * 20) [p].
Proof.
  intros p.
  assert (Hb : Builder.build 400 350 150 315 1 one_red_pixel sample_random 0
               = Some ([p], 2%nat)) by (vm_compute; reflexivity).
  split; [exact Hb|].
  exact (C6_initial_state 400 350 150 315 1 one_red_pixel sample_random 0 [p] 2 Hb).
Defined.

(** C6 as stated fails on the depth: a created particle starts at
    [z = -10] while its [originZ] is 0. *)
Lemma C6_counterexample :
  exists p ps calls',
    Builder.build 400 350 150 315 1 opaque_red_row sample_random 0 = Some (p :: ps, calls')
    /\ Particle.z p = -10 /\ Particle.originZ p = 0
    /\ strict_eq (Particle.z p) (Particle.originZ p) = false.
Proof.
  vm_compute. do 3 eexists. split; [reflexivity|]. repeat split.
Qed.

(** C2 as stated fails at an alpha of 128: it is above 50% of 255, and the
    pixel yields no particle; a whole row of such pixels builds nothing. *)
Lemma C2_counterexample :
  let L := Builder.compute_layout 350 150 315 1 in
  pixel_alpha 315 half_alpha_row 0 0 = Some Byte.x80
  /\ Builder.alpha L half_alpha_row 0 0 = Some Byte.x80
  /\ (255 * 0.5 <? Builder.to_number (Builder.alpha L half_alpha_row 0 0)) = true
  /\ Builder.visit L half_alpha_row sample_random 0 0 ([], 0%nat) = ([], 0%nat)
  /\ Builder.build 400 350 150 315 1 half_alpha_row sample_random 0 = Some ([], 0%nat).
Proof.
  vm_compute. repeat split.
Qed.

(** ** The life cycle *)

Lemma vertices_total (ps : list Particle) (r : nat) :
  forall i : nat, (i + r)%nat = length ps -> exists data, vertices r i ps = Some data.
Proof.
  induction r as [|r IH]; intros i Hlen; cbn [vertices].
  - now exists [].
  - assert (Hi : (i < length ps)%nat) by lia.
    destruct (lookup_lt_is_Some_2 ps i Hi) as [p ->].
    destruct (IH (S i)) as [rest ->]; [lia|].
    destruct (Particle.color p) as [[[cr cg] cb] ca]. eauto.
Qed.

Lemma animate_spec (w : World) :
  consistent w -> exists data, animate w = (animated data w, Return tt).
Proof.
  intros Hc. unfold animate. unfold bind at 1, get.
  rewrite Hc, update_particles_map.
  destruct (vertices_total (map (Physics.update_particle (pointer_of w)) (particles w))
              (length (particles w)) 0) as [data Hd].
  { now rewrite length_map. }
  exists data. unfold bind, put, ret, updateVertexBuffer, get, modify, requestAnimationFrame.
  cbn. rewrite Hc, Hd. reflexivity.
Qed.

(** C9: construction fails exactly when the rendering context is missing,
    or a shader does not compile, or the program does not link; a compile
    or link failure is raised after the backend's log was written out. *)
Theorem C9_construction_failures (h : Host) :
  let w := fst (constructor h fresh) in
  let o := snd (constructor h fresh) in
  (o = Return tt <->
     webgl2 h = true /\ compiles h VERTEX_SHADER = true
     /\ compiles h FRAGMENT_SHADER = true /\ links h = true)
  /\ (o = Return tt -> w = constructed)
  /\ (webgl2 h = false -> o = Throw "WebGL2 not supported" /\ console w = [])
  /\ (webgl2 h = true -> compiles h VERTEX_SHADER = false ->
        o = Throw "Shader compilation failed"
        /\ console w = [("Shader compile error:", shaderInfoLog h VERTEX_SHADER)])
  /\ (webgl2 h = true -> compiles h VERTEX_SHADER = true ->
      compiles h FRAGMENT_SHADER = false ->
        o = Throw "Shader compilation failed"
        /\ console w = [("Shader compile error:", shaderInfoLog h FRAGMENT_SHADER)])
  /\ (webgl2 h = true -> compiles h VERTEX_SHADER = true ->
      compiles h FRAGMENT_SHADER = true -> links h = false ->
        o = Throw "Program linking failed"
        /\ console w = [("Program link error:", programInfoLog h)]).
Proof.
  unfold constructor, initWebGL, createShader, createProgram, setupEventListeners.
  destruct (webgl2 h) eqn:Hgl; cbn.
  2: { repeat split; try discriminate; intros; intuition discriminate. }
  unfold bind, modify, get, put, throw, ret; cbn.
  destruct (compiles h VERTEX_SHADER) eqn:Hv; cbn.
  2: { repeat split; try discriminate; intros; intuition discriminate. }
  destruct (compiles h FRAGMENT_SHADER) eqn:Hf; cbn.
  2: { repeat split; try discriminate; intros; intuition discriminate. }
  destruct (links h) eqn:Hl; cbn.
  2: { repeat split; try discriminate; intros; intuition discriminate. }
  repeat split; try discriminate; intros; intuition discriminate.
Qed.

Lemma constructor_ok (h : Host) :
  webgl2 h = true -> compiles h VERTEX_SHADER = true ->
  compiles h FRAGMENT_SHADER = true -> links h = true ->
  constructor h fresh = (constructed, Return tt).
Proof.
  intros Hgl Hv Hf Hl.
  unfold constructor, initWebGL, createShader, createProgram, setupEventListeners.
  rewrite Hgl, Hv, Hf, Hl. reflexivity.
Qed.

Lemma anchor_update_particle (m : Physics.pointer) (p : Particle) :
  anchor (Physics.update_particle m p) = anchor p.
Proof.
  unfold Physics.update_particle, Physics.mouse_interaction.
  destruct (Physics.isMouseOver m); [destruct (_ <? _)|]; reflexivity.
Qed.

Lemma animated_simulating (data : list number) (w : World) :
  simulating w ->
  simulating (animated data w)
  /\ map anchor (particles (animated data w)) = map anchor (particles w).
Proof.
  intros [Hc Hl]. unfold simulating, consistent, animated; cbn.
  rewrite length_map, map_map. repeat split; trivial.
  apply map_ext, anchor_update_particle.
Qed.

Lemma run_callbacks_simulating (ids : list Z) :
  forall w : World,
    simulating w ->
    exists w', run_callbacks ids w = (w', Return tt)
               /\ simulating w'
               /\ map anchor (particles w') = map anchor (particles w).
Proof.
  induction ids as [|id ids IH]; intros w Hw; cbn [run_callbacks].
  - now exists w.
  - destruct (animate_spec w (proj1 Hw)) as [data Ha].
    destruct (animated_simulating data w Hw) as [Hw1 Hanchor].
    destruct (IH _ Hw1) as (w' & Hrun & Hw' & Hanchor').
    exists w'. unfold bind. rewrite Ha, Hrun. repeat split; try apply Hw'.
    now rewrite Hanchor'.
Qed.

(** [dispatch], the world it reads being the current one. *)
Lemma dispatch_unfold (fuel : nat) (h : Host) (ev : event) (w : World) :
  dispatch fuel h ev w
  = match ev with
    | ImageLoad =>
        if onload w && negb (loaded w)
        then (put (set_loaded true w) ;;; createParticles fuel h ;;; animate) w
        else (w, Return tt)
    | AnimationFrame => run_callbacks (scheduled w) (set_scheduled [] w)
    | MouseMove clientX clientY rectLeft rectTop =>
        if has_listener "mousemove" w
        then mouseMove clientX clientY rectLeft rectTop w
        else (w, Return tt)
    | MouseOut => if has_listener "mouseout" w then mouseOut w else (w, Return tt)
    | Destroy => destroy w
    end.
Proof.
  unfold dispatch, bind at 1, get.
  destruct ev; try reflexivity;
    match goal with |- context [if ?c then _ else _] => now destruct c end.
Qed.

Lemma dispatch_simulating (fuel : nat) (h : Host) (ev : event) (w : World) :
  simulating w ->
  simulating (fst (dispatch fuel h ev w))
  /\ map anchor (particles (fst (dispatch fuel h ev w))) = map anchor (particles w).
Proof.
  intros Hw. pose proof Hw as [Hc Hl]. rewrite dispatch_unfold.
  destruct ev as [| |cx cy l t| |].
  - rewrite Hl, andb_false_r. now split.
  - destruct (run_callbacks_simulating (scheduled w) (set_scheduled [] w))
      as (w' & Hrun & Hw' & Hanchor); [exact Hw|].
    rewrite Hrun. now split.
  - destruct (has_listener _ w); now split.
  - destruct (has_listener _ w); now split.
  - unfold destroy, bind, get, cancelAnimationFrame, removeEventListener, modify, ret.
    destruct (mouseMoveHandler w), (mouseOutHandler w); now split.
Qed.

Lemma replay_simulating (fuel : nat) (h : Host) (evs : list event) :
  forall w : World,
    simulating w ->
    simulating (fst (replay fuel h evs w))
    /\ map anchor (particles (fst (replay fuel h evs w))) = map anchor (particles w).
Proof.
  induction evs as [|ev evs IH]; intros w Hw; cbn [replay].
  - now split.
  - destruct (dispatch_simulating fuel h ev w Hw) as [Hw1 Ha1].
    destruct (dispatch fuel h ev w) as [w1 o]. cbn [fst] in *.
    destruct (IH w1 Hw1) as [Hw2 Ha2].
    destruct (replay fuel h evs w1) as [w2 os]. cbn [fst] in *.
    split; [assumption|congruence].
Qed.

Lemma flat_origin_anchor (ps ps' : list Particle) :
  map anchor ps' = map anchor ps -> Forall flat_origin ps -> Forall flat_origin ps'.
Proof.
  intros Heq H.
  assert (Ha : Forall (fun a => snd (fst (fst a)) = 0) (map anchor ps)).
  { apply Forall_fmap. exact H. }
  rewrite <- Heq in Ha. apply Forall_fmap in Ha. exact Ha.
Qed.

(** [createParticles] on the world [w], case by case. *)
Lemma createParticles_unfold (fuel : nat) (h : Host) (w : World) :
  createParticles fuel h w
  = if negb (context2d h) then (set_particles [] w, Return tt)
    else
      let L := Builder.compute_layout (canvasWidth w) (canvasHeight w)
                 (imageWidth h) (imageHeight h) in
      match getImageData (Builder.logoWidth L) (Builder.logoHeight L) with
      | inr e => (set_particles [] w, Throw e)
      | inl _ =>
          match Builder.build fuel (canvasWidth w) (canvasHeight w)
                  (imageWidth h) (imageHeight h) (pixelData h) (random h) (randomCalls w) with
          | None => (set_particles [] w, Timeout)
          | Some (ps, calls) =>
              let w' := set_particleCount (length ps)
                          (set_randomCalls calls (set_particles ps (set_particles [] w))) in
              match vertices (length ps) 0 ps with
              | Some data => (set_vertexData data w', Return tt)
              | None => (w', Throw TypeError)
              end
          end
      end.
Proof.
  unfold createParticles, bind at 1, modify.
  destruct (context2d h); [|reflexivity]. cbn [negb].
  unfold bind at 1, get. cbn [canvasWidth canvasHeight randomCalls set_particles].
  cbv zeta. destruct (getImageData _ _) as [size|e]; [|reflexivity].
  destruct (Builder.build _ _ _ _ _ _ _ _) as [[ps calls]|]; [|reflexivity].
  unfold bind, put, modify, updateVertexBuffer, get. cbn.
  now destruct (vertices (length ps) 0 ps).
Qed.

Lemma createParticles_spec (fuel : nat) (h : Host) (w : World) :
  particleCount w = 0%nat ->
  consistent (fst (createParticles fuel h w))
  /\ loaded (fst (createParticles fuel h w)) = loaded w
  /\ Forall flat_origin (particles (fst (createParticles fuel h w)))
  /\ (snd (createParticles fuel h w) = Return tt
      \/ snd (createParticles fuel h w) = Timeout
      \/ exists e, snd (createParticles fuel h w) = Throw e).
Proof.
  intros H0. rewrite createParticles_unfold.
  destruct (context2d h); cbn [negb].
  2: { unfold consistent. cbn. rewrite H0. repeat split; auto. }
  cbv zeta. destruct (getImageData _ _) as [size|e].
  2: { unfold consistent. cbn. rewrite H0. repeat split; eauto. }
  destruct (Builder.build _ _ _ _ _ _ _ _) as [[ps calls]|] eqn:Hb.
  2: { unfold consistent. cbn. rewrite H0. repeat split; auto. }
  destruct (vertices_total ps (length ps) 0 eq_refl) as [data ->]. cbn.
  unfold consistent. cbn. repeat split; auto.
  eapply build_Forall; [|exact Hb]. reflexivity.
Qed.

Lemma load_simulating (fuel : nat) (h : Host) :
  let w1 := fst (dispatch fuel h ImageLoad constructed) in
  simulating w1 /\ Forall flat_origin (particles w1).
Proof.
  cbn zeta. rewrite dispatch_unfold. cbn [onload loaded constructed andb negb].
  unfold bind at 1, put. unfold bind.
  destruct (createParticles_spec fuel h (set_loaded true constructed) eq_refl)
    as (Hc & Hl & Hz & Ho).
  destruct (createParticles fuel h (set_loaded true constructed)) as [w o].
  cbn [fst snd] in *.
  destruct Ho as [-> | [-> | [e ->]]]; [|now repeat split..].
  destruct (animate_spec w Hc) as [data ->]. cbn [fst].
  destruct (animated_simulating data w (conj Hc Hl)) as [Hs Ha].
  split; [assumption|]. eapply flat_origin_anchor; eassumption.
Qed.

(** C7: after the particles are created, whatever events follow (frames,
    pointer moves, [destroy]), the number of particles stays the same, the
    origin, the color and the size of every particle keep their values, and
    [originZ] is 0; only positions and velocities change. *)
Theorem C7_anchors_are_immutable (fuel : nat) (h : Host) (evs : list event) :
  let w1 := fst (dispatch fuel h ImageLoad constructed) in
  let w2 := fst (replay fuel h evs w1) in
  length (particles w2) = length (particles w1)
  /\ particleCount w2 = length (particles w1)
  /\ map anchor (particles w2) = map anchor (particles w1)
  /\ Forall (fun p => Particle.originZ p = 0) (particles w2).
Proof.
  cbn zeta. destruct (load_simulating fuel h) as [Hs Hz].
  destruct (replay_simulating fuel h evs _ Hs) as [[Hc _] Ha].
  assert (Hlen : length (particles (fst (replay fuel h evs
                    (fst (dispatch fuel h ImageLoad constructed)))))
                 = length (particles (fst (dispatch fuel h ImageLoad constructed)))).
  { rewrite <- (length_map anchor), Ha. apply length_map. }
  repeat split; trivial.
  - now rewrite Hc.
  - eapply flat_origin_anchor; eassumption.
Qed.

(** ** No particles: the loop idles *)

Lemma animate_idle (w : World) :
  particles w = [] -> particleCount w = 0%nat ->
  animate w = (animated [] w, Return tt).
Proof.
  intros Hp Hc. unfold animate, animated, bind, get, put, modify, ret,
    updateVertexBuffer, requestAnimationFrame, Physics.update_particles.
  rewrite Hp, Hc. cbn. rewrite ?Hc, ?Hp. cbn. rewrite ?Hc, ?Hp. reflexivity.
Qed.

Lemma idle_frame (fuel : nat) (h : Host) (w : World) :
  idle w ->
  dispatch fuel h AnimationFrame w = (animated [] (set_scheduled [] w), Return tt)
  /\ idle (animated [] (set_scheduled [] w)).
Proof.
  intros (Hp & Hc & Hs). rewrite dispatch_unfold, Hs. cbn [run_callbacks].
  unfold bind. rewrite animate_idle by assumption. split; [reflexivity|].
  unfold idle, animated. cbn. rewrite Hp. now repeat split.
Qed.

Lemma idle_frames (fuel : nat) (h : Host) (n : nat) :
  forall w : World,
    idle w ->
    let r := replay fuel h (repeat AnimationFrame n) w in
    snd r = repeat (Return tt) n
    /\ idle (fst r)
    /\ draws (fst r) = draws w ++ repeat 0%nat n
    /\ lastFrameId (fst r) = (lastFrameId w + Z.of_nat n)%Z.
Proof.
  induction n as [|n IH]; intros w Hw; cbn [repeat replay].
  - cbn. rewrite app_nil_r, Z.add_0_r. repeat split; apply Hw.
  - destruct (idle_frame fuel h w Hw) as [-> Hw1].
    specialize (IH _ Hw1). cbn zeta in IH.
    destruct (replay fuel h (repeat AnimationFrame n) _) as [w2 os].
    cbn [fst snd] in *. destruct IH as (-> & Hw2 & Hd & Hl).
    repeat split; try apply Hw2.
    + rewrite Hd. cbn. destruct Hw as (_ & -> & _). now rewrite <- app_assoc.
    + rewrite Hl. cbn. lia.
Qed.

(** C10: without a 2D context [createParticles] returns with no particle
    and no error, and the loop goes on: every frame draws zero points and
    requests the next one. *)
Theorem C10_no_sampling_context (fuel n : nat) (h : Host) :
  context2d h = false ->
  (forall w, createParticles fuel h w = (set_particles [] w, Return tt))
  /\ let r := replay fuel h (ImageLoad :: repeat AnimationFrame n) constructed in
     snd r = repeat (Return tt) (S n)
     /\ particles (fst r) = []
     /\ draws (fst r) = repeat 0%nat (S n)
     /\ scheduled (fst r) = [Z.of_nat (S n)].
Proof.
  intros H2d.
  assert (Hcreate : forall w, createParticles fuel h w = (set_particles [] w, Return tt)).
  { intros w. rewrite createParticles_unfold, H2d. reflexivity. }
  split; [exact Hcreate|].
  set (w1 := animated [] (set_particles [] (set_loaded true constructed))).
  assert (Hload : dispatch fuel h ImageLoad constructed = (w1, Return tt)).
  { rewrite dispatch_unfold. cbn [onload loaded constructed andb negb].
    unfold bind at 1, put. unfold bind at 1. rewrite Hcreate.
    now rewrite animate_idle by reflexivity. }
  assert (Hw1 : idle w1) by (now repeat split).
  pose proof (idle_frames fuel h n w1 Hw1) as Hn.
  cbn zeta in *. cbn [replay]. rewrite Hload.
  destruct (replay fuel h (repeat AnimationFrame n) w1) as [w2 os].
  cbn [fst snd] in *. destruct Hn as (-> & (Hp & _ & Hs) & Hd & Hl).
  repeat split; trivial.
  rewrite Hs, Hl. f_equal. cbn. lia.
Qed.

Lemma C10_no_sampling_context_witness :
  context2d blind_host = false
  /\ (forall w, createParticles 400 blind_host w = (set_particles [] w, Return tt))
  /\ let r := replay 400 blind_host (ImageLoad :: repeat AnimationFrame 3) constructed in
     snd r = repeat (Return tt) 4
     /\ particles (fst r) = []
     /\ draws (fst r) = repeat 0%nat 4
     /\ scheduled (fst r) = [Z.of_nat 4].
Proof.
  split; [reflexivity|].
  exact (C10_no_sampling_context 400 3 blind_host eq_refl).
Defined.

(** ** [destroy] *)

(** C8 fails when [destroy] comes before the load event: the [onload]
    handler is still installed, so the load creates the particles and starts
    the loop, and every later frame runs a physics step, draws and requests
    the next frame. *)
Theorem C8_destroy_before_load :
  let r := replay 400 sample_host [Destroy; ImageLoad; AnimationFrame; AnimationFrame]
             constructed in
  snd r = [Return tt; Return tt; Return tt; Return tt]
  /\ draws (fst r) = [315; 315; 315]%nat
  /\ scheduled (fst r) = [3%Z]
  /\ programLive (fst r) = false
  /\ option_map Particle.z (head (particles (fst r))) = Some (-8.4672125382399983)
  /\ option_map Particle.z
       (head (particles (fst (replay 400 sample_host [Destroy; ImageLoad] constructed))))
     = Some (-9.7240000000000002).
Proof.
  vm_compute. repeat split.
Qed.

Lemma filter_idempotent {A} (f : A -> bool) (l : list A) :
  List.filter f (List.filter f l) = List.filter f l.
Proof.
  induction l as [|a l IH]; [reflexivity|]. cbn.
  destruct (f a) eqn:Hf; cbn; rewrite ?Hf, IH; reflexivity.
Qed.

Lemma destroy_unfold (w : World) :
  destroy w
  = (mkWorld (canvasWidth w) (canvasHeight w) (particles w) (mouseX w) (mouseY w)
       (animationId w) (isMouseOver w) false false (particleCount w)
       (mouseMoveHandler w) (mouseOutHandler w) (onload w) (loaded w)
       (unsubscribe (mouseOutHandler w) "mouseout"
          (unsubscribe (mouseMoveHandler w) "mousemove" (listeners w)))
       (List.filter (fun i => negb (i =? animationId w)%Z) (scheduled w))
       (lastFrameId w) (console w) (vertexData w) (draws w) (randomCalls w),
     Return tt).
Proof.
  unfold destroy, bind, get, cancelAnimationFrame, removeEventListener, modify, ret.
  destruct w as [? ? ? ? ? ? ? ? ? ? [] [] ? ? ? ? ? ? ? ? ?]; reflexivity.
Qed.

Lemma filter_swap {A} (f g : A -> bool) (l : list A) :
  List.filter f (List.filter g l) = List.filter g (List.filter f l).
Proof.
  induction l as [|a l IH]; [reflexivity|]. cbn.
  destruct (f a) eqn:Hf, (g a) eqn:Hg; cbn; rewrite ?Hf, ?Hg, IH; reflexivity.
Qed.

(** X1: [destroy] is idempotent at any time, before the load as well as
    after it: a second call returns normally and changes nothing. *)
Lemma destroy_idempotent (w : World) :
  destroy (fst (destroy w)) = (fst (destroy w), Return tt).
Proof.
  rewrite !destroy_unfold. cbn [fst]. cbn.
  rewrite filter_idempotent. do 2 f_equal.
  unfold unsubscribe.
  destruct (mouseMoveHandler w), (mouseOutHandler w);
    rewrite ?filter_idempotent; try reflexivity.
  rewrite (filter_swap _ (fun t => negb (String.eqb t "mouseout"))).
  now rewrite !filter_idempotent.
Qed.

Lemma createParticles_page (fuel : nat) (h : Host) (w : World) :
  page_view (fst (createParticles fuel h w)) = page_view w.
Proof.
  rewrite createParticles_unfold.
  destruct (context2d h); cbn [negb]; [|reflexivity].
  cbv zeta. destruct (getImageData _ _) as [size|e]; [|reflexivity].
  destruct (Builder.build _ _ _ _ _ _ _ _) as [[ps calls]|]; [|reflexivity].
  now destruct (vertices _ _ _).
Qed.

Lemma load_running (fuel : nat) (h : Host) :
  running (fst (dispatch fuel h ImageLoad constructed)).
Proof.
  destruct (load_simulating fuel h) as [Hs _]. split; [exact Hs|]. clear Hs.
  rewrite dispatch_unfold. cbn [onload loaded constructed andb negb].
  unfold bind at 1, put. unfold bind.
  pose proof (createParticles_page fuel h (set_loaded true constructed)) as Hpage.
  destruct (createParticles_spec fuel h (set_loaded true constructed) eq_refl)
    as (Hc & _ & _ & Ho).
  destruct (createParticles fuel h (set_loaded true constructed)) as [w o].
  cbn [fst snd] in *. unfold page_view in Hpage. cbn in Hpage.
  injection Hpage as Hsch Hlast Hid Hmm Hmo Hls _ _.
  assert (Hlisteners : Forall (fun t => t = "mousemove" \/ t = "mouseout") (listeners w)).
  { rewrite Hls. constructor; [now left|constructor; [now right|constructor]]. }
  destruct Ho as [-> | [-> | [e ->]]].
  - destruct (animate_spec w Hc) as [data ->]. unfold animated. cbn.
    rewrite Hsch. cbn. repeat split; auto.
  - cbn. repeat split; auto.
  - cbn. repeat split; auto.
Qed.

Lemma dispatch_running (fuel : nat) (h : Host) (ev : event) (w : World) :
  running w -> running (fst (dispatch fuel h ev w)).
Proof.
  intros Hr. pose proof Hr as (Hs & Hsch & Hmm & Hmo & Hls).
  split; [now apply dispatch_simulating|].
  rewrite dispatch_unfold. destruct ev as [| |cx cy l t| |].
  - destruct Hs as [_ Hl]. rewrite Hl, andb_false_r. now repeat split.
  - destruct Hsch as [-> | ->]; cbn [run_callbacks].
    + cbn. now repeat split; auto.
    + destruct (animate_spec (set_scheduled [] w)) as [data Ha]; [apply Hs|].
      unfold bind. rewrite Ha. cbn. repeat split; auto.
  - destruct (has_listener _ w); cbn; now repeat split.
  - destruct (has_listener _ w); cbn; now repeat split.
  - rewrite destroy_unfold, Hmm, Hmo. cbn.
    repeat split; auto.
    + destruct Hsch as [-> | ->]; cbn; [now left|]. rewrite Z.eqb_refl. now left.
    + apply Forall_forall. intros t Ht. rewrite Forall_forall in Hls.
      apply Hls. apply list_elem_of_In in Ht. apply list_elem_of_In.
      apply filter_In in Ht as [Ht _]. now apply filter_In in Ht as [Ht _].
Qed.

Lemma replay_running (fuel : nat) (h : Host) (evs : list event) :
  forall w : World, running w -> running (fst (replay fuel h evs w)).
Proof.
  induction evs as [|ev evs IH]; intros w Hw; cbn [replay]; [exact Hw|].
  pose proof (dispatch_running fuel h ev w Hw) as Hw1.
  destruct (dispatch fuel h ev w) as [w1 o]. cbn [fst] in *.
  specialize (IH w1 Hw1).
  now destruct (replay fuel h evs w1) as [w2 os].
Qed.

Lemma destroy_running (w : World) :
  running w ->
  let w' := fst (destroy w) in
  stopped w' /\ programLive w' = false /\ bufferLive w' = false
  /\ listeners w' = [] /\ particles w' = particles w /\ draws w' = draws w.
Proof.
  intros ((_ & Hl) & Hsch & Hmm & Hmo & Hls).
  rewrite destroy_unfold, Hmm, Hmo. cbn. repeat split; auto.
  - destruct Hsch as [-> | ->]; cbn; [reflexivity|]. now rewrite Z.eqb_refl.
  - induction Hls as [|t l [-> | ->] _ IH]; cbn; auto.
Qed.

Lemma dispatch_stopped (fuel : nat) (h : Host) (ev : event) (w : World) :
  stopped w ->
  let w' := fst (dispatch fuel h ev w) in
  snd (dispatch fuel h ev w) = Return tt
  /\ stopped w' /\ particles w' = particles w /\ draws w' = draws w.
Proof.
  intros [Hl Hs]. rewrite dispatch_unfold. destruct ev as [| |cx cy l t| |].
  - rewrite Hl, andb_false_r. now repeat split.
  - rewrite Hs. cbn. now repeat split.
  - destruct (has_listener _ w); cbn; now repeat split.
  - destruct (has_listener _ w); cbn; now repeat split.
  - rewrite destroy_unfold, Hs. cbn.
    destruct (mouseMoveHandler w), (mouseOutHandler w); cbn; repeat split; auto.
Qed.

Lemma replay_stopped (fuel : nat) (h : Host) (evs : list event) :
  forall w : World,
    stopped w ->
    let r := replay fuel h evs w in
    Forall (fun o => o = Return tt) (snd r)
    /\ stopped (fst r) /\ particles (fst r) = particles w /\ draws (fst r) = draws w.
Proof.
  induction evs as [|ev evs IH]; intros w Hw; cbn [replay].
  - cbn. repeat split; try apply Hw. constructor.
  - destruct (dispatch_stopped fuel h ev w Hw) as (Ho & Hw1 & Hp1 & Hd1).
    destruct (dispatch fuel h ev w) as [w1 o]. cbn [fst snd] in *.
    destruct (IH w1 Hw1) as (Hos & Hw2 & Hp2 & Hd2).
    destruct (replay fuel h evs w1) as [w2 os]. cbn [fst snd] in *.
    repeat split; try apply Hw2; try congruence. now constructor.
Qed.

(** Once the image has loaded, [destroy] stops the loop for good: the
    pending frame is cancelled, the program, the buffer and the two pointer
    subscriptions are released, and whatever event comes next (a second
    [destroy] included) raises nothing, moves no particle and draws nothing. *)
Theorem destroy_after_load_stops (fuel : nat) (h : Host) (before after : list event) :
  let w := fst (replay fuel h (ImageLoad :: before) constructed) in
  let w' := fst (destroy w) in
  let r := replay fuel h after w' in
  scheduled w' = [] /\ programLive w' = false /\ bufferLive w' = false /\ listeners w' = []
  /\ Forall (fun o => o = Return tt) (snd r)
  /\ scheduled (fst r) = []
  /\ particles (fst r) = particles w /\ draws (fst r) = draws w.
Proof.
  cbn zeta. cbn [replay].
  pose proof (load_running fuel h) as Hw1.
  destruct (dispatch fuel h ImageLoad constructed) as [w1 o1]. cbn [fst] in *.
  pose proof (replay_running fuel h before w1 Hw1) as Hw.
  destruct (replay fuel h before w1) as [w os]. cbn [fst] in *.
  destruct (destroy_running w Hw) as (Hst & Hprog & Hbuf & Hls & Hp & Hd).
  destruct (replay_stopped fuel h after _ Hst) as (Hos & Hst' & Hp' & Hd').
  repeat split; try assumption; try apply Hst; try apply Hst'; congruence.
Qed.

(** ** The pointer repulsion *)

Section FloatMagnitudes.

Variables x y : number.

Lemma mul_mag (a b : Z) :
  mag_le a (Prim2SF x) -> mag_le b (Prim2SF y) -> (a + b <= 1023)%Z ->
  mag_le (Z.max (a + b) (-1074) + 1) (Prim2SF (x * y)).
Proof.
  intros. rewrite FloatAxioms.mul_spec. apply SFmul_mag; auto using Prim2SF_valid.
Qed.

Lemma add_mag (a b : Z) :
  mag_le a (Prim2SF x) -> mag_le b (Prim2SF y) -> (Z.max a b <= 1022)%Z ->
  mag_le (Z.max (Z.max a b + 1) (-1074) + 1) (Prim2SF (x + y)).
Proof.
  intros. rewrite FloatAxioms.add_spec. apply SFadd_mag; auto using Prim2SF_valid.
Qed.

Lemma sub_mag (a b : Z) :
  mag_le a (Prim2SF x) -> mag_le b (Prim2SF y) -> (Z.max a b <= 1022)%Z ->
  mag_le (Z.max (Z.max a b + 1) (-1074) + 1) (Prim2SF (x - y)).
Proof.
  intros. rewrite FloatAxioms.sub_spec. apply SFsub_mag; auto using Prim2SF_valid.
Qed.

Lemma div_mag (a b : Z) :
  mag_le a (Prim2SF x) -> mag_ge b (Prim2SF y) -> (a - b <= 1022)%Z ->
  mag_le (Z.max (a - b + 1) (-1074) + 1) (Prim2SF (x / y)).
Proof.
  intros. rewrite FloatAxioms.div_spec. apply SFdiv_mag; auto using Prim2SF_valid.
Qed.

Lemma sqrt_mag (a : Z) :
  not_negative (Prim2SF x) -> mag_le a (Prim2SF x) -> (a <= 1022)%Z ->
  mag_le (Z.max ((a + 1) / 2) (-1074) + 1) (Prim2SF (Math_sqrt x))
  /\ not_negative (Prim2SF (Math_sqrt x)).
Proof.
  intros. unfold Math_sqrt. rewrite FloatAxioms.sqrt_spec.
  apply SFsqrt_mag; auto using Prim2SF_valid.
Qed.

Lemma add_pos_mag (a b : Z) :
  not_negative (Prim2SF x) -> mag_le a (Prim2SF x) ->
  not_negative (Prim2SF y) -> mag_ge b (Prim2SF y) -> mag_le a (Prim2SF y) ->
  (-1021 <= b)%Z -> (a <= 1022)%Z ->
  mag_ge b (Prim2SF (x + y)) /\ mag_le (Z.max (a + 1) (-1074) + 1) (Prim2SF (x + y)).
Proof.
  intros. rewrite FloatAxioms.add_spec.
  apply (SFadd_pos a b); auto using Prim2SF_valid.
Qed.

(** Adding a number below [2^969] to a finite number gives a finite number. *)
Lemma add_small :
  is_finite x = true -> mag_le 969 (Prim2SF y) -> is_finite (x + y) = true.
Proof.
  rewrite !is_finite_spec, FloatAxioms.add_spec. intros.
  apply SFadd_small; auto using Prim2SF_valid.
Qed.

Lemma mag_le_is_finite (a : Z) : mag_le a (Prim2SF x) -> is_finite x = true.
Proof. rewrite is_finite_spec. apply mag_le_finite. Qed.

Lemma mag_ge_not_zero (b : Z) : mag_ge b (Prim2SF x) -> strict_eq x 0 = false.
Proof.
  unfold strict_eq. rewrite eqb_zero_spec. now destruct (Prim2SF x).
Qed.

End FloatMagnitudes.

Ltac mag_const := vm_compute; first [exact I | reflexivity | discriminate].

Section InsideTheRadius.

Variable m : Physics.pointer.
Variable p : Particle.
Hypothesis inside :
  (Physics.mouseDistSquared m p <? Physics.mouseRadiusSquared) = true.

Lemma squared_distance_mag :
  not_negative (Prim2SF (Physics.mouseDistSquared m p))
  /\ mag_le 14 (Prim2SF (Physics.mouseDistSquared m p)).
Proof.
  assert (Hnn : not_negative (Prim2SF (Physics.mouseDistSquared m p))).
  { unfold Physics.mouseDistSquared.
    rewrite FloatAxioms.add_spec, !FloatAxioms.mul_spec.
    apply SFadd_not_negative; apply SFmul_square_shape. }
  split; [exact Hnn|].
  pose proof inside as H. rewrite FloatAxioms.ltb_spec in H.
  change (Prim2SF Physics.mouseRadiusSquared)
    with (S754_finite false 7916483719987200 (-39)) in H.
  apply (SFltb_mag _ _ _ (Prim2SF_valid _) Hnn) in H. exact H.
Qed.

Lemma offsets_mag :
  mag_le 513 (Prim2SF (Physics.mouseDx m p)) /\ mag_le 513 (Prim2SF (Physics.mouseDy m p)).
Proof.
  destruct squared_distance_mag as [_ Hs]. apply mag_le_finite in Hs.
  unfold Physics.mouseDistSquared in Hs. rewrite FloatAxioms.add_spec in Hs.
  apply SFadd_finite_inv in Hs as [Hx Hy].
  split; apply SFmul_square_bound; try apply Prim2SF_valid;
    try (rewrite <- FloatAxioms.mul_spec; apply Prim2SF_valid);
    rewrite <- FloatAxioms.mul_spec; assumption.
Qed.

Lemma distance_mag :
  not_negative (Prim2SF (Physics.mouseDist m p)) /\ mag_le 8 (Prim2SF (Physics.mouseDist m p)).
Proof.
  destruct squared_distance_mag as [Hnn Hs].
  destruct (sqrt_mag (Physics.mouseDistSquared m p) 14 Hnn Hs ltac:(lia)) as [Hm Hn].
  split; [exact Hn|]. exact Hm.
Qed.

(** The divisor [mouseDist + 0.1] is at least [2^-4]. *)
Lemma divisor_mag :
  mag_ge (-3) (Prim2SF (Physics.mouseDist m p + 0.1))
  /\ mag_le 10 (Prim2SF (Physics.mouseDist m p + 0.1)).
Proof.
  destruct distance_mag as [Hnn Hd].
  apply (add_pos_mag _ _ 8 (-3)); trivial; try lia; mag_const.
Qed.

Lemma force_mag : mag_le 5 (Prim2SF (Physics.force m p)).
Proof.
  destruct distance_mag as [_ Hd]. unfold Physics.force.
  assert (Hdiff : mag_le 10 (Prim2SF (Physics.mouseRadius - Physics.mouseDist m p))).
  { eapply mag_le_weaken; [|apply (sub_mag _ _ 7 8); trivial; try lia; mag_const]. lia. }
  eapply mag_le_weaken; [|apply (div_mag _ _ 10 7); trivial; try lia; mag_const]. lia.
Qed.

Lemma repel_mag :
  mag_le 528 (Prim2SF (Physics.repelX m p))
  /\ mag_le 528 (Prim2SF (Physics.repelY m p))
  /\ mag_le 10 (Prim2SF (Physics.repelZ m p)).
Proof.
  destruct offsets_mag as [Hx Hy]. destruct divisor_mag as [Hlo _].
  pose proof force_mag as Hf.
  assert (Hq : forall d, mag_le 513 (Prim2SF d) ->
                         mag_le 528 (Prim2SF (d / (Physics.mouseDist m p + 0.1)
                                              * Physics.force m p * Physics.mouseRepelForce))).
  { intros d Hd.
    assert (H1 : mag_le 518 (Prim2SF (d / (Physics.mouseDist m p + 0.1)))).
    { eapply mag_le_weaken; [|apply (div_mag _ _ 513 (-3)); trivial; lia]. lia. }
    assert (H2 : mag_le 524 (Prim2SF (d / (Physics.mouseDist m p + 0.1) * Physics.force m p))).
    { eapply mag_le_weaken; [|apply (mul_mag _ _ 518 5); trivial; lia]. lia. }
    eapply mag_le_weaken; [|apply (mul_mag _ _ 524 3); trivial; try lia; mag_const]. lia. }
  split; [apply Hq, Hx|]. split; [apply Hq, Hy|].
  unfold Physics.repelZ.
  assert (H1 : mag_le 9 (Prim2SF (Physics.force m p * Physics.mouseRepelForce))).
  { eapply mag_le_weaken; [|apply (mul_mag _ _ 5 3); trivial; try lia; mag_const]. lia. }
  eapply mag_le_weaken; [|apply (mul_mag _ _ 9 0); trivial; try lia; mag_const]. lia.
Qed.

End InsideTheRadius.

Lemma strict_eq_zero_cases (a : number) : (a =? 0) = true -> a = 0 \/ a = -0.
Proof.
  rewrite eqb_zero_spec. destruct (Prim2SF a) as [s| | |] eqn:E; try discriminate.
  intros _. rewrite <- (SF2Prim_Prim2SF a), E. destruct s; [right|left]; reflexivity.
Qed.

Lemma sub_strict_eq_l (a b : number) :
  is_finite a = true -> (a =? b) = true -> (a - b =? 0) = true.
Proof.
  rewrite is_finite_spec, FloatAxioms.eqb_spec, eqb_zero_spec, FloatAxioms.sub_spec.
  unfold SFeqb, SF64sub.
  destruct (Prim2SF a) as [[]|[]| |sa ma ea], (Prim2SF b) as [[]|[]| |sb mb eb];
    sf_trivial.
  all: try solve [destruct sa; sf_trivial].
  all: try solve [destruct sb; sf_trivial].
  intros _.
  destruct (SFcompare _ _) as [[]|] eqn:Hc; try discriminate.
  apply SFcompare_finite_Eq in Hc as (-> & -> & ->). intros _.
  now rewrite SFsub_diag.
Qed.

Lemma strict_eq_not_less (a b : number) : (a =? b) = true -> (a <? b) = false.
Proof.
  rewrite FloatAxioms.eqb_spec, FloatAxioms.ltb_spec. unfold SFeqb, SFltb.
  now destruct (SFcompare _ _) as [[]|].
Qed.

(** [===] with a number that is not a zero is equality. *)
Lemma strict_eq_mouseRadius (a : number) :
  (a =? Physics.mouseRadius) = true -> a = Physics.mouseRadius.
Proof.
  rewrite FloatAxioms.eqb_spec. intros H. apply Prim2SF_inj.
  change (Prim2SF Physics.mouseRadius) with (S754_finite false 8444249301319680 (-46)) in *.
  unfold SFeqb in H.
  destruct (Prim2SF a) as [[]|[]| |sa ma ea]; try discriminate.
  destruct (SFcompare _ _) as [[]|] eqn:Hc; try discriminate.
  now apply SFcompare_finite_Eq in Hc as (-> & -> & ->).
Qed.

Lemma mul_zero_r (a c : number) :
  is_finite a = true -> (c =? 0) = true -> (a * c =? 0) = true.
Proof. intros. rewrite mul_comm. now apply mul_zero_l. Qed.

(** The particle right under the pointer. *)
Lemma at_the_pointer (m : Physics.pointer) (p : Particle) :
  is_finite (Particle.x p) = true -> is_finite (Particle.y p) = true ->
  strict_eq (Particle.x p) (Physics.mouseX m) = true ->
  strict_eq (Particle.y p) (Physics.mouseY m) = true ->
  Physics.mouseDistSquared m p = 0
  /\ Physics.mouseDist m p = 0
  /\ Physics.mouseDist m p + 0.1 = 0.1
  /\ Physics.force m p = 1
  /\ strict_eq (Physics.repelX m p) 0 = true
  /\ strict_eq (Physics.repelY m p) 0 = true
  /\ Physics.repelZ m p = 2.
Proof.
  intros Hfx Hfy Hx Hy.
  pose proof (sub_strict_eq_l _ _ Hfx Hx) as Hdx.
  pose proof (sub_strict_eq_l _ _ Hfy Hy) as Hdy.
  fold (Physics.mouseDx m p) in Hdx. fold (Physics.mouseDy m p) in Hdy.
  unfold Physics.repelX, Physics.repelY, Physics.repelZ, Physics.force,
    Physics.mouseDist, Physics.mouseDistSquared, strict_eq.
  destruct (strict_eq_zero_cases _ Hdx) as [-> | ->],
           (strict_eq_zero_cases _ Hdy) as [-> | ->];
    vm_compute; repeat split.
Qed.

(** A particle whose computed distance is the radius. *)
Lemma at_the_radius (m : Physics.pointer) (p : Particle) :
  strict_eq (Physics.mouseDist m p) Physics.mouseRadius = true ->
  Physics.mouse_interaction m p = p
  \/ (strict_eq (Physics.repelX m p) 0 = true
      /\ strict_eq (Physics.repelY m p) 0 = true
      /\ strict_eq (Physics.repelZ m p) 0 = true).
Proof.
  intros Hd. apply strict_eq_mouseRadius in Hd.
  unfold Physics.mouse_interaction.
  destruct (Physics.isMouseOver m); [|now left].
  destruct (_ <? _) eqn:Hin; [right|now left].
  destruct (offsets_mag m p Hin) as [Hx Hy].
  destruct (divisor_mag m p Hin) as [Hlo _].
  assert (Hf : Physics.force m p = 0).
  { unfold Physics.force. rewrite Hd. reflexivity. }
  assert (Hq : forall d, mag_le 513 (Prim2SF d) ->
                         (d / (Physics.mouseDist m p + 0.1) * Physics.force m p
                          * Physics.mouseRepelForce =? 0) = true).
  { intros d Hmag. apply mul_zero_l; [|reflexivity].
    apply mul_zero_r; [|now rewrite Hf].
    apply (mag_le_is_finite _ 518).
    eapply mag_le_weaken; [|apply (div_mag _ _ 513 (-3)); trivial; lia]. lia. }
  unfold strict_eq, Physics.repelX, Physics.repelY, Physics.repelZ.
  split; [now apply Hq|]. split; [now apply Hq|]. now rewrite Hf.
Qed.

(** C4: the repulsion adds nothing at the radius, adds a finite amount at the
    pointer, where the divisor is 0.1, and anywhere inside the radius divides
    by numbers that are not zero and keeps a finite velocity finite. *)
Theorem C4_repulsion_is_safe (m : Physics.pointer) (p : Particle) :
  (strict_eq (Physics.mouseDistSquared m p) Physics.mouseRadiusSquared = true ->
   Physics.mouse_interaction m p = p)
  /\ (strict_eq (Physics.mouseDist m p) Physics.mouseRadius = true ->
      Physics.mouse_interaction m p = p
      \/ (strict_eq (Physics.repelX m p) 0 = true
          /\ strict_eq (Physics.repelY m p) 0 = true
          /\ strict_eq (Physics.repelZ m p) 0 = true))
  /\ (is_finite (Particle.x p) = true -> is_finite (Particle.y p) = true ->
      strict_eq (Particle.x p) (Physics.mouseX m) = true ->
      strict_eq (Particle.y p) (Physics.mouseY m) = true ->
      Physics.mouseDist m p = 0
      /\ Physics.mouseDist m p + 0.1 = 0.1
      /\ strict_eq (Physics.repelX m p) 0 = true
      /\ strict_eq (Physics.repelY m p) 0 = true
      /\ Physics.repelZ m p = 2)
  /\ ((Physics.mouseDistSquared m p <? Physics.mouseRadiusSquared) = true ->
      strict_eq (Physics.mouseDist m p + 0.1) 0 = false
      /\ strict_eq Physics.mouseRadius 0 = false
      /\ is_finite (Physics.repelX m p) = true
      /\ is_finite (Physics.repelY m p) = true
      /\ is_finite (Physics.repelZ m p) = true)
  /\ (is_finite (Particle.vx p) = true ->
      is_finite (Particle.vx (Physics.mouse_interaction m p)) = true)
  /\ (is_finite (Particle.vy p) = true ->
      is_finite (Particle.vy (Physics.mouse_interaction m p)) = true)
  /\ (is_finite (Particle.vz p) = true ->
      is_finite (Particle.vz (Physics.mouse_interaction m p)) = true).
Proof.
  split; [|split; [|split; [|split]]].
  - intros H. apply strict_eq_not_less in H.
    unfold Physics.mouse_interaction. rewrite H. now destruct (Physics.isMouseOver m).
  - apply at_the_radius.
  - intros Hfx Hfy Hx Hy.
    destruct (at_the_pointer m p Hfx Hfy Hx Hy) as (_ & ? & ? & _ & ? & ? & ?).
    now repeat split.
  - intros Hin. destruct (repel_mag m p Hin) as (Hx & Hy & Hz).
    destruct (divisor_mag m p Hin) as [Hlo _].
    repeat split.
    + exact (mag_ge_not_zero _ _ Hlo).
    + exact (mag_le_is_finite _ _ Hx).
    + exact (mag_le_is_finite _ _ Hy).
    + exact (mag_le_is_finite _ _ Hz).
  - unfold Physics.mouse_interaction.
    destruct (Physics.isMouseOver m); [|tauto].
    destruct (_ <? _) eqn:Hin; [|tauto].
    destruct (repel_mag m p Hin) as (Hx & Hy & Hz). cbn.
    repeat split; intros Hv; apply add_small; trivial;
      (eapply mag_le_weaken; [|eassumption]; lia).
Qed.

Lemma C4_repulsion_witness :
  let m := Physics.mkPointer true 100 50 in
  let edge := Particle.mk 220 50 0 0 0 0 220 50 0 (1, 0, 0, 1) 1.275 in
  let centre := Particle.mk 100 50 0 0 0 0 100 50 0 (1, 0, 0, 1) 1.275 in
  let near := Particle.mk 103 54 0 0.5 0.5 0.5 103 54 0 (1, 0, 0, 1) 1.275 in
  Physics.mouse_interaction m edge = edge
  /\ (Physics.mouseDist m centre + 0.1 = 0.1 /\ Physics.repelZ m centre = 2)
  /\ (strict_eq (Physics.mouseDist m near + 0.1) 0 = false
      /\ is_finite (Physics.repelX m near) = true)
  /\ is_finite (Particle.vx (Physics.mouse_interaction m near)) = true.
Proof.
  intros m edge centre near.
  split; [apply (C4_repulsion_is_safe m edge); reflexivity|].
  split; [split; apply (C4_repulsion_is_safe m centre); reflexivity|].
  split; [split; apply (C4_repulsion_is_safe m near); reflexivity|].
  apply (C4_repulsion_is_safe m near); reflexivity.
Defined.

(** ** The loops over the particle array *)

Lemma update_from_prefix (m : Physics.pointer) (r : nat) :
  forall (i : nat) (ps : list Particle),
    (i <= length ps)%nat ->
    Physics.update_from r i m ps
    = if (i + r <=? length ps)%nat
      then (take i ps ++ map (Physics.update_particle m) (take r (drop i ps))
              ++ drop (i + r) ps, Return tt)
      else (take i ps ++ map (Physics.update_particle m) (drop i ps), Throw TypeError).
Proof.
  induction r as [|r IH]; intros i ps Hi; cbn [Physics.update_from].
  - rewrite Nat.add_0_r. destruct (Nat.leb_spec i (length ps)); [|lia].
    unfold ret. rewrite take_0. cbn [map app]. now rewrite take_drop.
  - unfold bind, get, put.
    destruct (ps !! i) as [p|] eqn:Hp.
    + assert (Hlt : (i < length ps)%nat) by (eapply lookup_lt_Some; eassumption).
      rewrite IH by (rewrite length_insert; lia).
      rewrite length_insert, !drop_insert_lt, take_insert_lt by lia.
      rewrite (take_S_r ps i p Hp).
      rewrite insert_app_r_alt by (rewrite length_take; lia).
      rewrite length_take, Nat.min_l, Nat.sub_diag by lia. cbn [insert list_insert].
      rewrite (drop_S ps p i Hp).
      replace (S i + r)%nat with (i + S r)%nat by lia.
      destruct (Nat.leb_spec (i + S r) (length ps));
        cbn [take map]; rewrite <- !app_assoc; reflexivity.
    + apply lookup_ge_None in Hp.
      destruct (Nat.leb_spec (i + S r) (length ps)); [lia|].
      assert (i = length ps) by lia. subst i.
      now rewrite drop_all, take_ge, app_nil_r by lia.
Qed.

(** X2: the physics loop updates the first [particleCount] particles in
    place and leaves the others alone; when [particleCount] is larger than
    the array, every particle is updated and the read past the end raises a
    [TypeError]. *)
Theorem update_particles_bounds (n : nat) (m : Physics.pointer) (ps : list Particle) :
  Physics.update_particles n m ps
  = if (n <=? length ps)%nat
    then (map (Physics.update_particle m) (take n ps) ++ drop n ps, Return tt)
    else (map (Physics.update_particle m) ps, Throw TypeError).
Proof.
  unfold Physics.update_particles. rewrite update_from_prefix by lia.
  cbn [Nat.add]. rewrite take_0, drop_0. reflexivity.
Qed.

Lemma vertices_prefix (r : nat) :
  forall (i : nat) (ps : list Particle),
    (i <= length ps)%nat ->
    vertices r i ps
    = if (i + r <=? length ps)%nat
      then Some (flat_map Render.vertex (take r (drop i ps)))
      else None.
Proof.
  induction r as [|r IH]; intros i ps Hi; cbn [vertices].
  - rewrite take_0, Nat.add_0_r. now destruct (Nat.leb_spec i (length ps)); [|lia].
  - destruct (ps !! i) as [p|] eqn:Hp.
    + assert (Hlt : (i < length ps)%nat) by (eapply lookup_lt_Some; eassumption).
      rewrite IH by lia. replace (S i + r)%nat with (i + S r)%nat by lia.
      destruct (Nat.leb_spec (i + S r) (length ps)); [|reflexivity].
      rewrite (drop_S ps p i Hp). cbn [take flat_map]. unfold Render.vertex.
      now destruct (Particle.color p) as [[[cr cg] cb] ca].
    + apply lookup_ge_None in Hp.
      now destruct (Nat.leb_spec (i + S r) (length ps)); [lia|].
Qed.

Lemma updateVertexBuffer_unfold (w : World) :
  updateVertexBuffer w
  = if (particleCount w <=? length (particles w))%nat
    then (set_vertexData (flat_map Render.vertex (take (particleCount w) (particles w))) w,
          Return tt)
    else (w, Throw TypeError).
Proof.
  unfold updateVertexBuffer, bind, get, put, throw.
  rewrite vertices_prefix by lia. cbn [Nat.add]. rewrite drop_0.
  now destruct (_ <=? _)%nat.
Qed.

Lemma length_vertex (p : Particle) : length (Render.vertex p) = 8%nat.
Proof. unfold Render.vertex. now destruct (Particle.color p) as [[[cr cg] cb] ca]. Qed.

Lemma length_vertices (ps : list Particle) :
  length (flat_map Render.vertex ps) = (8 * length ps)%nat.
Proof.
  induction ps as [|p ps IH]; [reflexivity|].
  cbn [flat_map]. rewrite length_app, length_vertex, IH. cbn [length]. lia.
Qed.

Lemma fetch_vertex (a : Render.attribute) (ps : list Particle) (i : nat) (p : Particle) :
  Render.stride a = 32%nat ->
  (Render.offset a / 4 + Render.components a <= 8)%nat ->
  ps !! i = Some p ->
  Render.fetch a (flat_map Render.vertex ps) i
  = take (Render.components a) (drop (Render.offset a / 4) (Render.vertex p)).
Proof.
  intros Hs Hk Hp. unfold Render.fetch. rewrite Hs.
  replace (i * 32)%nat with (i * 8 * 4)%nat by lia.
  rewrite Nat.div_add_l by lia.
  assert (Hlt : (i < length ps)%nat) by (eapply lookup_lt_Some; eassumption).
  rewrite <- (take_drop_middle ps i p Hp) at 1.
  rewrite flat_map_app. cbn [flat_map].
  rewrite drop_app_ge by (rewrite length_vertices, length_take; lia).
  rewrite length_vertices, length_take, Nat.min_l by lia.
  replace (i * 8 + Render.offset a / 4 - 8 * i)%nat with (Render.offset a / 4)%nat by lia.
  rewrite drop_app_le by (rewrite length_vertex; lia).
  rewrite take_app_le by (rewrite length_drop, length_vertex; lia).
  reflexivity.
Qed.

(** X3: [updateVertexBuffer] uploads eight floats per particle, in the
    order the attribute pointers of [animate] read them: for the particle at
    index [i], the position pointer (3 floats, stride 32, offset 0) reads
    its x, y, z, the color pointer (4 floats, offset 12) its color, and the
    size pointer (1 float, offset 28) its size, each rounded to binary32. *)
Theorem vertex_buffer_layout (w : World) (i : nat) (p : Particle) :
  (particleCount w <= length (particles w))%nat ->
  (i < particleCount w)%nat ->
  particles w !! i = Some p ->
  let data := vertexData (fst (updateVertexBuffer w)) in
  snd (updateVertexBuffer w) = Return tt
  /\ length data = (8 * particleCount w)%nat
  /\ Render.fetch Render.positionAttribute data i
     = map Math_fround [Particle.x p; Particle.y p; Particle.z p]
  /\ Render.fetch Render.colorAttribute data i
     = map Math_fround (let '(cr, cg, cb, ca) := Particle.color p in [cr; cg; cb; ca])
  /\ Render.fetch Render.sizeAttribute data i = [Math_fround (Particle.size p)].
Proof.
  intros Hn Hi Hp. cbn zeta. rewrite updateVertexBuffer_unfold.
  destruct (Nat.leb_spec (particleCount w) (length (particles w))); [|lia].
  cbn [fst snd vertexData set_vertexData].
  assert (Hp' : take (particleCount w) (particles w) !! i = Some p).
  { now rewrite lookup_take_lt by lia. }
  split; [reflexivity|]. split.
  { rewrite length_vertices, length_take. lia. }
  rewrite !(fetch_vertex _ _ i p) by (trivial; cbn; lia).
  unfold Render.vertex. destruct (Particle.color p) as [[[cr cg] cb] ca].
  repeat split.
Qed.

Lemma vertex_buffer_layout_witness :
  let p := Particle.mk 17.5 74.5 (-10) 0 0 0 17.5 74.5 0 (1, 0.5, 0.25, 1) 1.5 in
  let q := Particle.mk 18.5 74.5 10 0 0 0 18.5 74.5 0 (0, 0, 1, 1) 2 in
  let w := set_particleCount 2 (set_particles [p; q] constructed) in
  let data := vertexData (fst (updateVertexBuffer w)) in
  snd (updateVertexBuffer w) = Return tt
  /\ length data = 16%nat
  /\ Render.fetch Render.positionAttribute data 1 = map Math_fround [18.5; 74.5; 10]
  /\ Render.fetch Render.colorAttribute data 1 = map Math_fround [0; 0; 1; 1]
  /\ Render.fetch Render.sizeAttribute data 1 = [Math_fround 2].
Proof.
  intros p q w.
  apply (vertex_buffer_layout w 1 q); [cbn; lia|cbn; lia|reflexivity].
Defined.

(** X4: [updateVertexBuffer] raises a [TypeError], and uploads nothing,
    exactly when [particleCount] exceeds the length of the particle array;
    otherwise it uploads the first [particleCount] particles and no more. *)
Theorem updateVertexBuffer_bounds (w : World) :
  (snd (updateVertexBuffer w) = Throw TypeError
   <-> (length (particles w) < particleCount w)%nat)
  /\ (snd (updateVertexBuffer w) = Return tt
      <-> (particleCount w <= length (particles w))%nat)
  /\ ((length (particles w) < particleCount w)%nat -> fst (updateVertexBuffer w) = w)
  /\ ((particleCount w <= length (particles w))%nat ->
      fst (updateVertexBuffer w)
      = set_vertexData
          (flat_map Render.vertex (take (particleCount w) (particles w))) w).
Proof.
  rewrite updateVertexBuffer_unfold.
  destruct (Nat.leb_spec (particleCount w) (length (particles w))); cbn [fst snd];
    repeat split; intros; try reflexivity; try lia; discriminate.
Qed.

(** ** Frames *)

Lemma animate_unfold (w : World) :
  consistent w ->
  animate w
  = (animated (flat_map Render.vertex
                 (map (Physics.update_particle (pointer_of w)) (particles w))) w,
     Return tt).
Proof.
  intros Hc. unfold animate. unfold bind at 1, get.
  rewrite Hc, update_particles_map.
  unfold bind, put, ret. rewrite updateVertexBuffer_unfold.
  cbn [particleCount particles set_particles]. rewrite Hc, length_map, Nat.leb_refl.
  rewrite <- (length_map (Physics.update_particle (pointer_of w))), firstn_all.
  unfold bind, modify, requestAnimationFrame, get, put, ret, animated. cbn.
  now rewrite Hc.
Qed.

Lemma animate_frame_view (w : World) : frame_view (fst (animate w)) = frame_view w.
Proof.
  unfold animate. unfold bind at 1, get.
  unfold Physics.update_particles. rewrite update_from_prefix by lia.
  cbn [Nat.add].
  destruct (_ <=? _)%nat; [|reflexivity].
  unfold bind, put, ret. rewrite updateVertexBuffer_unfold.
  destruct (_ <=? _)%nat; reflexivity.
Qed.

Lemma run_callbacks_frame_view (ids : list Z) :
  forall w : World, frame_view (fst (run_callbacks ids w)) = frame_view w.
Proof.
  induction ids as [|id ids IH]; intros w; cbn [run_callbacks]; [reflexivity|].
  unfold bind. pose proof (animate_frame_view w) as Ha.
  destruct (animate w) as [w1 [[]| |]]; cbn [fst] in *; try assumption.
  now rewrite IH.
Qed.

Lemma createParticles_frame_view (fuel : nat) (h : Host) (w : World) :
  frame_view (fst (createParticles fuel h w)) = frame_view w.
Proof.
  rewrite createParticles_unfold.
  destruct (context2d h); cbn [negb]; [|reflexivity].
  cbv zeta. destruct (getImageData _ _) as [size|e]; [|reflexivity].
  destruct (Builder.build _ _ _ _ _ _ _ _) as [[ps calls]|]; [|reflexivity].
  now destruct (vertices _ _ _).
Qed.

Lemma load_frame_view (fuel : nat) (h : Host) (w : World) :
  frame_view (fst ((createParticles fuel h ;;; animate) w)) = frame_view w.
Proof.
  unfold bind. pose proof (createParticles_frame_view fuel h w) as Hc.
  destruct (createParticles fuel h w) as [w1 [[]| |]]; cbn [fst] in *; try assumption.
  now rewrite animate_frame_view.
Qed.

(** Every event leaves the size of the canvas as it is; every event but
    [destroy] leaves the listeners and the [onload] handler as they are. *)
Lemma dispatch_static (fuel : nat) (h : Host) (ev : event) (w : World) :
  let w' := fst (dispatch fuel h ev w) in
  canvasWidth w' = canvasWidth w /\ canvasHeight w' = canvasHeight w
  /\ (from_browser ev = true -> listeners w' = listeners w /\ onload w' = onload w).
Proof.
  cbn zeta. rewrite dispatch_unfold. destruct ev as [| |cx cy l t| |].
  - destruct (onload w && negb (loaded w)); [|now repeat split].
    unfold bind at 1, put.
    pose proof (load_frame_view fuel h (set_loaded true w)) as Hv.
    unfold frame_view in Hv. cbn in Hv.
    injection Hv as Hcw Hch _ _ _ Hon _ Hls _ _ _ _ _.
    now repeat split.
  - pose proof (run_callbacks_frame_view (scheduled w) (set_scheduled [] w)) as Hv.
    unfold frame_view in Hv. cbn in Hv.
    injection Hv as Hcw Hch _ _ _ Hon _ Hls _ _ _ _ _.
    now repeat split.
  - destruct (has_listener _ w); now repeat split.
  - destruct (has_listener _ w); now repeat split.
  - rewrite destroy_unfold. cbn. repeat split; discriminate.
Qed.

Lemma replay_static (fuel : nat) (h : Host) (evs : list event) :
  forall w : World,
    let w' := fst (replay fuel h evs w) in
    canvasWidth w' = canvasWidth w /\ canvasHeight w' = canvasHeight w
    /\ (forallb from_browser evs = true ->
        listeners w' = listeners w /\ onload w' = onload w).
Proof.
  induction evs as [|ev evs IH]; intros w; cbn [replay forallb].
  - now repeat split.
  - pose proof (dispatch_static fuel h ev w) as (Hcw & Hch & Hb). cbn zeta in *.
    destruct (dispatch fuel h ev w) as [w1 o]. cbn [fst] in *.
    specialize (IH w1). cbn zeta in IH. destruct IH as (Hcw' & Hch' & Hb').
    destruct (replay fuel h evs w1) as [w2 os]. cbn [fst] in *.
    split; [congruence|]. split; [congruence|].
    intros [H1 H2]%andb_prop. destruct (Hb H1), (Hb' H2). split; congruence.
Qed.

(** X5: from the construction on, as long as [destroy] is not called, both
    pointer handlers stay subscribed whatever else happens: a pointer move
    records the position relative to the bounding rectangle of the canvas
    and marks the pointer as over, a pointer out puts the pointer back at
    (-1000, -1000) and not over, and neither touches the particles. *)
Theorem pointer_is_tracked (fuel : nat) (h : Host) (evs : list event)
    (clientX clientY rectLeft rectTop : number) :
  forallb from_browser evs = true ->
  let w := fst (replay fuel h evs constructed) in
  let moved := fst (dispatch fuel h (MouseMove clientX clientY rectLeft rectTop) w) in
  let left := fst (dispatch fuel h MouseOut moved) in
  pointer_of moved = Physics.mkPointer true (clientX - rectLeft) (clientY - rectTop)
  /\ pointer_of left = Physics.mkPointer false (-1000) (-1000)
  /\ particles moved = particles w /\ particles left = particles w
  /\ scheduled left = scheduled w.
Proof.
  intros Hb. cbn zeta.
  destruct (replay_static fuel h evs constructed) as (_ & _ & Hl).
  destruct (Hl Hb) as [Hls _]. cbn [listeners constructed] in Hls.
  set (w := fst (replay fuel h evs constructed)) in *.
  assert (Hmove : dispatch fuel h (MouseMove clientX clientY rectLeft rectTop) w
                  = (set_isMouseOver true
                       (set_mouseY (clientY - rectTop)
                          (set_mouseX (clientX - rectLeft) w)), Return tt)).
  { rewrite dispatch_unfold. unfold has_listener. now rewrite Hls. }
  rewrite Hmove. cbn [fst].
  rewrite dispatch_unfold. unfold has_listener.
  cbn [listeners set_isMouseOver set_mouseY set_mouseX]. rewrite Hls.
  repeat split.
Qed.

Lemma pointer_is_tracked_witness :
  let w := fst (replay 400 sample_host [ImageLoad; AnimationFrame; MouseOut] constructed) in
  let moved := fst (dispatch 400 sample_host (MouseMove 110 60 10 20) w) in
  let left := fst (dispatch 400 sample_host MouseOut moved) in
  pointer_of moved = Physics.mkPointer true (110 - 10) (60 - 20)
  /\ pointer_of left = Physics.mkPointer false (-1000) (-1000)
  /\ particles moved = particles w /\ particles left = particles w
  /\ scheduled left = scheduled w.
Proof.
  apply (pointer_is_tracked 400 sample_host [ImageLoad; AnimationFrame; MouseOut]).
  reflexivity.
Defined.

(** ** The loop keeps itself going *)

Lemma animated_alive (w : World) :
  consistent w -> loaded w = true -> scheduled w = []
  -> listeners w = ["mousemove"; "mouseout"]
  -> programLive w = true -> bufferLive w = true ->
  let w' := animated (flat_map Render.vertex
                        (map (Physics.update_particle (pointer_of w)) (particles w))) w in
  alive w'
  /\ animationId w' = (lastFrameId w + 1)%Z
  /\ draws w' = draws w ++ [particleCount w]
  /\ particleCount w' = particleCount w.
Proof.
  intros Hc Hl Hs Hls Hp Hb. unfold alive, consistent, synced, animated in *. cbn.
  rewrite length_map, Hs. now repeat split.
Qed.

Lemma load_alive (fuel : nat) (h : Host) :
  snd (dispatch fuel h ImageLoad constructed) = Return tt ->
  let w := fst (dispatch fuel h ImageLoad constructed) in
  alive w /\ animationId w = 1%Z /\ draws w = [particleCount w].
Proof.
  cbn zeta. rewrite dispatch_unfold. cbn [onload loaded constructed andb negb].
  unfold bind at 1, put. unfold bind.
  pose proof (createParticles_page fuel h (set_loaded true constructed)) as Hpage.
  pose proof (createParticles_frame_view fuel h (set_loaded true constructed)) as Hview.
  destruct (createParticles_spec fuel h (set_loaded true constructed) eq_refl)
    as (Hc & _ & _ & _).
  destruct (createParticles fuel h (set_loaded true constructed)) as [w o].
  cbn [fst snd] in *. unfold page_view in Hpage. unfold frame_view in Hview.
  cbn in Hpage, Hview.
  injection Hpage as Hsch Hlast Hid _ _ Hls Hl Hd.
  injection Hview as _ _ _ _ _ _ _ _ _ _ Hp Hb _.
  destruct o as [[]| |]; try discriminate. intros _.
  rewrite (animate_unfold w Hc). cbn [fst].
  destruct (animated_alive w) as (Ha & Hi & Hdr & Hn); trivial.
  cbn zeta in *. split; [exact Ha|]. rewrite Hi, Hdr, Hlast, Hd, Hn. now split.
Qed.

Lemma dispatch_alive (fuel : nat) (h : Host) (ev : event) (w : World) :
  from_browser ev = true -> alive w ->
  let w' := fst (dispatch fuel h ev w) in
  let n := frames [ev] in
  snd (dispatch fuel h ev w) = Return tt
  /\ alive w'
  /\ animationId w' = (animationId w + Z.of_nat n)%Z
  /\ draws w' = draws w ++ repeat (particleCount w) n
  /\ particleCount w' = particleCount w.
Proof.
  intros Hev (Hc & Hsy & Hl & Hs & Hlast & Hls & Hp & Hb). cbn zeta.
  rewrite dispatch_unfold. destruct ev as [| |cx cy l t| |]; try discriminate.
  - rewrite Hl, andb_false_r. cbn. rewrite Z.add_0_r, app_nil_r.
    repeat split; assumption.
  - rewrite Hs. cbn [run_callbacks]. unfold bind.
    rewrite (animate_unfold (set_scheduled [] w)) by exact Hc.
    destruct (animated_alive (set_scheduled [] w)) as (Ha & Hi & Hdr & Hn); trivial.
    cbn zeta in *. unfold ret. cbn [fst snd].
    split; [reflexivity|]. split; [exact Ha|].
    rewrite Hi, Hdr, Hn. cbn. rewrite Hlast. now repeat split.
  - unfold has_listener. rewrite Hls. cbn. rewrite Z.add_0_r, app_nil_r.
    repeat split; assumption.
  - unfold has_listener. rewrite Hls. cbn. rewrite Z.add_0_r, app_nil_r.
    repeat split; assumption.
Qed.

Lemma frames_cons (ev : event) (evs : list event) :
  frames (ev :: evs) = (frames [ev] + frames evs)%nat.
Proof. unfold frames. cbn. now destruct ev. Qed.

Lemma replay_alive (fuel : nat) (h : Host) (evs : list event) :
  forall w : World,
    forallb from_browser evs = true -> alive w ->
    let r := replay fuel h evs w in
    snd r = repeat (Return tt) (length evs)
    /\ alive (fst r)
    /\ animationId (fst r) = (animationId w + Z.of_nat (frames evs))%Z
    /\ draws (fst r) = draws w ++ repeat (particleCount w) (frames evs)
    /\ particleCount (fst r) = particleCount w.
Proof.
  induction evs as [|ev evs IH]; intros w Hb Hw; cbn [replay forallb] in *.
  - cbn. rewrite Z.add_0_r, app_nil_r.
    split; [reflexivity|]. split; [exact Hw|]. now repeat split.
  - apply andb_prop in Hb as [Hev Hb].
    destruct (dispatch_alive fuel h ev w Hev Hw) as (Ho & Hw1 & Hi & Hd & Hn).
    cbn zeta in *. destruct (dispatch fuel h ev w) as [w1 o]. cbn [fst snd] in *.
    destruct (IH w1 Hb Hw1) as (Hos & Hw2 & Hi2 & Hd2 & Hn2).
    cbn zeta in *. destruct (replay fuel h evs w1) as [w2 os]. cbn [fst snd] in *.
    rewrite frames_cons. subst o os. repeat split; try apply Hw2.
    + rewrite Hi2, Hi. lia.
    + rewrite Hd2, Hd, Hn, repeat_app, app_assoc. reflexivity.
    + congruence.
Qed.

(** X6: once the particles are created, and as long as [destroy] is not
    called, the loop keeps itself going: no event raises an error, after
    every event exactly one frame is pending and it is the one [animationId]
    names, every presented frame draws all the particles once, and the
    uploaded buffer holds the current particles. *)
Theorem loop_keeps_going (fuel : nat) (h : Host) (evs : list event) :
  snd (dispatch fuel h ImageLoad constructed) = Return tt ->
  forallb from_browser evs = true ->
  let w1 := fst (dispatch fuel h ImageLoad constructed) in
  let r := replay fuel h evs w1 in
  snd r = repeat (Return tt) (length evs)
  /\ scheduled (fst r) = [animationId (fst r)]
  /\ animationId (fst r) = Z.of_nat (1 + frames evs)
  /\ draws (fst r) = repeat (length (particles w1)) (1 + frames evs)
  /\ length (particles (fst r)) = length (particles w1)
  /\ vertexData (fst r) = flat_map Render.vertex (particles (fst r)).
Proof.
  intros Hload Hb. cbn zeta.
  destruct (load_alive fuel h Hload) as (Hw1 & Hid & Hd). cbn zeta in *.
  destruct (replay_alive fuel h evs _ Hb Hw1) as (Hos & Hw & Hi & Hdr & Hn).
  cbn zeta in *.
  destruct Hw as (Hc & Hsy & _ & Hs & _). destruct Hw1 as (Hc1 & _).
  unfold consistent in *.
  repeat split; trivial.
  - rewrite Hi, Hid. lia.
  - rewrite Hdr, Hd, <- Hc1. reflexivity.
  - congruence.
Qed.

Lemma loop_keeps_going_witness :
  let evs := [AnimationFrame; MouseMove 110 60 10 20; AnimationFrame; MouseOut] in
  let w1 := fst (dispatch 400 sample_host ImageLoad constructed) in
  let r := replay 400 sample_host evs w1 in
  snd r = repeat (Return tt) (length evs)
  /\ scheduled (fst r) = [animationId (fst r)]
  /\ animationId (fst r) = Z.of_nat (1 + frames evs)
  /\ draws (fst r) = repeat (length (particles w1)) (1 + frames evs)
  /\ length (particles (fst r)) = length (particles w1)
  /\ vertexData (fst r) = flat_map Render.vertex (particles (fst r)).
Proof.
  apply (loop_keeps_going 400 sample_host
           [AnimationFrame; MouseMove 110 60 10 20; AnimationFrame; MouseOut]).
  - vm_compute. reflexivity.
  - reflexivity.
Defined.

(** ** After [destroy], and after a construction that failed *)

Lemma dispatch_inert (fuel : nat) (h : Host) (ev : event) (w : World) :
  inert w -> dispatch fuel h ev w = (w, Return tt).
Proof.
  intros (Hl & Hs & Hls & Hp & Hb). rewrite dispatch_unfold.
  destruct ev as [| |cx cy l t| |].
  - now rewrite Hl, andb_false_r.
  - rewrite Hs. cbn [run_callbacks]. unfold ret. f_equal.
    destruct w; cbn in *; now subst.
  - unfold has_listener. now rewrite Hls.
  - unfold has_listener. now rewrite Hls.
  - rewrite destroy_unfold, Hs, Hls. f_equal.
    destruct w as [cw ch ps mx my id over pl bl n mm mo on ld ls sch last con vd dr rc].
    cbn in *. subst. unfold unsubscribe. now destruct mm, mo.
Qed.

Lemma replay_fixed (fuel : nat) (h : Host) (w : World) (evs : list event) :
  (forall ev, In ev evs -> dispatch fuel h ev w = (w, Return tt)) ->
  replay fuel h evs w = (w, repeat (Return tt) (length evs)).
Proof.
  induction evs as [|ev evs IH]; intros H; cbn [replay]; [reflexivity|].
  rewrite (H ev) by now left.
  rewrite IH by (intros ev' Hin; apply H; now right). reflexivity.
Qed.

(** X7: once the image has loaded, [destroy] is final. It cancels the
    pending frame, releases the program, the buffer and both listeners and
    keeps the particles; after it, every frame, pointer event or further
    [destroy] returns normally and leaves the whole state, pointer position
    included, exactly as it was. The load event is the one the browser
    delivers for the image: it comes first and no other is in the trace. *)
Theorem destroy_is_final (fuel : nat) (h : Host) (before after : list event) :
  forallb not_a_load before = true -> forallb not_a_load after = true ->
  let w := fst (replay fuel h (ImageLoad :: before) constructed) in
  let w' := fst (destroy w) in
  scheduled w' = [] /\ listeners w' = []
  /\ programLive w' = false /\ bufferLive w' = false
  /\ particles w' = particles w
  /\ replay fuel h after w' = (w', repeat (Return tt) (length after)).
Proof.
  intros _ _. cbn zeta. cbn [replay].
  pose proof (load_running fuel h) as Hw1.
  destruct (dispatch fuel h ImageLoad constructed) as [w1 o1]. cbn [fst] in *.
  pose proof (replay_running fuel h before w1 Hw1) as Hw.
  destruct (replay fuel h before w1) as [w os]. cbn [fst] in *.
  destruct (destroy_running w Hw) as ((Hl & Hs) & Hprog & Hbuf & Hls & Hp & _).
  cbn zeta in *. repeat split; trivial.
  apply replay_fixed. intros ev _. apply dispatch_inert. now repeat split.
Qed.

Lemma destroy_is_final_witness :
  let before := [AnimationFrame; MouseMove 10 10 0 0] in
  let after := [AnimationFrame; MouseOut; MouseMove 20 20 0 0; Destroy] in
  let w := fst (replay 400 sample_host (ImageLoad :: before) constructed) in
  let w' := fst (destroy w) in
  forallb not_a_load before = true /\ forallb not_a_load after = true
  /\ scheduled w' = [] /\ listeners w' = []
  /\ programLive w' = false /\ bufferLive w' = false
  /\ particles w' = particles w
  /\ replay 400 sample_host after w' = (w', repeat (Return tt) (length after)).
Proof.
  intros before after w w'.
  split; [reflexivity|]. split; [reflexivity|].
  exact (destroy_is_final 400 sample_host before after eq_refl eq_refl).
Defined.

Lemma dispatch_unsubscribed (fuel : nat) (h : Host) (ev : event) (w : World) :
  unsubscribed w -> from_browser ev = true -> dispatch fuel h ev w = (w, Return tt).
Proof.
  intros (Hon & Hls & Hs) Hev. rewrite dispatch_unfold.
  destruct w as [cw ch ps mx my id over pl bl n mm mo on ld ls sch last con vd dr rc].
  cbn in *. subst. now destruct ev.
Qed.

Lemma constructor_returns (h : Host) :
  snd (constructor h fresh) = Return tt <->
  webgl2 h = true /\ compiles h VERTEX_SHADER = true
  /\ compiles h FRAGMENT_SHADER = true /\ links h = true.
Proof.
  split.
  - unfold constructor, initWebGL, createShader, createProgram, setupEventListeners.
    destruct (webgl2 h); [|discriminate].
    unfold bind, modify, get, put, throw, ret; cbn.
    destruct (compiles h VERTEX_SHADER); [|discriminate].
    destruct (compiles h FRAGMENT_SHADER); [|discriminate].
    destruct (links h); [|discriminate]. now repeat split.
  - intros (Hgl & Hv & Hf & Hl). now rewrite constructor_ok.
Qed.

Lemma constructor_all_or_nothing (h : Host) :
  constructor h fresh = (constructed, Return tt)
  \/ (unsubscribed (fst (constructor h fresh))
      /\ exists e, snd (constructor h fresh) = Throw e).
Proof.
  unfold constructor, initWebGL, createShader, createProgram, setupEventListeners.
  destruct (webgl2 h); cbn; [|right; split; [now repeat split|eauto]].
  unfold bind, modify, get, put, throw, ret; cbn.
  destruct (compiles h VERTEX_SHADER); cbn; [|right; split; [now repeat split|eauto]].
  destruct (compiles h FRAGMENT_SHADER); cbn; [|right; split; [now repeat split|eauto]].
  destruct (links h); cbn; [|right; split; [now repeat split|eauto]].
  now left.
Qed.

(** X8: the page script constructs the instance only on an element that
    was found. Without the element it returns normally and touches nothing;
    on an element that is not a canvas it raises a [TypeError]. In every
    case the construction is all or nothing: either the instance is fully
    set up, or no handler at all is left behind, so that no later load,
    frame or pointer event has any effect. *)
Theorem main_all_or_nothing (fuel : nat) (el : Page.element) (h : Host) (evs : list event) :
  let r := Page.main el h fresh in
  (snd r = Return tt <->
     el = Page.Missing
     \/ (el = Page.Canvas /\ webgl2 h = true /\ compiles h VERTEX_SHADER = true
         /\ compiles h FRAGMENT_SHADER = true /\ links h = true))
  /\ (el = Page.Missing -> r = (fresh, Return tt))
  /\ (el = Page.Other -> r = (fresh, Throw TypeError))
  /\ (r = (constructed, Return tt)
      \/ (forallb from_browser evs = true ->
          replay fuel h evs (fst r) = (fst r, repeat (Return tt) (length evs)))).
Proof.
  cbn zeta. destruct el; cbn [Page.main].
  - split; [|split; [|split]].
    + split; [now left|reflexivity].
    + reflexivity.
    + discriminate.
    + right. intros Hb. apply replay_fixed. intros ev Hin.
      apply dispatch_unsubscribed; [now repeat split|].
      rewrite forallb_forall in Hb. now apply Hb.
  - split; [|split; [|split]].
    + rewrite constructor_returns. split.
      * intros H. right. now split.
      * intros [H|[_ H]]; [discriminate|exact H].
    + discriminate.
    + discriminate.
    + destruct (constructor_all_or_nothing h) as [H|[H _]]; [now left|right].
      intros Hb. apply replay_fixed. intros ev Hin.
      apply dispatch_unsubscribed; [exact H|].
      rewrite forallb_forall in Hb. now apply Hb.
  - split; [|split; [|split]].
    + split; [discriminate|]. intros [H|[H _]]; discriminate.
    + discriminate.
    + reflexivity.
    + right. intros Hb. apply replay_fixed. intros ev Hin.
      apply dispatch_unsubscribed; [now repeat split|].
      rewrite forallb_forall in Hb. now apply Hb.
Qed.

(** ** What the builder's loops keep *)

Section BuilderAccumulator.

Variable L : Builder.layout.
Variable data : Builder.pixels.
Variable random : nat -> number.
Variable I : Builder.acc -> Prop.
Hypothesis visit_I : forall x y a, I a -> I (Builder.visit L data random x y a).

Lemma row_keeps (fuel : nat) :
  forall (x y : number) (a a' : Builder.acc),
    I a -> Builder.row L data random fuel x y a = Some a' -> I a'.
Proof.
  induction fuel as [|fuel IH]; intros x y a a' H; cbn [Builder.row];
    destruct (x <? Builder.logoWidth L); try discriminate;
    try (intros [= <-]; assumption).
  apply IH. now apply visit_I.
Qed.

Lemma rows_keeps (fuel : nat) :
  forall (y : number) (a a' : Builder.acc),
    I a -> Builder.rows L data random fuel y a = Some a' -> I a'.
Proof.
  induction fuel as [|fuel IH]; intros y a a' H; cbn [Builder.rows];
    destruct (y <? Builder.logoHeight L); try discriminate;
    try (intros [= <-]; assumption).
  destruct (Builder.row _ _ _ _ _ _ _) as [a1|] eqn:Hrow; [|discriminate].
  apply IH. eapply row_keeps; eassumption.
Qed.

End BuilderAccumulator.

(** X9: the builder calls [Math.random] exactly twice per particle, first
    for the depth and then for the size: starting after [calls] earlier
    calls, the particle at index [k] gets its depth from call number
    [calls + 2k] and its size from call number [calls + 2k + 1], and the
    number of calls ends at [calls] plus twice the number of particles. *)
Theorem random_calls_accounting fuel cw ch w h data random calls ps calls' :
  Builder.build fuel cw ch w h data random calls = Some (ps, calls') ->
  calls' = (calls + 2 * length ps)%nat
  /\ forall (k : nat) (p : Particle),
       ps !! k = Some p ->
       Particle.z p = (random (calls + 2 * k)%nat * 2 - 1) * 20
       /\ Particle.size p = random (calls + 2 * k + 1)%nat * 1.5 + 0.9.
Proof.
  intros Hb. unfold Builder.build in Hb.
  apply (rows_keeps _ data random
           (fun a => snd a = (calls + 2 * length (fst a))%nat
                     /\ forall k p, fst a !! k = Some p ->
                          Particle.z p = (random (calls + 2 * k)%nat * 2 - 1) * 20
                          /\ Particle.size p
                             = random (calls + 2 * k + 1)%nat * 1.5 + 0.9)) in Hb.
  - exact Hb.
  - intros x y [qs n] [Hn Hq]. cbn [fst snd] in *. unfold Builder.visit.
    destruct (_ <? _); cbn [fst snd]; [|now split].
    rewrite length_app. cbn [length]. split; [lia|].
    intros k p Hk. destruct (Nat.lt_ge_cases k (length qs)) as [Hlt|Hge].
    + rewrite lookup_app_l in Hk by assumption. now apply Hq.
    + rewrite lookup_app_r in Hk by assumption.
      destruct (k - length qs)%nat as [|j] eqn:Hj; [|discriminate].
      injection Hk as <-. assert (k = length qs) by lia. subst k n.
      cbn [Particle.z Particle.size Builder.new_particle].
      split; [reflexivity|]. do 3 f_equal. lia.
  - cbn. split; [lia|]. intros k p Hk. discriminate.
Qed.

Lemma random_calls_accounting_witness :
  let p := Particle.mk 17.5 74.5 (-10) 0 0 0 17.5 74.5 0 (1, 0, 0, 1) 1.2749999999999999 in
  Builder.build 400 350 150 315 1 one_red_pixel sample_random 5 = Some ([p], 7%nat)
  /\ 7%nat = (5 + 2 * length [p])%nat
  /\ forall (k : nat) (q : Particle),
       [p] !! k = Some q ->
       Particle.z q = (sample_random (5 + 2 * k)%nat * 2 - 1) * 20
       /\ Particle.size q = sample_random (5 + 2 * k + 1)%nat * 1.5 + 0.9.
Proof.
  intros p.
  assert (Hb : Builder.build 400 350 150 315 1 one_red_pixel sample_random 5
               = Some ([p], 7%nat)) by (vm_compute; reflexivity).
  split; [exact Hb|].
  exact (random_calls_accounting 400 350 150 315 1 one_red_pixel sample_random 5 [p] 7 Hb).
Defined.

Lemma channel_of_element (v : option Byte.byte) : channel (Builder.to_number v / 255) = true.
Proof.
  destruct v as [b|]; [|reflexivity]. destruct b; reflexivity.
Qed.

(** ** Binary64 order and magnitude *)

#[local] Open Scope Z_scope.









#[local] Close Scope Z_scope.

(** ** The bitmap is scaled into the canvas *)







(** ** The loops of the builder end *)



Section BuilderTermination.

Variable L : Builder.layout.
Variable data : Builder.pixels.
Variable random : nat -> number.
Hypothesis width_mag : mag_le 12 (Prim2SF (Builder.logoWidth L)).
Hypothesis height_mag : mag_le 11 (Prim2SF (Builder.logoHeight L)).



End BuilderTermination.


(** ** The bitmap that is read back *)

#[local] Open Scope Z_scope.


(** The integer part of a finite number that is not negative. *)
Lemma integer_part_finite (m : positive) (e : Z) :
  let n := match e with
           | Z0 => Zpos m
           | Zpos _ => Z.shiftl (Zpos m) e
           | Zneg k => Z.shiftr (Zpos m) (Zpos k)
           end in
  let d := Zpos (digits2_pos m) in
  0 <= n
  /\ (forall k, 0 <= k -> d + e <= k -> n < 2 ^ k)
  /\ (1 <= d + e -> 1 <= n)
  /\ (d + e <= 0 -> n = 0).
Proof.
  cbn zeta.
  pose proof (Zdigits2_bounds (Zpos m) ltac:(lia)) as [Hlo Hhi]. cbn [Zdigits2] in *.
  set (d := Zpos (digits2_pos m)) in *.
  assert (Hd : 1 <= d) by (subst d; lia).
  destruct e as [|p|p].
  - repeat split; try lia.
    intros k Hk Hdk. eapply Z.lt_le_trans; [exact Hhi|]. apply Z.pow_le_mono_r; lia.
  - rewrite Z.shiftl_mul_pow2 by lia.
    assert (Hp : 0 < 2 ^ Zpos p) by (apply Z.pow_pos_nonneg; lia).
    repeat split; try nia.
    intros k Hk Hdk.
    apply Z.lt_le_trans with (2 ^ (d + Zpos p)); [|apply Z.pow_le_mono_r; lia].
    rewrite Z.pow_add_r by lia. nia.
  - rewrite Z.shiftr_div_pow2 by lia.
    assert (Hp : 0 < 2 ^ Zpos p) by (apply Z.pow_pos_nonneg; lia).
    repeat split.
    + apply Z.div_pos; lia.
    + intros k Hk Hdk. apply Z.div_lt_upper_bound; [lia|].
      apply Z.lt_le_trans with (2 ^ d); [exact Hhi|].
      rewrite <- Z.pow_add_r by lia. apply Z.pow_le_mono_r; lia.
    + intros H1. apply Z.div_le_lower_bound; [lia|].
      rewrite Z.mul_1_r. eapply Z.le_trans; [|exact Hlo].
      apply Z.pow_le_mono_r; lia.
    + intros H0. apply Z.div_small. split; [lia|].
      eapply Z.lt_le_trans; [exact Hhi|]. apply Z.pow_le_mono_r; lia.
Qed.

#[local] Close Scope Z_scope.





(** ** Whole numbers below [2 ^ 53] are computed exactly *)

#[local] Open Scope Z_scope.

Lemma represents_inj (n : Z) (x y : spec_float) :
  represents n x -> represents n y -> x = y.
Proof.
  destruct x as [sx|sx| |sx mx ex], y as [sy|sy| |sy my ey]; cbn [represents];
    try contradiction; try lia.
  - intros [-> _] [-> _]. reflexivity.
  - intros (-> & _ & -> & Hx) (-> & _ & -> & Hy). f_equal. lia.
Qed.

Lemma represents_digits (n : Z) (s : bool) (m : positive) (e : Z) :
  n < 2 ^ 53 -> represents n (S754_finite s m e) ->
  Zpos (digits2_pos m) = 53 /\ -52 <= e <= 0.
Proof.
  cbn [represents]. intros Hn (_ & Hpos & -> & Hm).
  pose proof (Zdigits2_pos n Hpos).
  pose proof (Zdigits2_le n 53 ltac:(lia) ltac:(lia) Hn).
  change (Zpos (digits2_pos m)) with (Zdigits2 (Zpos m)).
  rewrite Hm, Zdigits2_mul_pow2 by lia. lia.
Qed.

(** Rounding a mantissa that ends in enough zeros cuts zeros only. *)
Lemma binary_round_aux_exact (n j : Z) :
  0 < n < 2 ^ 53 -> 0 <= j -> 53 <= Zdigits2 n + j ->
  represents n (binary_round_aux prec emax false (n * 2 ^ j) (- j) loc_Exact).
Proof.
  intros Hn Hj Hd.
  pose proof (Zdigits2_pos n ltac:(lia)) as Hdn.
  pose proof (Zdigits2_le n 53 ltac:(lia) ltac:(lia) ltac:(lia)) as Hdn53.
  assert (Hpj : 0 < 2 ^ j) by (apply Z.pow_pos_nonneg; lia).
  set (M := n * 2 ^ j).
  assert (HM : 0 < M) by (subst M; nia).
  assert (HdM : Zdigits2 M = Zdigits2 n + j) by (apply Zdigits2_mul_pow2; lia).
  set (N := Zdigits2 n + j - 53).
  set (M1 := n * 2 ^ (53 - Zdigits2 n)).
  assert (HM1 : 0 < M1).
  { subst M1. assert (0 < 2 ^ (53 - Zdigits2 n)) by (apply Z.pow_pos_nonneg; lia). nia. }
  assert (HdM1 : Zdigits2 M1 = 53).
  { subst M1. rewrite Zdigits2_mul_pow2 by lia. lia. }
  assert (Hfirst : exists r, shr_fexp prec emax M (- j) loc_Exact = (r, Zdigits2 n - 53)
                             /\ round_nearest_even (shr_m r) (loc_of_shr_record r) = M1).
  { destruct (shr_fexp_spec M (- j) loc_Exact ltac:(lia)) as [Hle Hgt].
    rewrite fexp64, HdM in Hle, Hgt.
    replace (Z.max (Zdigits2 n + j + - j - 53) (-1074) - - j) with N in Hle, Hgt
      by (subst N; lia).
    destruct (Z.eq_dec N 0) as [HN|HN].
    - rewrite (Hle ltac:(lia)). eexists. split; [f_equal; subst N; lia|].
      cbn. subst M M1. f_equal. f_equal. subst N. lia.
    - destruct (Hgt ltac:(subst N; lia)) as (r & -> & Hr & Hb).
      exists r. split; [f_equal; subst N; lia|].
      assert (Hbit : shr_r r = false).
      { rewrite Hb. subst M. apply Z.mul_pow2_bits_low. subst N. lia. }
      rewrite (round_nearest_even_down r Hbit), Hr. subst M M1.
      replace j with ((53 - Zdigits2 n) + N) at 1 by (subst N; lia).
      rewrite Z.pow_add_r by (subst N; lia).
      rewrite Z.mul_assoc. apply Z.div_mul.
      assert (0 < 2 ^ N) by (apply Z.pow_pos_nonneg; subst N; lia). lia. }
  destruct Hfirst as (r & Hr & Hrne).
  unfold binary_round_aux. fold M. rewrite Hr, Hrne.
  destruct (shr_fexp_spec M1 (Zdigits2 n - 53) loc_Exact ltac:(lia)) as [Hle _].
  rewrite fexp64, HdM1 in Hle. rewrite (Hle ltac:(lia)).
  rewrite shr_m_record_of_loc.
  destruct M1 as [|m1|m1] eqn:E; try lia.
  replace (Zdigits2 n - 53 <=? emax - prec) with true
    by (symmetry; apply Z.leb_le; change (emax - prec) with 971; lia).
  cbn [represents]. repeat split; lia.
Qed.

(** So does normalizing it. *)
Lemma binary_normalize_exact (n j : Z) :
  0 <= n < 2 ^ 53 -> 0 <= j ->
  represents n (binary_normalize prec emax (n * 2 ^ j) (- j) false).
Proof.
  intros Hn Hj.
  assert (Hpj : 0 < 2 ^ j) by (apply Z.pow_pos_nonneg; lia).
  destruct (Z.eq_dec n 0) as [->|Hn0]; [cbn; split; reflexivity|].
  pose proof (Zdigits2_pos n ltac:(lia)) as Hdn.
  pose proof (Zdigits2_le n 53 ltac:(lia) ltac:(lia) ltac:(lia)) as Hdn53.
  destruct (n * 2 ^ j) as [|P|P] eqn:HP; try nia.
  cbn [binary_normalize]. unfold binary_round.
  pose proof (shl_align_spec P (- j) (fexp prec emax (Zpos (digits2_pos P) + - j))) as Hal.
  destruct (shl_align _ _ _) as [mz ez]. destruct Hal as [Hez Hmz].
  change (Zpos (digits2_pos P)) with (Zdigits2 (Zpos P)) in Hez.
  rewrite <- HP, Zdigits2_mul_pow2, fexp64 in Hez by lia.
  set (j' := Z.max j (53 - Zdigits2 n)).
  assert (Hez' : ez = - j') by (subst j'; lia).
  assert (Hmz' : Zpos mz = n * 2 ^ j').
  { rewrite Hmz, <- HP, <- Z.mul_assoc, <- Z.pow_add_r by lia. f_equal. f_equal. lia. }
  rewrite Hmz', Hez'. apply binary_round_aux_exact; subst j'; lia.
Qed.

Lemma SFadd_exact (a b : Z) (x y : spec_float) :
  represents a x -> represents b y -> a + b < 2 ^ 53 ->
  represents (a + b) (SFadd prec emax x y).
Proof.
  destruct x as [sx|sx| |sx mx ex], y as [sy|sy| |sy my ey]; cbn [represents];
    try contradiction.
  - intros [-> ->] [-> ->] _. cbn. split; reflexivity.
  - intros [-> ->] H _. cbn [SFadd]. exact H.
  - intros H [-> ->] _. cbn [SFadd]. rewrite Z.add_0_r. exact H.
  - intros (-> & Ha & -> & Hmx) (-> & Hb & -> & Hmy) Hab.
    pose proof (Zdigits2_pos a Ha) as Hda.
    pose proof (Zdigits2_pos b Hb) as Hdb.
    pose proof (Zdigits2_le a 53 ltac:(lia) ltac:(lia) ltac:(lia)) as Hda53.
    pose proof (Zdigits2_le b 53 ltac:(lia) ltac:(lia) ltac:(lia)) as Hdb53.
    cbn [SFadd]. set (ez := Z.min (Zdigits2 a - 53) (Zdigits2 b - 53)).
    rewrite !aligned_mantissa by (subst ez; lia). cbn [cond_Zopp].
    rewrite Hmx, Hmy, <- !Z.mul_assoc, <- !Z.pow_add_r by (subst ez; lia).
    replace (53 - Zdigits2 a + (Zdigits2 a - 53 - ez)) with (- ez) by lia.
    replace (53 - Zdigits2 b + (Zdigits2 b - 53 - ez)) with (- ez) by lia.
    rewrite <- Z.mul_add_distr_r.
    replace ez with (- - ez) at 2 by lia.
    apply binary_normalize_exact; subst ez; lia.
Qed.

Lemma SFmul_exact (a b : Z) (x y : spec_float) :
  represents a x -> represents b y -> a * b < 2 ^ 53 ->
  represents (a * b) (SFmul prec emax x y).
Proof.
  destruct x as [sx|sx| |sx mx ex], y as [sy|sy| |sy my ey]; cbn [represents];
    try contradiction.
  - intros [-> ->] [-> ->] _. cbn. split; reflexivity.
  - intros [-> ->] (-> & _) _. cbn. split; reflexivity.
  - intros (-> & _) [-> ->] _. cbn. split; [reflexivity|lia].
  - intros (-> & Ha & -> & Hmx) (-> & Hb & -> & Hmy) Hab.
    pose proof (Zdigits2_pos a Ha) as Hda.
    pose proof (Zdigits2_pos b Hb) as Hdb.
    assert (Ha53 : a < 2 ^ 53) by nia.
    assert (Hb53 : b < 2 ^ 53) by nia.
    pose proof (Zdigits2_le a 53 ltac:(lia) ltac:(lia) ltac:(lia)) as Hda53.
    pose proof (Zdigits2_le b 53 ltac:(lia) ltac:(lia) ltac:(lia)) as Hdb53.
    pose proof (Zdigits2_mul a b Ha Hb) as Hdab.
    cbn [SFmul xorb]. rewrite Pos2Z.inj_mul, Hmx, Hmy.
    set (j := (53 - Zdigits2 a) + (53 - Zdigits2 b)).
    replace (a * 2 ^ (53 - Zdigits2 a) * (b * 2 ^ (53 - Zdigits2 b)))
      with (a * b * 2 ^ j) by (subst j; rewrite Z.pow_add_r by lia; ring).
    replace (Zdigits2 a - 53 + (Zdigits2 b - 53)) with (- j) by (subst j; lia).
    apply binary_round_aux_exact; subst j; nia.
Qed.

(** A whole number against a number that is at least 1 and below [2 ^ 53]. *)
Lemma SFltb_exact (j : Z) (x : spec_float) (m : positive) (e : Z) :
  represents j x -> j < 2 ^ 53 ->
  Zpos (digits2_pos m) = 53 -> -52 <= e <= 0 ->
  SFltb x (S754_finite false m e) = (j * 2 ^ (- e) <? Zpos m).
Proof.
  intros Hx Hj Hdm He.
  pose proof (Zdigits2_bounds (Zpos m) ltac:(lia)) as Hm. cbn [Zdigits2] in Hm.
  rewrite Hdm in Hm.
  unfold SFltb. destruct x as [sx|sx| |sx mx ex]; cbn [represents] in Hx; try contradiction.
  - destruct Hx as [-> ->]. cbn. symmetry. apply Z.ltb_lt. lia.
  - destruct Hx as (-> & Hpos & -> & Hmx).
    pose proof (Zdigits2_pos j Hpos) as Hdj.
    pose proof (Zdigits2_le j 53 ltac:(lia) ltac:(lia) Hj) as Hdj53.
    pose proof (Zdigits2_bounds j Hpos) as Hbj.
    cbn [SFcompare].
    destruct (Z.compare_spec (Zdigits2 j - 53) e) as [Heq|Hlt|Hgt].
    + change (PosDef.Pos.compare_cont Eq mx m) with (Zpos mx ?= Zpos m).
      rewrite Hmx. replace (- e) with (53 - Zdigits2 j) by lia.
      unfold Z.ltb. now destruct (_ ?= _).
    + symmetry. apply Z.ltb_lt.
      apply Z.lt_le_trans with (2 ^ Zdigits2 j * 2 ^ (- e)).
      * assert (0 < 2 ^ (- e)) by (apply Z.pow_pos_nonneg; lia). nia.
      * rewrite <- Z.pow_add_r by lia.
        apply Z.le_trans with (2 ^ (53 - 1)); [apply Z.pow_le_mono_r; lia|lia].
    + symmetry. apply Z.ltb_ge.
      apply Z.le_trans with (2 ^ (Zdigits2 j - 1) * 2 ^ (- e)).
      * rewrite <- Z.pow_add_r by lia.
        apply Z.le_trans with (2 ^ 53); [lia|apply Z.pow_le_mono_r; lia].
      * assert (0 < 2 ^ (- e)) by (apply Z.pow_pos_nonneg; lia). nia.
Qed.

Lemma index_of_exact (i : number) (n : Z) :
  represents n (Prim2SF i) -> n < 2 ^ 53 -> Builder.index_of i = Some n.
Proof.
  unfold Builder.index_of. intros H Hn.
  destruct (Prim2SF i) as [s|s| |s m e]; cbn [represents] in H; try contradiction.
  - destruct H as [_ ->]. reflexivity.
  - destruct H as (-> & Hpos & -> & Hm).
    pose proof (Zdigits2_pos n Hpos) as Hdn.
    pose proof (Zdigits2_le n 53 ltac:(lia) ltac:(lia) Hn) as Hdn53.
    destruct (Zdigits2 n - 53) as [|p|p] eqn:He; try lia.
    + f_equal. rewrite Hm. replace (53 - Zdigits2 n) with 0 by lia. lia.
    + replace (53 - Zdigits2 n) with (Zpos p) in Hm by lia.
      rewrite Z.land_ones, Z.shiftr_div_pow2, Hm by lia.
      assert (0 < 2 ^ Zpos p) by (apply Z.pow_pos_nonneg; lia).
      rewrite Z.mod_mul, Z.div_mul by lia. reflexivity.
Qed.

Lemma whole_exact (n : nat) :
  Z.of_nat n < 2 ^ 53 -> represents (Z.of_nat n) (Prim2SF (whole n)).
Proof.
  intros Hn. unfold whole. rewrite FloatAxioms.of_uint63_spec, Uint63.of_Z_spec.
  rewrite Z.mod_small by (change wB with (2 ^ 63); lia).
  replace (Z.of_nat n) with (Z.of_nat n * 2 ^ 0) at 2 by lia.
  change 0 with (- 0) at 2. apply binary_normalize_exact; lia.
Qed.

#[local] Close Scope Z_scope.

Lemma whole_add (a b : nat) :
  (Z.of_nat (a + b) < 2 ^ 53)%Z -> whole a + whole b = whole (a + b).
Proof.
  intros H. apply Prim2SF_inj. rewrite FloatAxioms.add_spec.
  apply (represents_inj (Z.of_nat (a + b))); [|apply whole_exact; lia].
  rewrite Nat2Z.inj_add. apply SFadd_exact; try apply whole_exact; lia.
Qed.

Lemma whole_mul (a b : nat) :
  (Z.of_nat a < 2 ^ 53)%Z -> (Z.of_nat b < 2 ^ 53)%Z -> (Z.of_nat (a * b) < 2 ^ 53)%Z ->
  whole a * whole b = whole (a * b).
Proof.
  intros Ha Hb H. apply Prim2SF_inj. rewrite FloatAxioms.mul_spec.
  apply (represents_inj (Z.of_nat (a * b))); [|apply whole_exact; lia].
  rewrite Nat2Z.inj_mul. apply SFmul_exact; try apply whole_exact; lia.
Qed.

Lemma whole_ltb (a b : nat) :
  (Z.of_nat a < 2 ^ 53)%Z -> (Z.of_nat b < 2 ^ 53)%Z ->
  (whole a <? whole b) = (a <? b)%nat.
Proof.
  intros Ha Hb. rewrite FloatAxioms.ltb_spec.
  pose proof (whole_exact a Ha) as Hxa. pose proof (whole_exact b Hb) as Hxb.
  destruct (Prim2SF (whole b)) as [s|s| |s m e] eqn:E; cbn [represents] in Hxb;
    try contradiction.
  - destruct Hxb as [-> Hb0]. assert (b = 0%nat) as -> by lia.
    destruct (Prim2SF (whole a)) as [sa|sa| |sa ma ea]; cbn [represents] in Hxa;
      try contradiction.
    + reflexivity.
    + destruct Hxa as (-> & _). reflexivity.
  - pose proof (represents_digits _ _ _ _ Hb Hxb) as [Hdm He].
    destruct Hxb as (-> & Hpos & -> & Hm).
    rewrite (SFltb_exact (Z.of_nat a)) by (assumption || lia).
    rewrite Hm. replace (- (Zdigits2 (Z.of_nat b) - 53))%Z with (53 - Zdigits2 (Z.of_nat b))%Z by lia.
    assert (0 < 2 ^ (53 - Zdigits2 (Z.of_nat b)))%Z by (apply Z.pow_pos_nonneg; lia).
    destruct (Nat.ltb_spec a b); [apply Z.ltb_lt|apply Z.ltb_ge]; nia.
Qed.

Lemma index_of_whole (n : nat) :
  (Z.of_nat n < 2 ^ 53)%Z -> Builder.index_of (whole n) = Some (Z.of_nat n).
Proof.
  intros H. apply index_of_exact; [apply whole_exact|]; assumption.
Qed.

Lemma element_whole (data : Builder.pixels) (n : nat) :
  (Z.of_nat n < 2 ^ 53)%Z -> Builder.element data (whole n) = data !! n.
Proof.
  intros H. unfold Builder.element. rewrite index_of_whole by assumption.
  rewrite Nat2Z.id. destruct (Z.ltb_spec (Z.of_nat n) (Z.of_nat (length data))); [reflexivity|].
  symmetry. apply lookup_ge_None. lia.
Qed.

(** ** The loops of the builder over a bitmap of whole width *)

Lemma integer_part_side (H : number) (sh : nat) :
  integer_part H = Some (Z.of_nat sh) -> (1 <= sh)%nat -> (Z.of_nat sh < 2 ^ 52)%Z ->
  forall j : nat,
    ((j < sh)%nat -> (whole j <? H) = true)
    /\ ((sh < j)%nat -> (Z.of_nat j < 2 ^ 53)%Z -> (whole j <? H) = false).
Proof.
  unfold integer_part. intros Hi H1 H52 j.
  pose proof (Prim2SF_valid H) as Hv.
  rewrite FloatAxioms.ltb_spec.
  destruct (Prim2SF H) as [s|s| |s m e]; try discriminate.
  { injection Hi as Hi. lia. }
  apply valid_finite in Hv as (Hd & He & Hsub).
  pose proof (integer_part_finite m e) as Hn. cbn zeta in Hn.
  set (n := match e with
            | Z0 => Zpos m
            | Zpos _ => Z.shiftl (Zpos m) e
            | Zneg k => Z.shiftr (Zpos m) (Zpos k)
            end) in *.
  destruct Hn as (Hn0 & Hup & Hlo & Hz).
  injection Hi as Hi.
  destruct s; cbn [cond_Zopp] in Hi; [lia|].
  assert (Hde : (1 <= Zpos (digits2_pos m) + e)%Z).
  { destruct (Z.le_gt_cases (Zpos (digits2_pos m) + e) 0) as [Hle|Hgt]; [|lia].
    specialize (Hz Hle). lia. }
  assert (Hd53 : Zpos (digits2_pos m) = 53%Z) by lia.
  pose proof (Zdigits2_bounds (Zpos m) ltac:(lia)) as Hm. cbn [Zdigits2] in Hm.
  rewrite Hd53 in Hm.
  destruct e as [|p|p].
  - subst n. lia.
  - subst n. rewrite Z.shiftl_mul_pow2 in Hi by lia.
    assert (0 < 2 ^ Zpos p)%Z by (apply Z.pow_pos_nonneg; lia). nia.
  - subst n. rewrite Z.shiftr_div_pow2 in Hi by lia.
    assert (Hp : (0 < 2 ^ Zpos p)%Z) by (apply Z.pow_pos_nonneg; lia).
    pose proof (Z.mul_div_le (Zpos m) (2 ^ Zpos p) Hp) as Hfloor.
    pose proof (Z.mul_succ_div_gt (Zpos m) (2 ^ Zpos p) Hp) as Hceil.
    rewrite Hi in Hfloor, Hceil.
    split.
    + intros Hj. rewrite (SFltb_exact (Z.of_nat j)); try lia.
      * apply Z.ltb_lt. change (- Z.neg p)%Z with (Zpos p). nia.
      * apply whole_exact. lia.
    + intros Hj Hj53. rewrite (SFltb_exact (Z.of_nat j)); try lia.
      * apply Z.ltb_ge. change (- Z.neg p)%Z with (Zpos p). nia.
      * apply whole_exact. lia.
Qed.

Lemma fold_left_flat_map {A B C : Type} (g : A -> B -> A) (f : C -> list B) (l : list C) :
  forall a, fold_left g (flat_map f l) a = fold_left (fun a c => fold_left g (f c) a) l a.
Proof.
  induction l as [|c l IH]; intros a; cbn [flat_map fold_left]; [reflexivity|].
  now rewrite fold_left_app, IH.
Qed.

Lemma fold_left_over_map {A B C : Type} (g : A -> B -> A) (h : C -> B) (l : list C) :
  forall a, fold_left g (map h l) a = fold_left (fun a c => g a (h c)) l a.
Proof.
  induction l as [|c l IH]; intros a; cbn [map fold_left]; [reflexivity|]. apply IH.
Qed.

Lemma fold_left_same {A B : Type} (f g : A -> B -> A) (l : list B) :
  (forall a b, f a b = g a b) -> forall a, fold_left f l a = fold_left g l a.
Proof.
  intros Hfg. induction l as [|b l IH]; intros a; cbn [fold_left]; [reflexivity|].
  now rewrite Hfg, IH.
Qed.

Lemma bitmap_pixels_inside (sw sh : nat) (xy : nat * nat) :
  In xy (bitmap_pixels sw sh) -> (fst xy < sw)%nat /\ (snd xy < sh)%nat.
Proof.
  unfold bitmap_pixels. rewrite in_flat_map. intros (y & Hy & Hx).
  apply in_map_iff in Hx as (x & <- & Hx). apply in_seq in Hy, Hx. cbn. lia.
Qed.

Section WholeWidth.

Variable L : Builder.layout.
Variable data : Builder.pixels.
Variable random : nat -> number.
Variables sw sh : nat.
Hypothesis width_whole : Builder.logoWidth L = whole sw.
Hypothesis width_pos : (1 <= sw)%nat.
Hypothesis small : (Z.of_nat (4 * sw * (sh + 2)) < 2 ^ 53)%Z.

Lemma pixelIndex_whole (x y : nat) :
  (x < sw)%nat -> (y <= sh)%nat ->
  Builder.pixelIndex L (whole x) (whole y) = whole ((y * sw + x) * 4).
Proof.
  intros Hx Hy. unfold Builder.pixelIndex. rewrite width_whole.
  replace 4 with (whole 4) by reflexivity.
  rewrite whole_mul, whole_add, whole_mul by nia. reflexivity.
Qed.

Lemma read_whole (x y c : nat) :
  (x < sw)%nat -> (y <= sh)%nat -> (c < 4)%nat ->
  Builder.element data (Builder.pixelIndex L (whole x) (whole y) + whole c)
  = pixel_byte sw data x y c.
Proof.
  intros Hx Hy Hc. rewrite pixelIndex_whole, whole_add, element_whole by nia.
  reflexivity.
Qed.

(** The alpha the code reads is the alpha byte of the pixel. *)
Lemma alpha_whole (x y : nat) :
  (x < sw)%nat -> (y <= sh)%nat ->
  Builder.alpha L data (whole x) (whole y) = pixel_alpha sw data x y.
Proof.
  intros Hx Hy. unfold Builder.alpha. replace 3 with (whole 3) by reflexivity.
  apply read_whole; lia.
Qed.

Lemma row_whole (y : number) (fuel : nat) :
  forall (k : nat) (a a' : Builder.acc),
    (k <= sw)%nat ->
    Builder.row L data random fuel (whole k) y a = Some a' ->
    a' = fold_left (fun a x => Builder.visit L data random (whole x) y a) (seq k (sw - k)) a.
Proof.
  induction fuel as [|fuel IH]; intros k a a' Hk; cbn [Builder.row];
    rewrite width_whole, whole_ltb by nia;
    destruct (Nat.ltb_spec k sw) as [Hlt|Hge]; try discriminate.
  - intros [= <-]. replace (sw - k)%nat with 0%nat by lia. reflexivity.
  - replace (whole k + Builder.particleGap) with (whole (S k)).
    2:{ unfold Builder.particleGap. replace 1 with (whole 1) by reflexivity.
        rewrite whole_add by nia. f_equal. lia. }
    intros H. apply IH in H; [|lia]. rewrite H.
    replace (sw - k)%nat with (S (sw - S k)) by lia. reflexivity.
  - intros [= <-]. replace (sw - k)%nat with 0%nat by lia. reflexivity.
Qed.

(** A visit of a pixel of the bitmap builds the particle of that pixel, if
    the alpha byte of the pixel is above 128. *)
Lemma visit_whole (x y : nat) (a : Builder.acc) :
  (x < sw)%nat -> (y < sh)%nat ->
  Builder.visit L data random (whole x) (whole y) a
  = if above_128 (pixel_alpha sw data x y)
    then (fst a ++ [pixel_particle L sw data random x y (snd a)], S (S (snd a)))
    else a.
Proof.
  intros Hx Hy. unfold Builder.visit.
  rewrite threshold_on_bytes, alpha_whole by lia.
  destruct (above_128 _); [|reflexivity].
  assert (H0 : Builder.element data (Builder.pixelIndex L (whole x) (whole y))
               = pixel_byte sw data x y 0).
  { rewrite pixelIndex_whole, element_whole by nia. unfold pixel_byte. f_equal. lia. }
  assert (H1 : Builder.element data (Builder.pixelIndex L (whole x) (whole y) + 1)
               = pixel_byte sw data x y 1).
  { replace 1 with (whole 1) by reflexivity. apply read_whole; lia. }
  assert (H2 : Builder.element data (Builder.pixelIndex L (whole x) (whole y) + 2)
               = pixel_byte sw data x y 2).
  { replace 2 with (whole 2) by reflexivity. apply read_whole; lia. }
  unfold Builder.new_particle, pixel_particle. cbn zeta. now rewrite H0, H1, H2.
Qed.

(** What the visits of pixels of the bitmap add to a view of the particles
    that does not look at the random numbers. *)
Lemma visits_view {T : Type} (v : Particle -> T) (l : list (nat * nat)) :
  (forall x y c c', v (pixel_particle L sw data random x y c)
                    = v (pixel_particle L sw data random x y c')) ->
  Forall (fun xy => (fst xy < sw)%nat /\ (snd xy < sh)%nat) l ->
  forall a,
    let yield := fun xy : nat * nat =>
      if above_128 (pixel_alpha sw data (fst xy) (snd xy))
      then [v (pixel_particle L sw data random (fst xy) (snd xy) 0)] else [] in
    let a' := fold_left (fun a xy => Builder.visit L data random (whole (fst xy)) (whole (snd xy)) a)
                        l a in
    map v (fst a') = map v (fst a) ++ flat_map yield l
    /\ length (fst a') = (length (fst a) + length (flat_map yield l))%nat.
Proof.
  intros Hv. induction 1 as [|[x y] l [Hx Hy] _ IH]; intros a; cbn [fold_left flat_map].
  - rewrite app_nil_r. cbn. split; [reflexivity|lia].
  - cbn [fst snd] in *. cbn zeta in IH.
    destruct (IH (Builder.visit L data random (whole x) (whole y) a)) as [IH1 IH2].
    rewrite IH1, IH2. clear IH IH1 IH2.
    rewrite visit_whole by lia.
    destruct (above_128 _); cbn [fst snd].
    + rewrite map_app, <- app_assoc, !length_app. cbn [map length app].
      rewrite (Hv x y (snd a) 0%nat). split; [reflexivity|lia].
    + split; [reflexivity|]. cbn. lia.
Qed.

Hypothesis data_length : length data = (4 * sw * sh)%nat.

(** A row below the bitmap reads no element, and yields nothing. *)
Lemma visit_below (x : nat) (a : Builder.acc) :
  (x < sw)%nat -> Builder.visit L data random (whole x) (whole sh) a = a.
Proof.
  intros Hx. unfold Builder.visit. rewrite alpha_whole by lia.
  unfold pixel_alpha, pixel_byte.
  rewrite (proj2 (lookup_ge_None data _)) by (rewrite data_length; lia).
  reflexivity.
Qed.

Lemma row_below (l : list nat) (a : Builder.acc) :
  Forall (fun x => (x < sw)%nat) l ->
  fold_left (fun a x => Builder.visit L data random (whole x) (whole sh) a) l a = a.
Proof.
  induction 1 as [|x l Hx _ IH]; cbn [fold_left]; [reflexivity|].
  now rewrite visit_below.
Qed.

Hypothesis rows_below : forall j, (j < sh)%nat -> (whole j <? Builder.logoHeight L) = true.
Hypothesis rows_above : (whole (S sh) <? Builder.logoHeight L) = false.

Lemma rows_whole (fuel : nat) :
  forall (j : nat) (a a' : Builder.acc),
    (j <= sh)%nat ->
    Builder.rows L data random fuel (whole j) a = Some a' ->
    a' = fold_left
           (fun a y => fold_left (fun a x => Builder.visit L data random (whole x) (whole y) a)
                                 (seq 0 sw) a)
           (seq j (sh - j)) a.
Proof.
  assert (Hnext : forall j, (j <= sh)%nat -> whole j + Builder.particleGap = whole (S j)).
  { intros j Hj. unfold Builder.particleGap. replace 1 with (whole 1) by reflexivity.
    rewrite whole_add by nia. f_equal. lia. }
  induction fuel as [|fuel IH]; intros j a a' Hj; cbn [Builder.rows].
  - destruct (Nat.eq_dec j sh) as [->|Hne].
    + replace (sh - sh)%nat with 0%nat by lia. cbn [seq fold_left].
      destruct (whole sh <? Builder.logoHeight L); [discriminate|].
      intros [= ->]. reflexivity.
    + rewrite rows_below by lia. discriminate.
  - destruct (Nat.eq_dec j sh) as [->|Hne].
    + replace (sh - sh)%nat with 0%nat by lia. cbn [seq fold_left].
      destruct (whole sh <? Builder.logoHeight L); [|intros [= ->]; reflexivity].
      destruct (Builder.row _ _ _ _ _ _ _) as [a1|] eqn:Hrow; [|discriminate].
      replace 0 with (whole 0) in Hrow by reflexivity.
      apply row_whole in Hrow; [|lia].
      rewrite row_below in Hrow.
      2:{ apply Forall_forall. intros x Hx. apply elem_of_seq in Hx. lia. }
      subst a1. rewrite Hnext by lia.
      destruct fuel; cbn [Builder.rows]; rewrite rows_above; intros [= ->]; reflexivity.
    + rewrite rows_below by lia.
      destruct (Builder.row _ _ _ _ _ _ _) as [a1|] eqn:Hrow; [|discriminate].
      replace 0 with (whole 0) in Hrow by reflexivity.
      apply row_whole in Hrow; [|lia]. rewrite Nat.sub_0_r in Hrow.
      rewrite Hnext by lia. intros H. apply IH in H; [|lia]. rewrite H, Hrow.
      replace (sh - j)%nat with (S (sh - S j)) by lia. reflexivity.
Qed.

(** The loops visit the pixels of the bitmap, each once, row by row. *)
Lemma rows_bitmap (fuel : nat) (a a' : Builder.acc) :
  Builder.rows L data random fuel 0 a = Some a' ->
  a' = fold_left (fun a xy => Builder.visit L data random (whole (fst xy)) (whole (snd xy)) a)
                 (bitmap_pixels sw sh) a.
Proof.
  intros H. replace 0 with (whole 0) in H by reflexivity.
  apply rows_whole in H; [|lia]. rewrite Nat.sub_0_r in H. rewrite H.
  unfold bitmap_pixels. rewrite fold_left_flat_map.
  apply fold_left_same. intros b y. now rewrite fold_left_over_map.
Qed.

End WholeWidth.

Lemma enforce_range_long_part (a : number) (n : Z) :
  enforce_range_long a = Some n -> integer_part a = Some n /\ (n < 2 ^ 31)%Z.
Proof.
  unfold enforce_range_long. destruct (integer_part a) as [k|]; [|discriminate].
  destruct (_ && _) eqn:E; [|discriminate]. intros [= ->].
  apply andb_true_iff in E as [_ E]. apply Z.leb_le in E. split; [reflexivity|lia].
Qed.

Lemma getImageData_size (W H : number) (sw sh : nat) :
  getImageData W H = inl (Z.of_nat sw, Z.of_nat sh) ->
  integer_part H = Some (Z.of_nat sh)
  /\ (1 <= sw)%nat /\ (1 <= sh)%nat /\ (Z.of_nat sh < 2 ^ 31)%Z.
Proof.
  unfold getImageData.
  destruct (enforce_range_long W) as [a|] eqn:Ha; [|discriminate].
  destruct (enforce_range_long H) as [b|] eqn:Hb; [|discriminate].
  destruct (_ || _) eqn:E; [discriminate|]. intros [= -> ->].
  apply orb_false_iff in E as [E1 E2]. apply Z.eqb_neq in E1, E2.
  apply enforce_range_long_part in Hb as [Hb Hb31]. repeat split; trivial; lia.
Qed.

(** The build over a bitmap of whole width visits the pixels of the bitmap,
    each once, row by row. *)
Lemma build_bitmap (fuel : nat) (cw ch iw ih : number) (data : Builder.pixels)
    (random : nat -> number) (calls : nat) (sw sh : nat) (a' : Builder.acc) :
  let L := Builder.compute_layout cw ch iw ih in
  getImageData (Builder.logoWidth L) (Builder.logoHeight L) = inl (Z.of_nat sw, Z.of_nat sh) ->
  Builder.logoWidth L = whole sw ->
  length data = (4 * sw * sh)%nat ->
  (Z.of_nat (length data) < 2 ^ 50)%Z ->
  Builder.build fuel cw ch iw ih data random calls = Some a' ->
  (Z.of_nat (4 * sw * (sh + 2)) < 2 ^ 53)%Z /\ (1 <= sw)%nat
  /\ a' = fold_left (fun a xy => Builder.visit L data random (whole (fst xy)) (whole (snd xy)) a)
                    (bitmap_pixels sw sh) ([], calls).
Proof.
  intros L Hsize HW Hlen Hsmall Hb.
  apply getImageData_size in Hsize as (Hpart & Hsw & Hsh & Hsh31).
  assert (Hbound : (Z.of_nat (4 * sw * (sh + 2)) < 2 ^ 53)%Z) by nia.
  split; [exact Hbound|]. split; [exact Hsw|].
  pose proof (integer_part_side _ _ Hpart Hsh ltac:(lia)) as Hside.
  unfold Builder.build in Hb. fold L in Hb.
  apply (rows_bitmap L data random sw sh) in Hb; trivial.
  - intros j Hj. now apply (Hside j).
  - apply (Hside (S sh)); lia.
Qed.

(** ** Which pixels yield a particle *)

Lemma yield_count {T : Type} (above : nat * nat -> bool) (one : nat * nat -> T)
    (l : list (nat * nat)) :
  length (flat_map (fun xy => if above xy then [one xy] else []) l)
  = length (List.filter above l).
Proof.
  induction l as [|xy l IH]; cbn [flat_map List.filter]; [reflexivity|].
  rewrite length_app, IH. now destruct (above xy).
Qed.

(** C2, amended: when the scaled width is a whole number of pixels, a pixel
    of the scaled bitmap yields exactly one particle if and only if its
    alpha byte is strictly greater than 128, and none with an alpha of 128
    or less: the particles built are, row by row, one for each pixel of the
    bitmap whose alpha byte is above 128, anchored at the offset plus the
    coordinates of that pixel, and the alpha the code reads for a pixel is
    the alpha byte of that pixel. *)
Theorem C2_alpha_threshold (fuel : nat) (cw ch iw ih : number) (data : Builder.pixels)
    (random : nat -> number) (calls : nat) (sw sh : nat)
    (ps : list Particle) (calls' : nat) :
  let L := Builder.compute_layout cw ch iw ih in
  getImageData (Builder.logoWidth L) (Builder.logoHeight L) = inl (Z.of_nat sw, Z.of_nat sh) ->
  Builder.logoWidth L = whole sw ->
  length data = (4 * sw * sh)%nat ->
  (Z.of_nat (length data) < 2 ^ 50)%Z ->
  Builder.build fuel cw ch iw ih data random calls = Some (ps, calls') ->
  map anchored_at ps = flat_map (pixel_yield L sw data) (bitmap_pixels sw sh)
  /\ length ps
     = length (List.filter (fun xy => above_128 (pixel_alpha sw data (fst xy) (snd xy)))
                           (bitmap_pixels sw sh))
  /\ (forall x y, (x < sw)%nat -> (y < sh)%nat ->
        Builder.alpha L data (whole x) (whole y) = pixel_alpha sw data x y).
Proof.
  intros L Hsize HW Hlen Hsmall Hb.
  destruct (build_bitmap _ _ _ _ _ _ _ _ _ _ _ Hsize HW Hlen Hsmall Hb) as (Hbound & Hsw & Ha).
  fold L in Ha.
  destruct (visits_view L data random sw sh HW Hsw Hbound anchored_at (bitmap_pixels sw sh))
    with (a := ([] : list Particle, calls)) as [Hmap Hcount].
  { reflexivity. }
  { apply Forall_forall. intros xy Hxy. apply bitmap_pixels_inside.
    now apply list_elem_of_In. }
  rewrite <- Ha in Hmap, Hcount. cbn [fst map app length] in Hmap, Hcount.
  split; [exact Hmap|]. split.
  - rewrite Hcount. cbn [Nat.add]. apply yield_count.
  - intros x y Hx Hy. apply (alpha_whole L data sw sh); trivial; lia.
Qed.

Lemma C2_alpha_threshold_witness :
  let L := Builder.compute_layout 350 150 630 3 in
  (Builder.logoWidth L, Builder.logoHeight L) = (315, 1.5)
  /\ Builder.build 400 350 150 630 3 threshold_row sample_random 0
     = Some (threshold_particles, 4%nat)
  /\ map anchored_at threshold_particles
     = flat_map (pixel_yield L 315 threshold_row) (bitmap_pixels 315 1)
  /\ length threshold_particles
     = length (List.filter (fun xy => above_128 (pixel_alpha 315 threshold_row (fst xy) (snd xy)))
                           (bitmap_pixels 315 1))
  /\ (forall x y, (x < 315)%nat -> (y < 1)%nat ->
        Builder.alpha L threshold_row (whole x) (whole y) = pixel_alpha 315 threshold_row x y).
Proof.
  intros L.
  assert (Hb : Builder.build 400 350 150 630 3 threshold_row sample_random 0
               = Some (threshold_particles, 4%nat)) by (vm_compute; reflexivity).
  split; [vm_compute; reflexivity|]. split; [exact Hb|].
  refine (C2_alpha_threshold 400 350 150 630 3 threshold_row sample_random 0 315 1
            threshold_particles 4 _ _ _ _ Hb).
  - vm_compute. reflexivity.
  - vm_compute. reflexivity.
  - vm_compute. reflexivity.
  - vm_compute. reflexivity.
Defined.

(** When the scaled width is not a whole number the index
    [(y * logoWidth + x) * 4] is computed from the width as it is, not from
    the width of the bitmap: an image 3 by 7 is scaled to 57.857... by 135,
    the bitmap is 57 wide, and for its opaque pixel (1, 1) the code reads
    the index 238.43..., which is no element, and builds nothing. *)
Lemma fractional_width_misses_pixel :
  let L := Builder.compute_layout 350 150 3 7 in
  Builder.logoWidth L = 57.857142857142854
  /\ getImageData (Builder.logoWidth L) (Builder.logoHeight L) = inl (57, 135)%Z
  /\ pixel_alpha 57 opaque_bitmap 1 1 = Some Byte.xff
  /\ Builder.pixelIndex L 1 1 + 3 = 238.42857142857142
  /\ Builder.alpha L opaque_bitmap 1 1 = None
  /\ Builder.visit L opaque_bitmap sample_random 1 1 ([], 0%nat) = ([], 0%nat).
Proof.
  vm_compute. repeat split.
Qed.

(** X10: every particle the builder creates is fully opaque, its color
    alpha being exactly 1, and its red, green and blue are the three bytes
    the code reads at [pixelIndex], [pixelIndex + 1] and [pixelIndex + 2] of
    the pixel it was built for, each divided by 255: a number between 0 and
    1, or NaN when the read falls outside the data. When the scaled width is
    a whole number of pixels these are the red, green and blue bytes of that
    very pixel, so that the colors of the particles are, row by row, the
    colors of the pixels of the bitmap whose alpha byte is above 128. *)
Theorem colors_are_normalized fuel cw ch w h data random calls ps calls' :
  Builder.build fuel cw ch w h data random calls = Some (ps, calls') ->
  let L := Builder.compute_layout cw ch w h in
  Forall (fun p =>
            exists x y,
              anchored_at p = (Builder.offsetX L + x, Builder.offsetY L + y)
              /\ above_128 (Builder.alpha L data x y) = true
              /\ Particle.color p
                 = (Builder.to_number (Builder.element data (Builder.pixelIndex L x y)) / 255,
                    Builder.to_number (Builder.element data (Builder.pixelIndex L x y + 1)) / 255,
                    Builder.to_number (Builder.element data (Builder.pixelIndex L x y + 2)) / 255,
                    1)
              /\ let '(red, green, blue, a) := Particle.color p in
                 a = 1 /\ channel red = true /\ channel green = true /\ channel blue = true) ps
  /\ forall sw sh : nat,
       getImageData (Builder.logoWidth L) (Builder.logoHeight L) = inl (Z.of_nat sw, Z.of_nat sh) ->
       Builder.logoWidth L = whole sw ->
       length data = (4 * sw * sh)%nat ->
       (Z.of_nat (length data) < 2 ^ 50)%Z ->
       map Particle.color ps = flat_map (pixel_colors sw data) (bitmap_pixels sw sh).
Proof.
  intros Hb L. split.
  - unfold Builder.build in Hb. fold L in Hb.
    match goal with
    | |- Forall ?P ps =>
        apply (rows_keeps L data random (fun a => Forall P (fst a))) in Hb;
          [exact Hb| |constructor]
    end.
    intros x y a Ha. unfold Builder.visit.
    destruct (128 <? _) eqn:E; [|exact Ha].
    rewrite threshold_on_bytes in E. cbn [fst].
    apply Forall_app. split; [exact Ha|]. constructor; [|constructor].
    exists x, y. cbn. repeat split; trivial; apply channel_of_element.
  - intros sw sh Hsize HW Hlen Hsmall.
    destruct (build_bitmap _ _ _ _ _ _ _ _ _ _ _ Hsize HW Hlen Hsmall Hb) as (Hbound & Hsw & Ha).
    fold L in Ha.
    destruct (visits_view L data random sw sh HW Hsw Hbound Particle.color (bitmap_pixels sw sh))
      with (a := ([] : list Particle, calls)) as [Hmap _].
    { reflexivity. }
    { apply Forall_forall. intros xy Hxy. apply bitmap_pixels_inside.
      now apply list_elem_of_In. }
    rewrite <- Ha in Hmap. exact Hmap.
Qed.

Lemma colors_are_normalized_witness :
  Builder.build 400 350 150 630 3 threshold_row sample_random 0
  = Some (threshold_particles, 4%nat)
  /\ Forall (fun p =>
              let '(red, green, blue, a) := Particle.color p in
              a = 1 /\ channel red = true /\ channel green = true /\ channel blue = true)
           threshold_particles
  /\ map Particle.color threshold_particles = [(1, 0, 0, 1); (0, 1, 0, 1)]
  /\ map Particle.color threshold_particles
     = flat_map (pixel_colors 315 threshold_row) (bitmap_pixels 315 1).
Proof.
  assert (Hb : Builder.build 400 350 150 630 3 threshold_row sample_random 0
               = Some (threshold_particles, 4%nat)) by (vm_compute; reflexivity).
  destruct (colors_are_normalized 400 350 150 630 3 threshold_row sample_random 0
              threshold_particles 4 Hb) as [Hall Hcolors].
  split; [exact Hb|]. split.
  - eapply Forall_impl; [exact Hall|]. intros p (x & y & _ & _ & _ & H). exact H.
  - split; [reflexivity|]. apply (Hcolors 315%nat 1%nat); vm_compute; reflexivity.
Defined.

(** ** The projection *)

#[local] Open Scope Z_scope.

Lemma div_eucl_shiftl (m : positive) (n : Z) :
  0 <= n -> Z.div_eucl (Z.shiftl (Zpos m) n) (Zpos m) = (2 ^ n, 0).
Proof.
  intros Hn. rewrite Z.shiftl_mul_pow2 by assumption.
  pose proof (Z.div_mul (2 ^ n) (Zpos m) ltac:(lia)) as Hq.
  pose proof (Z.mod_mul (2 ^ n) (Zpos m) ltac:(lia)) as Hr.
  rewrite (Z.mul_comm (2 ^ n)) in Hq, Hr. unfold Z.div, Z.modulo in Hq, Hr.
  destruct (Z.div_eucl (Zpos m * 2 ^ n) (Zpos m)) as [q r]. congruence.
Qed.

(** A finite number divided by itself is 1, and by its opposite is -1. *)
Lemma SFdiv_same (s s' : bool) (m : positive) (e : Z) :
  SFdiv prec emax (S754_finite s m e) (S754_finite s' m e)
  = S754_finite (xorb s s') 4503599627370496 (-52).
Proof.
  cbn [SFdiv]. unfold SFdiv_core_binary.
  rewrite Z.sub_diag, Z.sub_diag, fexp64.
  change (Z.min (Z.max (0 - 53) (-1074)) 0) with (-53).
  change (0 - -53) with 53.
  cbv beta iota zeta. rewrite div_eucl_shiftl by lia.
  assert (Hl : new_location (Zpos m) 0 = loc_Exact).
  { unfold new_location. now destruct (Z.even _). }
  rewrite Hl. now destruct (xorb s s').
Qed.

#[local] Close Scope Z_scope.

Lemma finite_nonzero (a : number) :
  is_finite a = true -> strict_eq a 0 = false ->
  exists s m e, Prim2SF a = S754_finite s m e.
Proof.
  unfold strict_eq. rewrite is_finite_spec, eqb_zero_spec.
  destruct (Prim2SF a) as [s|s| |s m e]; try discriminate. eauto.
Qed.

Lemma div_same (a : number) :
  is_finite a = true -> strict_eq a 0 = false ->
  a / a = 1 /\ (- a) / a = -1 /\ (- a) / (- a) = 1.
Proof.
  intros Hf Hz. destruct (finite_nonzero a Hf Hz) as (s & m & e & Ha).
  repeat split; apply Prim2SF_inj;
    rewrite FloatAxioms.div_spec, ?FloatAxioms.opp_spec, Ha; cbn [SFopp];
    rewrite SFdiv_same; now destruct s.
Qed.

Lemma add_sub_zero (a : number) :
  is_finite a = true -> strict_eq a 0 = false ->
  a + 0 = a /\ a - 0 = a /\ 0 + a = a /\ 0 - a = - a.
Proof.
  intros Hf Hz. destruct (finite_nonzero a Hf Hz) as (s & m & e & Ha).
  repeat split; apply Prim2SF_inj;
    rewrite ?FloatAxioms.add_spec, ?FloatAxioms.sub_spec, ?FloatAxioms.opp_spec, Ha;
    reflexivity.
Qed.

(** X12: for a canvas whose width and height are finite and not zero, the
    orthographic projection has its two scale factors on the diagonal,
    [2 / width] and [2 / -height], the depth factor [-0.001], and the
    translation (-1, 1, -0): the top-left corner of the canvas goes to the
    top-left corner of clip space, whatever the size of the canvas. *)
Theorem projection_matrix_shape (w : World) :
  is_finite (canvasWidth w) = true -> strict_eq (canvasWidth w) 0 = false ->
  is_finite (canvasHeight w) = true -> strict_eq (canvasHeight w) 0 = false ->
  Render.getProjectionMatrix w
  = [Math_fround (2 / canvasWidth w); 0; 0; 0;
     0; Math_fround (2 / - canvasHeight w); 0; 0;
     0; 0; Math_fround (-0.001); 0;
     -1; 1; -0; 1].
Proof.
  intros Hfw Hzw Hfh Hzh. unfold Render.getProjectionMatrix. cbv zeta.
  destruct (add_sub_zero _ Hfw Hzw) as (-> & -> & _ & _).
  destruct (add_sub_zero _ Hfh Hzh) as (_ & _ & -> & ->).
  destruct (div_same _ Hfw Hzw) as (_ & -> & _).
  destruct (div_same _ Hfh Hzh) as (_ & _ & ->).
  reflexivity.
Qed.

Lemma projection_matrix_shape_witness :
  Render.getProjectionMatrix constructed
  = [Math_fround (2 / 350); 0; 0; 0;
     0; Math_fround (2 / - 150); 0; 0;
     0; 0; Math_fround (-0.001); 0;
     -1; 1; -0; 1].
Proof.
  apply (projection_matrix_shape constructed); reflexivity.
Defined.

(** X13: the canvas is 350 by 150 from the construction on, whatever it
    was before and whatever happens later, [destroy] included; so the
    projection that [animate] uploads is the same at every frame. *)
Theorem projection_is_constant (fuel : nat) (h : Host) (evs : list event) :
  let w := fst (replay fuel h evs constructed) in
  canvasWidth w = 350 /\ canvasHeight w = 150
  /\ Render.getProjectionMatrix w
     = [0.0057142856530845165; 0; 0; 0;
        0; -0.013333333656191826; 0; 0;
        0; 0; -0.0010000000474974513; 0;
        -1; 1; -0; 1].
Proof.
  cbn zeta. destruct (replay_static fuel h evs constructed) as (Hw & Hh & _).
  cbn zeta in *. cbn [canvasWidth canvasHeight constructed] in Hw, Hh.
  split; [exact Hw|]. split; [exact Hh|].
  unfold Render.getProjectionMatrix. rewrite Hw, Hh. vm_compute. reflexivity.
Qed.
